(** * opda.utils: interval estimation utilities

    A shallow embedding of [src/opda/utils.py] (sorting helper, the
    Dvoretzky-Kiefer-Wolfowitz epsilon, equal-tailed and highest-density
    beta intervals with their coverage duals, and the Clopper-Pearson
    binomial interval), followed by the properties of these functions.

    Conventions of the embedding:
    - a Python/NumPy float is a [float64]: a real number or one of the
      IEEE special values (+inf, -inf, nan).  Arithmetic on finite values
      is exact (rounding and overflow are not modelled) and every zero is
      the positive zero, which is the zero produced by the subtractions
      whose results the code divides by;
    - a NumPy array is an [ndarray] of dimension 0 or 1, with NumPy's
      broadcasting between the two;
    - a raised exception is a [Raise] result;
    - [scipy.stats.beta] is an external collaborator: a [BetaEvaluator]
      supplying [cdf] and [ppf], total (it answers nan on invalid
      arguments and never raises). *)

From Stdlib Require Import Reals Lra Lia List ZArith Bool.
From Stdlib Require Import Permutation Sorted ClassicalEpsilon.
Import ListNotations.

Open Scope R_scope.

(** ** Exceptions *)

Inductive exn : Type :=
| ValueError
| OverflowError
| IndexError
| UnboundLocalError.

Inductive result (A : Type) : Type :=
| Ok (a : A)
| Raise (e : exn).

Arguments Ok {A} a.
Arguments Raise {A} e.

Definition bind {A B : Type} (m : result A) (k : A -> result B) : result B :=
  match m with
  | Ok a => k a
  | Raise e => Raise e
  end.

Notation "x <- m ;; k" := (bind m (fun x => k))
  (at level 61, m at next level, right associativity).
Notation "' p <- m ;; k" := (bind m (fun p => k))
  (at level 61, p pattern, m at next level, right associativity).

(** [if cond: raise e] *)
Definition raise_if (cond : bool) (e : exn) : result unit :=
  if cond then Raise e else Ok tt.

Definition succeeds {A : Type} (m : result A) : Prop :=
  exists a, m = Ok a.

(** ** Floats *)

Inductive float64 : Type :=
| Fin (r : R)
| PInf
| NInf
| NaN.

Definition Rleb (x y : R) : bool := if Rle_dec x y then true else false.
Definition Rltb (x y : R) : bool := if Rlt_dec x y then true else false.
Definition Reqb (x y : R) : bool := if Req_dec_T x y then true else false.

Module F.

(** Comparisons: every comparison with nan is false. *)
Definition le (x y : float64) : bool :=
  match x, y with
  | NaN, _ | _, NaN => false
  | NInf, _ => true
  | _, PInf => true
  | Fin a, Fin b => Rleb a b
  | _, _ => false
  end.

Definition lt (x y : float64) : bool :=
  match x, y with
  | NaN, _ | _, NaN => false
  | PInf, _ => false
  | _, NInf => false
  | Fin a, Fin b => Rltb a b
  | _, _ => true
  end.

Definition ge (x y : float64) : bool := le y x.
Definition gt (x y : float64) : bool := lt y x.

Definition opp (x : float64) : float64 :=
  match x with
  | Fin a => Fin (- a)
  | PInf => NInf
  | NInf => PInf
  | NaN => NaN
  end.

Definition add (x y : float64) : float64 :=
  match x, y with
  | NaN, _ | _, NaN => NaN
  | Fin a, Fin b => Fin (a + b)
  | PInf, NInf | NInf, PInf => NaN
  | PInf, _ | _, PInf => PInf
  | NInf, _ | _, NInf => NInf
  end.

Definition sub (x y : float64) : float64 := add x (opp y).

(** The infinity with the sign of [r]; [inf * 0] is nan. *)
Definition signed_inf (r : R) : float64 :=
  if Rltb 0 r then PInf else if Rltb r 0 then NInf else NaN.

Definition mul (x y : float64) : float64 :=
  match x, y with
  | NaN, _ | _, NaN => NaN
  | Fin a, Fin b => Fin (a * b)
  | PInf, Fin r | Fin r, PInf => signed_inf r
  | NInf, Fin r | Fin r, NInf => signed_inf (- r)
  | PInf, PInf | NInf, NInf => PInf
  | PInf, NInf | NInf, PInf => NInf
  end.

(** Division: a finite non-zero value over zero is an infinity of its
    sign, [0 / 0] and [inf / inf] are nan. *)
Definition div (x y : float64) : float64 :=
  match x, y with
  | NaN, _ | _, NaN => NaN
  | Fin a, Fin b => if Reqb b 0 then signed_inf a else Fin (a / b)
  | Fin _, _ => Fin 0
  | PInf, Fin b => if Rltb b 0 then NInf else PInf
  | NInf, Fin b => if Rltb b 0 then PInf else NInf
  | _, _ => NaN
  end.

Definition abs (x : float64) : float64 :=
  match x with
  | Fin a => Fin (Rabs a)
  | PInf | NInf => PInf
  | NaN => NaN
  end.

(** [np.sqrt] *)
Definition sqrt (x : float64) : float64 :=
  match x with
  | Fin a => if Rltb a 0 then NaN else Fin (R_sqrt.sqrt a)
  | PInf => PInf
  | _ => NaN
  end.

(** [np.log] *)
Definition log (x : float64) : float64 :=
  match x with
  | Fin a => if Rltb 0 a then Fin (ln a)
             else if Reqb a 0 then NInf else NaN
  | PInf => PInf
  | _ => NaN
  end.

(** [np.log2] *)
Definition log2 (x : float64) : float64 := div (log x) (Fin (ln 2)).

(** [np.ceil] *)
Definition ceil (x : float64) : float64 :=
  match x with
  | Fin a => Fin (IZR (- Int_part (- a)))
  | _ => x
  end.

(** [np.maximum] and [np.minimum]: nan propagates. *)
Definition maximum (x y : float64) : float64 :=
  match x, y with
  | NaN, _ | _, NaN => NaN
  | _, _ => if le x y then y else x
  end.

Definition minimum (x y : float64) : float64 :=
  match x, y with
  | NaN, _ | _, NaN => NaN
  | _, _ => if le x y then x else y
  end.

(** [np.clip(x, lo, hi)], which is [minimum(maximum(x, lo), hi)]. *)
Definition clip (x lo hi : float64) : float64 :=
  minimum (maximum x lo) hi.

(** Whether a real is an integer, and then whether it is odd. *)
Definition is_int (r : R) : bool := Reqb r (IZR (Int_part r)).
Definition is_odd_int (r : R) : bool := is_int r && Z.odd (Int_part r).

(** [x ** p] ([np.power] on floats, the C [pow]). *)
Definition pow (x p : float64) : float64 :=
  match x, p with
  | Fin a, Fin s =>
      if Reqb s 0 then Fin 1
      else if Rltb 0 a then Fin (Rpower a s)
      else if Reqb a 0 then (if Rltb 0 s then Fin 0 else PInf)
      else if is_int s
           then Fin ((if Z.odd (Int_part s) then -1 else 1) * Rpower (- a) s)
           else NaN
  | Fin a, PInf =>
      if Reqb (Rabs a) 1 then Fin 1
      else if Rltb (Rabs a) 1 then Fin 0 else PInf
  | Fin a, NInf =>
      if Reqb (Rabs a) 1 then Fin 1
      else if Rltb (Rabs a) 1 then PInf else Fin 0
  | Fin a, NaN => if Reqb a 1 then Fin 1 else NaN
  | PInf, Fin s => if Reqb s 0 then Fin 1
                   else if Rltb 0 s then PInf else Fin 0
  | NInf, Fin s => if Reqb s 0 then Fin 1
                   else if Rltb s 0 then Fin 0
                   else if is_odd_int s then NInf else PInf
  | (PInf | NInf), PInf => PInf
  | (PInf | NInf), NInf => Fin 0
  | NaN, Fin s => if Reqb s 0 then Fin 1 else NaN
  | _, _ => NaN
  end.

End F.

Declare Scope float_scope.
Delimit Scope float_scope with fl.
Bind Scope float_scope with float64.
Infix "+" := F.add : float_scope.
Infix "-" := F.sub : float_scope.
Infix "*" := F.mul : float_scope.
Infix "/" := F.div : float_scope.
Infix "**" := F.pow (at level 30, right associativity) : float_scope.
Infix "<=?" := F.le (at level 70) : float_scope.
Infix "<?" := F.lt (at level 70) : float_scope.
Infix ">=?" := F.ge (at level 70) : float_scope.
Infix ">?" := F.gt (at level 70) : float_scope.

(** Python's builtin [max(2, v)]: the first argument unless the second is
    strictly greater (so [max(2, nan)] is 2). *)
Definition py_max (x y : float64) : float64 :=
  if F.gt y x then y else x.

(** Python's [int(v)] on a float: truncation toward zero; it raises
    OverflowError on an infinity and ValueError on nan. *)
Definition py_int (v : float64) : result Z :=
  match v with
  | Fin r => Ok (if Rltb r 0 then (- Int_part (- r))%Z else Int_part r)
  | PInf | NInf => Raise OverflowError
  | NaN => Raise ValueError
  end.

(** [for _ in range(n): s = body(s)], where the body may raise. *)
Fixpoint for_range {S : Type} (n : nat) (body : S -> result S) (s : S)
  : result S :=
  match n with
  | O => Ok s
  | Datatypes.S n' => s' <- body s ;; for_range n' body s'
  end.

(** The body instrumented with a counter of its executions. *)
Definition counting {S : Type} (body : S -> result S)
  : S * nat -> result (S * nat) :=
  fun '(s, c) => s' <- body s ;; Ok (s', Datatypes.S c).

(** The number of times the loop enters its body: [n] unless an iteration
    raises, which ends the loop. *)
Fixpoint for_range_steps {S : Type} (n : nat) (body : S -> result S) (s : S)
  : nat :=
  match n with
  | O => O
  | Datatypes.S n' =>
      match body s with
      | Ok s' => Datatypes.S (for_range_steps n' body s')
      | Raise _ => 1
      end
  end.

(** A local variable read at the end of a function: it is unbound (and
    reading it raises UnboundLocalError) until its first assignment. *)
Definition read_local {A : Type} (v : option A) : result A :=
  match v with
  | Some a => Ok a
  | None => Raise UnboundLocalError
  end.

(** ** Arrays *)

(** A NumPy array of dimension 0 ([Scalar], shape [()]) or dimension 1
    ([Vector l], shape [(length l,)]). *)
Inductive ndarray (A : Type) : Type :=
| Scalar (x : A)
| Vector (l : list A).

Arguments Scalar {A} x.
Arguments Vector {A} l.

Module Np.

(** The elements in index order. *)
Definition elements {A : Type} (m : ndarray A) : list A :=
  match m with
  | Scalar x => [x]
  | Vector l => l
  end.

Definition size {A : Type} (m : ndarray A) : nat := length (elements m).

(** [arr.shape]: [None] for [()], [Some n] for [(n,)]. *)
Definition shape {A : Type} (m : ndarray A) : option nat :=
  match m with
  | Scalar _ => None
  | Vector l => Some (length l)
  end.

(** An elementwise operation on one array. *)
Definition map {A B : Type} (f : A -> B) (m : ndarray A) : ndarray B :=
  match m with
  | Scalar x => Scalar (f x)
  | Vector l => Vector (List.map f l)
  end.

(** Broadcasting of two arrays against each other: a scalar or a
    one-element vector is stretched, equal lengths are paired, anything
    else is NumPy's "operands could not be broadcast together"
    ValueError. *)
Definition broadcast2 {A B : Type} (x : ndarray A) (y : ndarray B)
  : result (ndarray (A * B)) :=
  match x, y with
  | Scalar a, Scalar b => Ok (Scalar (a, b))
  | Scalar a, Vector lb => Ok (Vector (List.map (pair a) lb))
  | Vector la, Scalar b => Ok (Vector (List.map (fun a => (a, b)) la))
  | Vector la, Vector lb =>
      if Nat.eqb (length la) (length lb) then Ok (Vector (combine la lb))
      else match la, lb with
           | [a], _ => Ok (Vector (List.map (pair a) lb))
           | _, [b] => Ok (Vector (List.map (fun a => (a, b)) la))
           | _, _ => Raise ValueError
           end
  end.

Definition broadcast3 {A B C : Type}
  (x : ndarray A) (y : ndarray B) (z : ndarray C)
  : result (ndarray (A * B * C)) :=
  xy <- broadcast2 x y ;;
  broadcast2 xy z.

(** An elementwise operation on two, three or four arrays: the
    operands are broadcast together and the kernel is applied to each
    tuple of elements.  A NumPy expression over several arrays is
    modelled as one such operation on the arrays it names (the outcome
    of broadcasting does not depend on the order in which the operands
    are combined). *)
Definition map2 {A B C : Type} (f : A -> B -> C)
  (x : ndarray A) (y : ndarray B) : result (ndarray C) :=
  xy <- broadcast2 x y ;;
  Ok (map (fun '(a, b) => f a b) xy).

Definition map3 {A B C D : Type} (f : A -> B -> C -> D)
  (x : ndarray A) (y : ndarray B) (z : ndarray C) : result (ndarray D) :=
  xyz <- broadcast3 x y z ;;
  Ok (map (fun '(a, b, c) => f a b c) xyz).

Definition map4 {A B C D E : Type} (f : A -> B -> C -> D -> E)
  (x : ndarray A) (y : ndarray B) (z : ndarray C) (w : ndarray D)
  : result (ndarray E) :=
  xyz <- broadcast3 x y z ;;
  xyzw <- broadcast2 xyz w ;;
  Ok (map (fun '(a, b, c, d) => f a b c d) xyzw).

(** [np.any] *)
Definition any (m : ndarray bool) : bool := existsb (fun b => b) (elements m).

(** [np.max]: nan propagates; an empty array has no maximum and raises
    ValueError. *)
Definition max (m : ndarray float64) : result float64 :=
  match elements m with
  | [] => Raise ValueError
  | x :: l => Ok (fold_left F.maximum l x)
  end.

(** [bool(arr)], the test of [if arr:]: the element of a one-element
    array; for more than one element NumPy raises "the truth value of
    an array with more than one element is ambiguous", a ValueError, and
    so it does for an empty array (since NumPy 2.2; earlier versions
    deprecated that case). *)
Definition truth (m : ndarray bool) : result bool :=
  match elements m with
  | [b] => Ok b
  | _ => Raise ValueError
  end.

End Np.

(** Every element of the array satisfies [P]. *)
Definition all {A : Type} (P : A -> Prop) (m : ndarray A) : Prop :=
  Forall P (Np.elements m).

(** ** [dkw_epsilon] *)

Definition dkw_epsilon (n confidence : ndarray float64)
  : result (ndarray float64) :=
  (* Validate the arguments. *)
  n_nonpos <- Np.truth (Np.map (fun n => n <=? Fin 0)%fl n) ;;
  _ <- raise_if n_nonpos ValueError ;;
  _ <- raise_if
         (Np.any (Np.map (fun c => (c <? Fin 0) || (c >? Fin 1))%fl confidence))
         ValueError ;;
  (* Compute the DKW epsilon. *)
  Np.map2
    (fun c n => F.sqrt (F.log (Fin 2 / (Fin 1 - c)) / (Fin 2 * n)))%fl
    confidence n.

(** ** The beta distribution evaluator

    [cdf beta a b x] is [scipy.stats.beta(a, b).cdf(x)] and [ppf beta a b q]
    is [scipy.stats.beta(a, b).ppf(q)]. *)
Record BetaEvaluator : Type := {
  cdf : float64 -> float64 -> float64 -> float64;
  ppf : float64 -> float64 -> float64 -> float64
}.

Section Intervals.

Variable beta : BetaEvaluator.

Local Open Scope float_scope.

Local Notation "0" := (Fin 0%R) : float_scope.
Local Notation "1" := (Fin 1%R) : float_scope.
Local Notation "2" := (Fin 2%R) : float_scope.

(** *** [beta_equal_tailed_interval] *)

Definition beta_equal_tailed_interval (a b coverage : ndarray float64)
  : result (ndarray float64 * ndarray float64) :=
  (* Validate the arguments. *)
  _ <- raise_if (Np.any (Np.map (fun a => a <=? 0) a)) ValueError ;;
  _ <- raise_if (Np.any (Np.map (fun b => b <=? 0) b)) ValueError ;;
  _ <- raise_if
         (Np.any (Np.map (fun c => (c <? 0) || (c >? 1)) coverage))
         ValueError ;;
  (* Compute the equal-tailed interval. *)
  x <- Np.map3 (fun a b coverage => ppf beta a b ((1 - coverage) / 2))
         a b coverage ;;
  y <- Np.map3 (fun a b coverage => ppf beta a b ((1 + coverage) / 2))
         a b coverage ;;
  Ok (x, y).

(** *** [beta_highest_density_interval] *)

(** [np.clip((a - 1) / (a + b - 2), 0., 1.)] *)
Definition beta_mode (a b : float64) : float64 :=
  F.clip ((a - 1) / (a + b - 2)) 0 1.

(** The unnormalized beta density raised to the power [1/(b-1)]:
    [x**((a-1)/(b-1)) * (1-x)]. *)
Definition density_proxy (x a b : float64) : float64 :=
  x ** ((a - 1) / (b - 1)) * (1 - x).

(** [int(np.ceil(np.log2(max(2, np.max(width) / atol))))] *)
Definition n_iterations (width : ndarray float64) (atol : float64)
  : result Z :=
  w <- Np.max width ;;
  py_int (F.ceil (F.log2 (py_max 2 (w / atol)))).

(** The variables of the binary search for the lower endpoint; [x] and
    [y] are first assigned in the loop. *)
Record hdi_state : Type := {
  x_lo : ndarray float64;
  x_hi : ndarray float64;
  hdi_x : option (ndarray float64);
  hdi_y : option (ndarray float64)
}.

Definition hdi_body (a b coverage : ndarray float64) (s : hdi_state)
  : result hdi_state :=
  x <- Np.map2 (fun x_lo x_hi => (x_lo + x_hi) / 2) (x_lo s) (x_hi s) ;;
  y <- Np.map4
         (fun x a b coverage =>
            ppf beta a b (F.clip (cdf beta a b x + coverage) 0 1))
         x a b coverage ;;
  y <- Np.map2 (fun y x => F.clip y x 1) y x ;;
  x_pdf <- Np.map3 density_proxy x a b ;;
  y_pdf <- Np.map3 density_proxy y a b ;;
  x_lo' <- Np.map4
             (fun x_pdf y_pdf x x_lo => if x_pdf <=? y_pdf then x else x_lo)
             x_pdf y_pdf x (x_lo s) ;;
  x_hi' <- Np.map4
             (fun x_pdf y_pdf x x_hi => if x_pdf >=? y_pdf then x else x_hi)
             x_pdf y_pdf x (x_hi s) ;;
  Ok {| x_lo := x_lo'; x_hi := x_hi'; hdi_x := Some x; hdi_y := Some y |}.

(** Everything up to the loop: validation, the initial bracket and the
    number of iterations. *)
Definition hdi_setup (a b coverage : ndarray float64) (atol : float64)
  : result (nat * hdi_state) :=
  (* Validate the arguments. *)
  _ <- raise_if (Np.any (Np.map (fun a => a <=? 0) a)) ValueError ;;
  _ <- raise_if (Np.any (Np.map (fun b => b <=? 0) b)) ValueError ;;
  _ <- raise_if
         (Np.any (Np.map (fun c => (c <? 0) || (c >? 1)) coverage))
         ValueError ;;
  no_mode <- Np.map2 (fun a b => (a <=? 1) && (b <=? 1)) a b ;;
  _ <- raise_if (Np.any no_mode) ValueError ;;
  (* Compute the highest density interval. *)
  mode <- Np.map2 beta_mode a b ;;
  (* Initialize bounds. *)
  x_lo0 <- Np.map4
             (fun a b coverage mode =>
                ppf beta a b (F.maximum (cdf beta a b mode - coverage) 0))
             a b coverage mode ;;
  x_hi0 <- Np.map4
             (fun a b coverage mode =>
                F.minimum mode (ppf beta a b (1 - coverage)))
             a b coverage mode ;;
  (* Binary search for the lower endpoint. *)
  width <- Np.map2 F.sub x_hi0 x_lo0 ;;
  n_iter <- n_iterations width atol ;;
  Ok (Z.to_nat n_iter,
      {| x_lo := x_lo0; x_hi := x_hi0; hdi_x := None; hdi_y := None |}).

Definition beta_highest_density_interval
  (a b coverage : ndarray float64) (atol : float64)
  : result (ndarray float64 * ndarray float64) :=
  '(n_iter, s0) <- hdi_setup a b coverage atol ;;
  s <- for_range n_iter (hdi_body a b coverage) s0 ;;
  x <- read_local (hdi_x s) ;;
  y <- read_local (hdi_y s) ;;
  Ok (x, y).

(** *** [beta_equal_tailed_coverage] *)

Definition beta_equal_tailed_coverage (a b x : ndarray float64)
  : result (ndarray float64) :=
  Np.map3 (fun a b x => 2 * F.abs (Fin (1/2) - cdf beta a b x)) a b x.

(** *** [beta_highest_density_coverage] *)

(** The variables of the binary search for the other end; [y] is first
    assigned in the loop. *)
Record hdc_state : Type := {
  y_lo : ndarray float64;
  y_hi : ndarray float64;
  hdc_y : option (ndarray float64)
}.

Definition hdc_body (a b : ndarray float64)
  (x_is_lower_end : ndarray bool) (x_pdf : ndarray float64) (s : hdc_state)
  : result hdc_state :=
  y <- Np.map2 (fun y_lo y_hi => (y_lo + y_hi) / 2) (y_lo s) (y_hi s) ;;
  y_pdf <- Np.map3 density_proxy y a b ;;
  y_is_lo <- Np.map3
               (fun x_is_lower_end x_pdf y_pdf =>
                  Bool.eqb x_is_lower_end (x_pdf <? y_pdf))
               x_is_lower_end x_pdf y_pdf ;;
  y_lo' <- Np.map3 (fun (c : bool) y y_lo => if c then y else y_lo)
             y_is_lo y (y_lo s) ;;
  y_hi' <- Np.map3 (fun (c : bool) y y_hi => if negb c then y else y_hi)
             y_is_lo y (y_hi s) ;;
  Ok {| y_lo := y_lo'; y_hi := y_hi'; hdc_y := Some y |}.

(** Everything up to the loop; also returns [x_is_lower_end] and
    [x_pdf], which the loop and the final lines read. *)
Definition hdc_setup (a b x : ndarray float64) (atol : float64)
  : result (nat * hdc_state * ndarray bool * ndarray float64) :=
  no_mode <- Np.map2 (fun a b => (a <=? 1) && (b <=? 1)) a b ;;
  _ <- raise_if (Np.any no_mode) ValueError ;;
  mode <- Np.map2 beta_mode a b ;;
  x_is_lower_end <- Np.map2 (fun mode x => x <? mode) mode x ;;
  x_pdf <- Np.map3 (fun a b x => density_proxy x a b) a b x ;;
  (* Initialize bounds. *)
  y_lo0 <- Np.map2 (fun (c : bool) mode => if c then mode else 0)
             x_is_lower_end mode ;;
  y_hi0 <- Np.map2 (fun (c : bool) mode => if c then 1 else mode)
             x_is_lower_end mode ;;
  (* Binary search for the other end. *)
  width <- Np.map2 F.sub y_hi0 y_lo0 ;;
  n_iter <- n_iterations width atol ;;
  Ok (Z.to_nat n_iter,
      {| y_lo := y_lo0; y_hi := y_hi0; hdc_y := None |},
      x_is_lower_end, x_pdf).

Definition beta_highest_density_coverage
  (a b x : ndarray float64) (atol : float64) : result (ndarray float64) :=
  '(n_iter, s0, x_is_lower_end, x_pdf) <- hdc_setup a b x atol ;;
  s <- for_range n_iter (hdc_body a b x_is_lower_end x_pdf) s0 ;;
  y <- read_local (hdc_y s) ;;
  x' <- Np.map3 (fun (c : bool) x y => if c then x else y)
          x_is_lower_end x y ;;
  y' <- Np.map3 (fun (c : bool) y x => if c then y else x)
          x_is_lower_end y x ;;
  Np.map4 (fun y x a b => cdf beta a b y - cdf beta a b x) y' x' a b.

(** *** [binomial_confidence_interval] *)

(** An integer array entry used as a float. *)
Definition of_int (k : Z) : float64 := Fin (IZR k).

Definition binomial_confidence_interval
  (n_successes n_total : ndarray Z) (confidence : ndarray float64)
  : result (ndarray float64 * ndarray float64) :=
  _ <- raise_if (Np.any (Np.map (fun k => (k <? 0)%Z) n_successes))
         ValueError ;;
  _ <- raise_if (Np.any (Np.map (fun n => (n <? 1)%Z) n_total))
         ValueError ;;
  _ <- raise_if
         (Np.any (Np.map (fun c => (c <? 0) || (c >? 1)) confidence))
         ValueError ;;
  too_many <- Np.map2 (fun k n => (k >? n)%Z) n_successes n_total ;;
  _ <- raise_if (Np.any too_many) ValueError ;;
  lo <- Np.map3
          (fun k n confidence =>
             if (k =? 0)%Z then 0
             else ppf beta (of_int k) (of_int (n - k + 1))
                    ((1 - confidence) / 2))
          n_successes n_total confidence ;;
  hi <- Np.map3
          (fun k n confidence =>
             if (k =? n)%Z then 1
             else ppf beta (of_int (k + 1)) (of_int (n - k))
                    (1 - (1 - confidence) / 2))
          n_successes n_total confidence ;;
  Ok (lo, hi).

End Intervals.

(** The default tolerance of the binary searches, [atol=1e-10]. *)
Definition default_atol : float64 := Fin (/ 10 ^ 10).

(** ** [sort_by_first] *)

(** [sort_by_first] applied to one-dimensional arrays [args].  [np.argsort] is
    NumPy's; the code calls it with its default [kind], which NumPy
    documents as an unstable sort, so it is a parameter here and the
    properties below assume only its contract. *)
Section SortByFirst.

Variable V : Type.
Variable argsort : list V -> list nat.

Fixpoint map_result {A B : Type} (f : A -> result B) (l : list A)
  : result (list B) :=
  match l with
  | [] => Ok []
  | a :: l' => b <- f a ;; bs <- map_result f l' ;; Ok (b :: bs)
  end.

(** [arr[sorting]]: an index past the end raises IndexError. *)
Definition fancy_index (arr : list V) (sorting : list nat)
  : result (list V) :=
  map_result
    (fun i => match nth_error arr i with
              | Some v => Ok v
              | None => Raise IndexError
              end)
    sorting.

(** [args[0]]; it is only evaluated when [args] is not empty. *)
Definition first_arg (args : list (list V)) : list V := nth 0 args [].

Definition sort_by_first (args : list (list V)) : result (list (list V)) :=
  (* Validate the arguments. *)
  _ <- raise_if
         (existsb
            (fun arg => negb (Nat.eqb (length arg) (length (first_arg args))))
            args)
         ValueError ;;
  (* Return sorted copies of the arrays. *)
  if Nat.eqb (length args) 0 then Ok []
  else
    let sorting := argsort (first_arg args) in
    map_result (fun arg => fancy_index arg sorting) args.

End SortByFirst.

Arguments fancy_index {V} arr sorting.
Arguments first_arg {V} args.
Arguments sort_by_first {V} argsort args.

(** [sort_by_first] on arguments of dimension 0 or 1, of which the
    definition above is the case of one-dimensional arguments.
    [np.argsort] takes a 0-dimensional array as the array of its one
    element, and indexing a 0-dimensional array with an index array raises
    IndexError ("too many indices for array"). *)
Section SortByFirstArrays.

Variable V : Type.
Variable argsort : list V -> list nat.

(** [s == t] on shapes. *)
Definition shape_eqb (s t : option nat) : bool :=
  match s, t with
  | None, None => true
  | Some m, Some n => Nat.eqb m n
  | _, _ => false
  end.

(** [arr[sorting]] *)
Definition index_array (arr : ndarray V) (sorting : list nat)
  : result (ndarray V) :=
  match arr with
  | Scalar _ => Raise IndexError
  | Vector l => out <- fancy_index l sorting ;; Ok (Vector out)
  end.

(** [args[0]]; it is only evaluated when [args] is not empty. *)
Definition first_array (args : list (ndarray V)) : ndarray V :=
  nth 0 args (Vector []).

Definition sort_by_first_arrays (args : list (ndarray V))
  : result (list (ndarray V)) :=
  (* Validate the arguments. *)
  _ <- raise_if
         (existsb
            (fun arg =>
               negb (shape_eqb (Np.shape arg) (Np.shape (first_array args))))
            args)
         ValueError ;;
  (* Return sorted copies of the arrays. *)
  if Nat.eqb (length args) 0 then Ok []
  else
    let sorting := argsort (Np.elements (first_array args)) in
    map_result (fun arg => index_array arg sorting) args.

End SortByFirstArrays.

Arguments index_array {V} arr sorting.
Arguments first_array {V} args.
Arguments sort_by_first_arrays {V} argsort args.

(** *** What NumPy promises about [np.argsort]

    For a total preorder [leb] on the elements: the result is a permutation
    of the indices of its argument, and indexing the argument by it gives
    an ascending array. *)
Definition argsort_contract {V : Type} (leb : V -> V -> bool)
  (argsort : list V -> list nat) : Prop :=
  forall l,
    Permutation (argsort l) (seq 0 (length l)) /\
    exists sorted,
      fancy_index l (argsort l) = Ok sorted /\
      StronglySorted (fun v w => leb v w = true) sorted.

(** A permutation [p] of the indices of [keys] is stable when equal keys
    keep their relative order: of two positions of [p] whose keys are
    tied, the earlier one holds the smaller index. *)
Definition tied {V : Type} (leb : V -> V -> bool) (keys : list V) (i j : nat)
  : Prop :=
  match nth_error keys i, nth_error keys j with
  | Some v, Some w => leb v w = true /\ leb w v = true
  | _, _ => False
  end.

Definition stable {V : Type} (leb : V -> V -> bool) (keys : list V)
  (p : list nat) : Prop :=
  StronglySorted (fun i j => tied leb keys i j -> (i < j)%nat) p.

(** Two sorts by insertion meeting the contract, used to instantiate
    [np.argsort]: the indices are inserted one by one, from the last to the
    first, into the sorted list of the indices after them.  With
    [ties_first := true] an index goes before the indices with an equal
    key (a stable sort); with [ties_first := false] it goes after them. *)
Section InsertionArgsort.

Variable V : Type.
Variable leb : V -> V -> bool.
Variable ties_first : bool.

Definition goes_before (keys : list V) (i j : nat) : bool :=
  match nth_error keys i, nth_error keys j with
  | Some v, Some w => if ties_first then leb v w else negb (leb w v)
  | _, _ => true
  end.

Fixpoint insert_index (keys : list V) (i : nat) (p : list nat) : list nat :=
  match p with
  | [] => [i]
  | j :: p' =>
      if goes_before keys i j then i :: p
      else j :: insert_index keys i p'
  end.

Definition insertion_argsort (keys : list V) : list nat :=
  fold_right (insert_index keys) [] (seq 0 (length keys)).

End InsertionArgsort.

Arguments insertion_argsort {V} leb ties_first keys.

(** ** The beta distribution at integer shape parameters *)

(** [binom_tail n k x] is the probability of at least [k] successes in
    [n] independent trials of success probability [x].  For positive
    integers [a] and [b] the beta distribution function is
    [Beta(a, b).cdf(x) = binom_tail (a + b - 1) a x]. *)
Fixpoint binom_tail (n k : nat) (x : R) : R :=
  match k with
  | O => 1
  | S k' =>
      match n with
      | O => 0
      | S n' => x * binom_tail n' k' x + (1 - x) * binom_tail n' k x
      end
  end.

(** The numerator of [binom_tail n k (p / q)] over the denominator
    [q ^ n], for evaluating the tail at a rational. *)
Fixpoint tail_num (p q : Z) (n k : nat) : Z :=
  match k with
  | O => (q ^ Z.of_nat n)%Z
  | S k' =>
      match n with
      | O => 0%Z
      | S n' => (p * tail_num p q n' k' + (q - p) * tail_num p q n' k)%Z
      end
  end.

(** *** What the code relies on from [scipy.stats.beta]

    On positive finite shape parameters: [cdf] and [ppf] take values in
    [[0, 1]], [cdf] is strictly increasing on [[0, 1]], [ppf] is a right
    inverse of [cdf], and at integer shape parameters [cdf] is the beta
    distribution function. *)
Record BetaContract (beta : BetaEvaluator) : Prop := {
  ppf_unit : forall a b q, 0 < a -> 0 < b -> 0 <= q <= 1 ->
    exists x, ppf beta (Fin a) (Fin b) (Fin q) = Fin x /\ 0 <= x <= 1;
  cdf_unit : forall a b x, 0 < a -> 0 < b ->
    exists p, cdf beta (Fin a) (Fin b) (Fin x) = Fin p /\ 0 <= p <= 1;
  cdf_ppf : forall a b q, 0 < a -> 0 < b -> 0 <= q <= 1 ->
    cdf beta (Fin a) (Fin b) (ppf beta (Fin a) (Fin b) (Fin q)) = Fin q;
  cdf_increasing : forall a b x y p q, 0 < a -> 0 < b ->
    0 <= x -> x < y -> y <= 1 ->
    cdf beta (Fin a) (Fin b) (Fin x) = Fin p ->
    cdf beta (Fin a) (Fin b) (Fin y) = Fin q ->
    p < q;
  cdf_binomial : forall (a b : nat) x, (1 <= a)%nat -> (1 <= b)%nat ->
    0 <= x <= 1 ->
    cdf beta (Fin (INR a)) (Fin (INR b)) (Fin x)
    = Fin (binom_tail (a + b - 1) a x)
}.

(** *** A reference evaluator

    An evaluator meeting the contract: the beta distribution itself at
    integer shape parameters and, at the other positive shape parameters,
    the uniform distribution in its place.  It answers nan outside its
    domain, as SciPy does. *)
Definition unit_clip (x : R) : R := Rmax 0 (Rmin x 1).

(** The positive integer a real is, if it is one. *)
Definition as_positive_nat (a : R) : option nat :=
  if Rltb 0 a && F.is_int a then Some (Z.to_nat (Int_part a)) else None.

Definition reference_cdf (a b x : R) : R :=
  match as_positive_nat a, as_positive_nat b with
  | Some m, Some n => binom_tail (m + n - 1) m (unit_clip x)
  | _, _ => unit_clip x
  end.

Definition reference_ppf (a b q : R) : R :=
  epsilon (inhabits 0) (fun x => 0 <= x <= 1 /\ reference_cdf a b x = q).

Definition on_domain (a b x : float64) (dom : R -> bool)
  (f : R -> R -> R -> R) : float64 :=
  match a, b, x with
  | Fin a, Fin b, Fin x =>
      if Rltb 0 a && Rltb 0 b && dom x then Fin (f a b x) else NaN
  | _, _, _ => NaN
  end.

Definition reference_beta : BetaEvaluator := {|
  cdf := fun a b x => on_domain a b x (fun _ => true) reference_cdf;
  ppf := fun a b q => on_domain a b q (fun q => Rleb 0 q && Rleb q 1)
                        reference_ppf
|}.

(** ** Vocabulary of the properties *)

(** [m] has exactly one element, [v]: a scalar or a one-element vector. *)
Definition single {A : Type} (m : ndarray A) (v : A) : Prop :=
  Np.elements m = [v].

(** The value of [sqrt(log(2 / (1 - c)) / (2 n))] for a real [n > 0] and
    [c] in [[0, 1]]: infinite at [c = 1]. *)
Definition dkw_value (n c : R) : float64 :=
  if Reqb c 1 then PInf else Fin (sqrt (ln (2 / (1 - c)) / (2 * n))).

(** [viewed y g env]: broadcasting [y] to the shape of [env] gives
    [Np.map g env]; either [y] already is that array, or it is a scalar or
    a one-element vector that is stretched. *)
Definition viewed {E A : Type} (y : ndarray A) (g : E -> A) (env : ndarray E)
  : Prop :=
  y = Np.map g env \/
  exists v, (forall e, In e (Np.elements env) -> g e = v) /\
            (y = Scalar v \/ (y = Vector [v] /\ Np.shape env <> None)).

(** A positive real, and a real of the unit interval, as floats. *)
Definition positive (x : float64) : Prop := exists r, x = Fin r /\ 0 < r.
Definition in_unit (x : float64) : Prop := exists r, x = Fin r /\ 0 <= r <= 1.

(** The real a finite float is. *)
Definition to_R (x : float64) : R :=
  match x with
  | Fin r => r
  | _ => 0
  end.

(** The evaluator on reals. *)
Definition ppf_R (beta : BetaEvaluator) (a b q : R) : R :=
  to_R (ppf beta (Fin a) (Fin b) (Fin q)).
Definition cdf_R (beta : BetaEvaluator) (a b x : R) : R :=
  to_R (cdf beta (Fin a) (Fin b) (Fin x)).

(** The part of the contract that bounds the evaluator's values, with no
    statement of their accuracy. *)
Record BetaRange (beta : BetaEvaluator) : Prop := {
  range_ppf : forall a b q, 0 < a -> 0 < b -> 0 <= q <= 1 ->
    exists x, ppf beta (Fin a) (Fin b) (Fin q) = Fin x /\ 0 <= x <= 1;
  range_cdf : forall a b x, 0 < a -> 0 < b ->
    exists p, cdf beta (Fin a) (Fin b) (Fin x) = Fin p /\ 0 <= p <= 1
}.

(** An interval result: two arrays of one shape with, elementwise,
    [0 <= lo <= hi <= 1]. *)
Definition unit_interval (lo hi : float64) : Prop :=
  exists l h, lo = Fin l /\ hi = Fin h /\ 0 <= l /\ l <= h /\ h <= 1.

Definition unit_intervals (lo hi : ndarray float64) : Prop :=
  Np.shape lo = Np.shape hi /\
  Forall2 unit_interval (Np.elements lo) (Np.elements hi).

(** The Clopper-Pearson bounds of one entry. *)
Definition clopper_pearson_lo (beta : BetaEvaluator) (k n : Z) (c : float64)
  : float64 :=
  if (k =? 0)%Z then Fin 0
  else ppf beta (Fin (IZR k)) (Fin (IZR (n - k + 1)))
         (F.div (F.sub (Fin 1) c) (Fin 2)).

Definition clopper_pearson_hi (beta : BetaEvaluator) (k n : Z) (c : float64)
  : float64 :=
  if (k =? n)%Z then Fin 1
  else ppf beta (Fin (IZR (k + 1))) (Fin (IZR (n - k)))
         (F.sub (Fin 1) (F.div (F.sub (Fin 1) c) (Fin 2))).

Definition finite (x : float64) : Prop := exists r, x = Fin r.

(** *** The binary searches, entry by entry

    The state of the searches of one entry of the broadcast arguments,
    written as functions of the entry. *)

(** The midpoint of the bracket. *)
Definition midpoint (lo hi : float64) : float64 :=
  F.div (F.add lo hi) (Fin 2).

(** The upper endpoint for the lower endpoint [x], clamped into [[x, 1]]. *)
Definition hdi_upper (beta : BetaEvaluator) (a b coverage x : float64)
  : float64 :=
  F.clip
    (ppf beta a b (F.clip (F.add (cdf beta a b x) coverage) (Fin 0) (Fin 1)))
    x (Fin 1).

Definition hdi_init_lo (beta : BetaEvaluator) (a b coverage : float64)
  : float64 :=
  ppf beta a b
    (F.maximum (F.sub (cdf beta a b (beta_mode a b)) coverage) (Fin 0)).

Definition hdi_init_hi (beta : BetaEvaluator) (a b coverage : float64)
  : float64 :=
  F.minimum (beta_mode a b) (ppf beta a b (F.sub (Fin 1) coverage)).

(** The bracket after one iteration, from the bracket [[lo, hi]] before. *)
Definition hdi_next_lo (beta : BetaEvaluator) (a b coverage lo hi : float64)
  : float64 :=
  let x := midpoint lo hi in
  let y := hdi_upper beta a b coverage x in
  if F.le (density_proxy x a b) (density_proxy y a b) then x else lo.

Definition hdi_next_hi (beta : BetaEvaluator) (a b coverage lo hi : float64)
  : float64 :=
  let x := midpoint lo hi in
  let y := hdi_upper beta a b coverage x in
  if F.ge (density_proxy x a b) (density_proxy y a b) then x else hi.

(** The entries of a broadcast of three arrays. *)
Definition entry : Type := (float64 * float64 * float64)%type.
Definition entry_a (e : entry) : float64 := fst (fst e).
Definition entry_b (e : entry) : float64 := snd (fst e).
Definition entry_c (e : entry) : float64 := snd e.

(** A valid entry for the highest density interval: positive shape
    parameters, one of them above 1, and a coverage in [[0, 1]]. *)
Definition hdi_entry_valid (e : entry) : Prop :=
  exists a b c, e = (Fin a, Fin b, Fin c) /\
                0 < a /\ 0 < b /\ 0 <= c <= 1 /\ (1 < a \/ 1 < b).

(** The bracket of every entry lies in the unit interval. *)
Definition bracket_in_unit (env : ndarray entry) (s : hdi_state) : Prop :=
  exists glo ghi,
    x_lo s = Np.map glo env /\ x_hi s = Np.map ghi env /\
    forall e, In e (Np.elements env) -> in_unit (glo e) /\ in_unit (ghi e).

(** The endpoints are assigned and, for every entry, form an interval of
    the unit interval. *)
Definition endpoints_ordered (env : ndarray entry) (s : hdi_state) : Prop :=
  exists gx gy,
    hdi_x s = Some (Np.map gx env) /\ hdi_y s = Some (Np.map gy env) /\
    forall e, In e (Np.elements env) -> unit_interval (gx e) (gy e).

(** *** The search of [beta_highest_density_coverage], entry by entry *)

(** [x < mode] *)
Definition hdc_lower (e : entry) : bool :=
  F.lt (entry_c e) (beta_mode (entry_a e) (entry_b e)).

(** [y_is_lo] for the midpoint [y]. *)
Definition hdc_y_is_lo (e : entry) (y : float64) : bool :=
  Bool.eqb (hdc_lower e)
    (F.lt (density_proxy (entry_c e) (entry_a e) (entry_b e))
          (density_proxy y (entry_a e) (entry_b e))).

(** The state arrays are entrywise images of the broadcast arguments. *)
Definition hdc_entrywise (env : ndarray entry) (s : hdc_state) : Prop :=
  exists glo ghi, y_lo s = Np.map glo env /\ y_hi s = Np.map ghi env.

Definition hdc_assigned (env : ndarray entry) (s : hdc_state) : Prop :=
  exists gy, hdc_y s = Some (Np.map gy env).

(** The mode test [(a <= 1) & (b <= 1)] of one pair of shape parameters. *)
Definition no_mode (a b : float64) : bool :=
  F.le a (Fin 1) && F.le b (Fin 1).

(** The order of two indices by their keys. *)
Definition key_le {V : Type} (leb : V -> V -> bool) (keys : list V) (i j : nat)
  : Prop :=
  exists v w, nth_error keys i = Some v /\ nth_error keys j = Some w /\
              leb v w = true.

(** *** The bracket of the search for the lower endpoint *)

(** Both ends of the bracket of the entry [e] lie between its initial
    ends. *)
Definition hdi_bracketed (beta : BetaEvaluator) (e : entry)
  (lo hi : float64) : Prop :=
  exists l h, lo = Fin l /\ hi = Fin h /\
    to_R (hdi_init_lo beta (entry_a e) (entry_b e) (entry_c e)) <= l /\
    l <= to_R (hdi_init_hi beta (entry_a e) (entry_b e) (entry_c e)) /\
    to_R (hdi_init_lo beta (entry_a e) (entry_b e) (entry_c e)) <= h /\
    h <= to_R (hdi_init_hi beta (entry_a e) (entry_b e) (entry_c e)).

(** *** The bracket of the search of [beta_highest_density_coverage] *)

(** The initial bracket of the entry [e]: from the mode to 1 when [x] is
    the lower end, from 0 to the mode otherwise. *)
Definition hdc_init_lo (e : entry) : float64 :=
  if hdc_lower e then beta_mode (entry_a e) (entry_b e) else Fin 0.

Definition hdc_init_hi (e : entry) : float64 :=
  if hdc_lower e then Fin 1 else beta_mode (entry_a e) (entry_b e).

(** The bracket after one iteration. *)
Definition hdc_next_lo (e : entry) (lo hi : float64) : float64 :=
  let y := midpoint lo hi in
  if hdc_y_is_lo e y then y else lo.

Definition hdc_next_hi (e : entry) (lo hi : float64) : float64 :=
  let y := midpoint lo hi in
  if negb (hdc_y_is_lo e y) then y else hi.

(** The coverage computed from the other end [y] found for the entry. *)
Definition hdc_result (beta : BetaEvaluator) (e : entry) (y : float64)
  : float64 :=
  F.sub
    (cdf beta (entry_a e) (entry_b e) (if hdc_lower e then y else entry_c e))
    (cdf beta (entry_a e) (entry_b e) (if hdc_lower e then entry_c e else y)).

(** Both ends of the bracket lie on the side of the mode away from [x]. *)
Definition hdc_bracketed (e : entry) (lo hi : float64) : Prop :=
  exists l h m,
    lo = Fin l /\ hi = Fin h /\ beta_mode (entry_a e) (entry_b e) = Fin m /\
    if hdc_lower e then m <= l <= 1 /\ m <= h <= 1
    else 0 <= l <= m /\ 0 <= h <= m.

(** * Properties *)

(** ** Comparisons of reals as booleans *)

Lemma Rleb_true x y : x <= y -> Rleb x y = true.
Proof. intros H; unfold Rleb; destruct (Rle_dec x y); [reflexivity | contradiction]. Qed.

Lemma Rleb_false x y : y < x -> Rleb x y = false.
Proof. intros H; unfold Rleb; destruct (Rle_dec x y); [lra | reflexivity]. Qed.

Lemma Rltb_true x y : x < y -> Rltb x y = true.
Proof. intros H; unfold Rltb; destruct (Rlt_dec x y); [reflexivity | contradiction]. Qed.

Lemma Rltb_false x y : y <= x -> Rltb x y = false.
Proof. intros H; unfold Rltb; destruct (Rlt_dec x y); [lra | reflexivity]. Qed.

Lemma Reqb_true x y : x = y -> Reqb x y = true.
Proof. intros H; unfold Reqb; destruct (Req_dec_T x y); [reflexivity | contradiction]. Qed.

Lemma Reqb_false x y : x <> y -> Reqb x y = false.
Proof. intros H; unfold Reqb; destruct (Req_dec_T x y); [contradiction | reflexivity]. Qed.

Lemma Rleb_spec x y : reflect (x <= y) (Rleb x y).
Proof. unfold Rleb; destruct (Rle_dec x y); constructor; assumption. Qed.

Lemma Rltb_spec x y : reflect (x < y) (Rltb x y).
Proof. unfold Rltb; destruct (Rlt_dec x y); constructor; assumption. Qed.

Lemma Reqb_spec x y : reflect (x = y) (Reqb x y).
Proof. unfold Reqb; destruct (Req_dec_T x y); constructor; assumption. Qed.

(** ** Arrays *)

Lemma elements_map {A B} (f : A -> B) (m : ndarray A) :
  Np.elements (Np.map f m) = List.map f (Np.elements m).
Proof. destruct m; reflexivity. Qed.

Lemma shape_map {A B} (f : A -> B) (m : ndarray A) :
  Np.shape (Np.map f m) = Np.shape m.
Proof. destruct m; simpl; [reflexivity | now rewrite length_map]. Qed.

Lemma map_map_nd {A B C} (f : A -> B) (g : B -> C) (m : ndarray A) :
  Np.map g (Np.map f m) = Np.map (fun x => g (f x)) m.
Proof. destruct m; simpl; [reflexivity | now rewrite List.map_map]. Qed.

Lemma map_ext_nd {A B} (f g : A -> B) (m : ndarray A) :
  (forall x, In x (Np.elements m) -> f x = g x) -> Np.map f m = Np.map g m.
Proof.
  destruct m as [x | l]; simpl; intros H.
  - now rewrite H by (now left).
  - f_equal. now apply map_ext_in.
Qed.

Lemma any_map_false {A} (p : A -> bool) (m : ndarray A) :
  Np.any (Np.map p m) = false <-> all (fun x => p x = false) m.
Proof.
  unfold Np.any, all. rewrite elements_map.
  induction (Np.elements m) as [| x l IH]; simpl.
  - split; [constructor | reflexivity].
  - rewrite orb_false_iff, IH. split.
    + intros [? ?]; now constructor.
    + intros H; inversion H; subst; now split.
Qed.

Lemma any_map_true {A} (p : A -> bool) (m : ndarray A) :
  Np.any (Np.map p m) = true <-> exists x, In x (Np.elements m) /\ p x = true.
Proof.
  unfold Np.any. rewrite elements_map, existsb_exists. split.
  - intros (b & Hin & ->). apply in_map_iff in Hin as (x & Hx & Hin). eauto.
  - intros (x & Hin & Hp). exists (p x). split; [now apply in_map | assumption].
Qed.

Lemma truth_single (m : ndarray bool) b : single m b -> Np.truth m = Ok b.
Proof. unfold single, Np.truth. now intros ->. Qed.

Lemma truth_many (m : ndarray bool) :
  (1 < Np.size m)%nat -> Np.truth m = Raise ValueError.
Proof.
  unfold Np.size, Np.truth. destruct (Np.elements m) as [| b [| c l]]; simpl; intros H;
    try reflexivity; lia.
Qed.

Lemma truth_ok_size (m : ndarray bool) b : Np.truth m = Ok b -> Np.size m = 1%nat.
Proof.
  unfold Np.size, Np.truth. destruct (Np.elements m) as [| c [| d l]]; simpl; intros H;
    try discriminate; reflexivity.
Qed.

Lemma size_map {A B} (f : A -> B) (m : ndarray A) : Np.size (Np.map f m) = Np.size m.
Proof. unfold Np.size. now rewrite elements_map, length_map. Qed.

(** Broadcasting against a one-element array keeps the elements of the
    other operand. *)
Lemma broadcast2_single_r {A B} (x : ndarray A) (y : ndarray B) v :
  single y v ->
  exists xy, Np.broadcast2 x y = Ok xy /\
             Np.elements xy = List.map (fun a => (a, v)) (Np.elements x).
Proof.
  unfold single. destruct x as [a | la], y as [b | lb]; simpl; intros H.
  - injection H as ->. eauto.
  - subst lb. eauto.
  - injection H as ->. eauto.
  - subst lb. simpl. destruct la as [| a [| a' la]]; simpl; eauto.
Qed.

(** ** [dkw_epsilon] *)

Lemma dkw_kernel n c : 0 < n -> 0 <= c <= 1 ->
  F.sqrt (F.div (F.log (F.div (Fin 2) (F.sub (Fin 1) (Fin c))))
                (F.mul (Fin 2) (Fin n)))
  = dkw_value n c.
Proof.
  intros Hn Hc. unfold dkw_value. simpl.
  destruct (Reqb_spec c 1) as [-> | Hc1].
  - rewrite Reqb_true by lra. unfold F.signed_inf.
    rewrite Rltb_true by lra. simpl.
    rewrite Rltb_false by lra. reflexivity.
  - rewrite Reqb_false by lra. simpl.
    assert (H1 : 1 <= 2 / (1 + - c)).
    { apply Rmult_le_reg_r with (1 + - c); [lra |].
      unfold Rdiv. rewrite Rmult_assoc, Rinv_l by lra. lra. }
    rewrite Rltb_true by lra.
    simpl. rewrite Reqb_false by lra. simpl.
    assert (H2 : 0 <= ln (2 / (1 + - c))).
    { rewrite <- ln_1. destruct H1 as [H1 | <-]; [left; apply ln_increasing; lra | right; reflexivity]. }
    assert (H3 : 0 <= ln (2 / (1 + - c)) / (2 * n)).
    { apply Rmult_le_pos; [assumption |]. left. apply Rinv_0_lt_compat. lra. }
    rewrite Rltb_false by lra.
    replace (1 + - c) with (1 - c) by lra. reflexivity.
Qed.

Lemma dkw_half (n : R) : 0 < n ->
  dkw_value (n * n / 2) (1 - 2 / exp 1) = Fin (/ n).
Proof.
  intros Hn. unfold dkw_value.
  assert (He : 0 < exp 1) by apply exp_pos.
  assert (Hq : 0 < 2 / exp 1) by (apply Rdiv_lt_0_compat; lra).
  rewrite Reqb_false by lra. f_equal.
  replace (2 / (1 - (1 - 2 / exp 1))) with (exp 1) by (field; lra).
  rewrite ln_exp.
  replace (1 / (2 * (n * n / 2))) with (/ n * / n) by (field; lra).
  apply sqrt_square. left. now apply Rinv_0_lt_compat.
Qed.

Lemma dkw_epsilon_nonpos n confidence n0 :
  single n (Fin n0) -> n0 <= 0 -> dkw_epsilon n confidence = Raise ValueError.
Proof.
  intros Hn H0. unfold dkw_epsilon.
  rewrite (truth_single _ (F.le (Fin n0) (Fin 0))).
  - simpl. now rewrite Rleb_true.
  - unfold single in *. now rewrite elements_map, Hn.
Qed.

Lemma dkw_epsilon_pos n confidence n0 :
  single n (Fin n0) -> 0 < n0 ->
  dkw_epsilon n confidence =
  (_ <- raise_if
          (Np.any (Np.map (fun c => (c <? Fin 0) || (c >? Fin 1))%fl confidence))
          ValueError ;;
   Np.map2
     (fun c n => F.sqrt (F.log (Fin 2 / (Fin 1 - c)) / (Fin 2 * n)))%fl
     confidence n).
Proof.
  intros Hn H0. unfold dkw_epsilon.
  rewrite (truth_single _ (F.le (Fin n0) (Fin 0))).
  - simpl. now rewrite Rleb_false.
  - unfold single in *. now rewrite elements_map, Hn.
Qed.

Lemma unit_not_outside c : 0 <= c <= 1 ->
  (F.lt (Fin c) (Fin 0) || F.gt (Fin c) (Fin 1)) = false.
Proof. intros H. unfold F.gt. simpl. now rewrite !Rltb_false by lra. Qed.

(** C5, as amended: for a positive [n] that is a scalar or a one-element
    array, and every [confidence] in [[0, 1]] (a scalar or an array),
    [dkw_epsilon] returns [sqrt(log(2/(1-confidence)) / (2n))] elementwise
    (which is infinite at confidence 1); it raises a validation error when
    that [n] is not positive, and when some confidence lies outside
    [[0, 1]]; [dkw_epsilon(2, 1-2/e)] is 0.5 and [dkw_epsilon(8, 1-2/e)] is
    0.25. *)
Theorem dkw_epsilon_spec :
  forall (n confidence : ndarray float64) (n0 : R),
    single n (Fin n0) ->
    (n0 <= 0 -> dkw_epsilon n confidence = Raise ValueError) /\
    (0 < n0 ->
     (exists c, In c (Np.elements confidence) /\
                (F.lt c (Fin 0) || F.gt c (Fin 1)) = true) ->
     dkw_epsilon n confidence = Raise ValueError) /\
    (0 < n0 ->
     forall cs, Np.elements confidence = map Fin cs ->
                Forall (fun c => 0 <= c <= 1) cs ->
       exists out, dkw_epsilon n confidence = Ok out /\
                   Np.elements out = map (dkw_value n0) cs) /\
    dkw_epsilon (Scalar (Fin 2)) (Scalar (Fin (1 - 2 / exp 1)))
      = Ok (Scalar (Fin (1 / 2))) /\
    dkw_epsilon (Scalar (Fin 8)) (Scalar (Fin (1 - 2 / exp 1)))
      = Ok (Scalar (Fin (1 / 4))).
Proof.
  intros n confidence n0 Hn.
  assert (Hex : forall k : R, 0 < k ->
            dkw_epsilon (Scalar (Fin (k * k / 2))) (Scalar (Fin (1 - 2 / exp 1)))
            = Ok (Scalar (Fin (/ k)))).
  { intros k Hk.
    assert (He : 0 < exp 1) by apply exp_pos.
    assert (Hq : 0 < 2 / exp 1) by (apply Rdiv_lt_0_compat; lra).
    assert (Hq1 : 2 / exp 1 < 1).
    { apply Rmult_lt_reg_r with (exp 1); [assumption |].
      unfold Rdiv. rewrite Rmult_assoc, Rinv_l by lra.
      pose proof exp_ineq1 1 ltac:(lra). lra. }
    rewrite (dkw_epsilon_pos _ _ (k * k / 2)) by (try reflexivity; nra).
    cbn [Np.map Np.any Np.elements existsb]. rewrite unit_not_outside by lra.
    cbn [raise_if bind Np.map2 Np.broadcast2 Np.map].
    rewrite dkw_kernel by (try nra; lra). now rewrite dkw_half. }
  repeat split.
  - now apply dkw_epsilon_nonpos.
  - intros H0 Hout. rewrite (dkw_epsilon_pos _ _ n0) by assumption.
    apply any_map_true in Hout. now rewrite Hout.
  - intros H0 cs Hcs Hall. rewrite (dkw_epsilon_pos _ _ n0) by assumption.
    replace (Np.any _) with false.
    2:{ symmetry. apply any_map_false. unfold all. rewrite Hcs.
        apply Forall_map. eapply Forall_impl; [| exact Hall].
        intros c Hc. now apply unit_not_outside. }
    cbn [raise_if bind]. unfold Np.map2.
    destruct (broadcast2_single_r confidence n _ Hn) as (xy & -> & Hxy).
    cbn [bind]. eexists; split; [reflexivity |].
    rewrite elements_map, Hxy, Hcs, !List.map_map.
    apply map_ext_in. intros c Hc. rewrite Forall_forall in Hall.
    apply dkw_kernel; auto.
  - replace 2 with (2 * 2 / 2) at 1 by lra.
    replace (1 / 2) with (/ 2) by lra. apply Hex; lra.
  - replace 8 with (4 * 4 / 2) at 1 by lra.
    replace (1 / 4) with (/ 4) by lra. apply Hex; lra.
Qed.

Lemma dkw_epsilon_spec_witness :
  exists out,
    dkw_epsilon (Vector [Fin 2]) (Vector [Fin 0; Fin 1]) = Ok out /\
    Np.elements out = map (dkw_value 2) [0; 1].
Proof.
  destruct (dkw_epsilon_spec (Vector [Fin 2]) (Vector [Fin 0; Fin 1]) 2 eq_refl)
    as (_ & _ & Hok & _).
  apply (Hok ltac:(lra) [0; 1] eq_refl).
  repeat constructor; lra.
Defined.

(** C5 as stated fails: on an array of two positive sample sizes
    [dkw_epsilon] raises instead of returning a value. *)
Lemma dkw_epsilon_array_counterexample :
  all (fun v => F.lt (Fin 0) v = true) (Vector [Fin 1; Fin 2]) /\
  ~ succeeds (dkw_epsilon (Vector [Fin 1; Fin 2]) (Scalar (Fin (1 / 2)))).
Proof.
  split.
  - repeat constructor; simpl; apply Rltb_true; lra.
  - intros [out H]. discriminate H.
Qed.

(** C10: whenever [n] is an array of more than one element [dkw_epsilon]
    raises, whatever the elements and the confidence, because the test
    [n <= 0] is used as one truth value; a call that returns has an [n] of
    exactly one element. *)
Theorem dkw_epsilon_array_n :
  forall (n confidence : ndarray float64),
    ((1 < Np.size n)%nat -> dkw_epsilon n confidence = Raise ValueError) /\
    (succeeds (dkw_epsilon n confidence) -> Np.size n = 1%nat).
Proof.
  intros n confidence. split.
  - intros H. unfold dkw_epsilon. rewrite truth_many; [reflexivity |].
    now rewrite size_map.
  - intros [out H]. unfold dkw_epsilon in H.
    destruct (Np.truth _) as [b |] eqn:Ht; [| discriminate].
    apply truth_ok_size in Ht. now rewrite size_map in Ht.
Qed.

Lemma dkw_epsilon_array_n_witness :
  dkw_epsilon (Vector [Fin 3; Fin 4]) (Scalar (Fin (1 / 2))) = Raise ValueError.
Proof.
  apply (proj1 (dkw_epsilon_array_n (Vector [Fin 3; Fin 4]) (Scalar (Fin (1 / 2))))).
  cbv. apply le_n.
Defined.

(** ** Broadcasting *)

Lemma viewed_refl {E A} (g : E -> A) env : viewed (Np.map g env) g env.
Proof. now left. Qed.

Lemma viewed_map {E A B} (f : A -> B) (y : ndarray A) (g : E -> A) env :
  viewed y g env -> viewed (Np.map f y) (fun e => f (g e)) env.
Proof.
  intros [-> | (v & Hg & Hy)].
  - left. apply map_map_nd.
  - right. exists (f v). split.
    + intros e He. now rewrite Hg.
    + destruct Hy as [-> | [-> Hs]]; [now left | right; now split].
Qed.

Lemma viewed_ext {E A} (y : ndarray A) (g h : E -> A) env :
  (forall e, g e = h e) -> viewed y g env -> viewed y h env.
Proof.
  intros Hgh [-> | (v & Hg & Hy)].
  - left. apply map_ext_nd. auto.
  - right. exists v. split; [| assumption]. intros e He. rewrite <- Hgh. auto.
Qed.

Lemma viewed_trans {E D A} (y : ndarray A) (f : D -> A) (mid : ndarray D)
  (g : E -> D) env :
  viewed y f mid -> viewed mid g env -> viewed y (fun e => f (g e)) env.
Proof.
  intros Hy [-> | (w & Hg & Hmid)].
  - destruct Hy as [-> | (v & Hf & Hy)].
    + left. apply map_map_nd.
    + right. exists v. split.
      * intros e He. apply Hf. rewrite elements_map. now apply in_map.
      * now rewrite shape_map in Hy.
  - assert (Hfg : forall e, In e (Np.elements env) -> f (g e) = f w)
      by (intros e He; now rewrite Hg).
    destruct Hmid as [-> | [-> Hs]].
    + destruct Hy as [-> | (v & Hf & Hy)].
      * right. exists (f w). split; [assumption | now left].
      * right. exists v. split.
        -- intros e He. rewrite Hfg by assumption. apply Hf. now left.
        -- destruct Hy as [-> | [_ Hs]]; [now left | now elim Hs].
    + destruct Hy as [-> | (v & Hf & Hy)].
      * right. exists (f w). split; [assumption | right; now split].
      * right. exists v. split.
        -- intros e He. rewrite Hfg by assumption. apply Hf. now left.
        -- destruct Hy as [-> | [-> _]]; [now left | right; now split].
Qed.

Lemma broadcast2_viewed {A B} (x : ndarray A) (y : ndarray B) env :
  Np.broadcast2 x y = Ok env -> viewed x fst env /\ viewed y snd env.
Proof.
  destruct x as [a | la], y as [b | lb]; simpl.
  - intros [= <-]. split; now left.
  - intros [= <-]. split.
    + right. exists a. split; [| now left].
      simpl. intros e He. apply in_map_iff in He as (? & <- & _). reflexivity.
    + left. simpl. rewrite List.map_map. simpl. now rewrite map_id.
  - intros [= <-]. split.
    + left. simpl. rewrite List.map_map. simpl. now rewrite map_id.
    + right. exists b. split; [| now left].
      simpl. intros e He. apply in_map_iff in He as (? & <- & _). reflexivity.
  - destruct (Nat.eqb_spec (length la) (length lb)) as [Hlen | Hlen].
    + intros [= <-]. split; left; simpl; f_equal.
      * clear -Hlen. revert lb Hlen.
        induction la as [| a la IH]; intros [| b lb] Hlen; simpl in *;
          try discriminate; [reflexivity |]. f_equal. apply IH. lia.
      * clear -Hlen. revert lb Hlen.
        induction la as [| a la IH]; intros [| b lb] Hlen; simpl in *;
          try discriminate; [reflexivity |]. f_equal. apply IH. lia.
    + destruct la as [| a [| a' la]].
      * destruct lb as [| b [| b' lb]]; try discriminate; try (now elim Hlen).
        intros [= <-]. split.
        -- left. reflexivity.
        -- right. exists b. split; [intros e [] | right; split; [reflexivity | discriminate]].
      * intros [= <-]. split.
        -- right. exists a. split.
           ++ simpl. intros e He. apply in_map_iff in He as (? & <- & _). reflexivity.
           ++ right. split; [reflexivity | discriminate].
        -- left. simpl. rewrite List.map_map. simpl. now rewrite map_id.
      * destruct lb as [| b [| b' lb]]; try discriminate.
        intros [= <-]. split.
        -- left. simpl. rewrite List.map_map. simpl. now rewrite map_id.
        -- right. exists b. split.
           ++ simpl. intros e He.
              repeat (destruct He as [<- | He]; [reflexivity |]).
              apply in_map_iff in He as (? & <- & _). reflexivity.
           ++ right. split; [reflexivity | discriminate].
Qed.

Lemma combine_map_same {E A B} (g1 : E -> A) (g2 : E -> B) (l : list E) :
  combine (List.map g1 l) (List.map g2 l) = List.map (fun e => (g1 e, g2 e)) l.
Proof. induction l as [| e l IH]; simpl; [reflexivity | now rewrite IH]. Qed.

(** An array of the full shape broadcasts with any array viewed at that
    shape, elementwise. *)
Lemma broadcast2_full {E A B} (g1 : E -> A) (y : ndarray B) (g2 : E -> B) env :
  viewed y g2 env ->
  Np.broadcast2 (Np.map g1 env) y = Ok (Np.map (fun e => (g1 e, g2 e)) env).
Proof.
  intros [-> | (v & Hg & Hy)].
  - destruct env as [e | l]; simpl; [reflexivity |].
    rewrite !length_map, Nat.eqb_refl. now rewrite combine_map_same.
  - assert (Hext : forall l, (forall e, In e l -> g2 e = v) ->
               List.map (fun a => (a, v)) (List.map g1 l)
               = List.map (fun e => (g1 e, g2 e)) l).
    { intros l Hl. rewrite List.map_map. apply map_ext_in.
      intros e He. now rewrite Hl. }
    destruct Hy as [-> | [-> Hs]].
    + destruct env as [e | l]; simpl in *.
      * now rewrite Hg by (now left).
      * now rewrite Hext.
    + destruct env as [e | l]; simpl in *; [now elim Hs |].
      destruct l as [| e [| e' l]]; simpl in *.
      * reflexivity.
      * now rewrite Hg by (now left).
      * rewrite (Hg e) by (now left). rewrite (Hg e') by (right; now left).
        do 3 f_equal. rewrite <- Hext by (intros; apply Hg; auto). reflexivity.
Qed.

Lemma map2_full {E A B C} (f : A -> B -> C) (g1 : E -> A) (y : ndarray B)
  (g2 : E -> B) env :
  viewed y g2 env ->
  Np.map2 f (Np.map g1 env) y = Ok (Np.map (fun e => f (g1 e) (g2 e)) env).
Proof.
  intros Hy. unfold Np.map2. rewrite (broadcast2_full g1 y g2) by assumption.
  simpl. now rewrite map_map_nd.
Qed.

Lemma broadcast3_full {E A B C} (g1 : E -> A) (y : ndarray B) (g2 : E -> B)
  (z : ndarray C) (g3 : E -> C) env :
  viewed y g2 env -> viewed z g3 env ->
  Np.broadcast3 (Np.map g1 env) y z
  = Ok (Np.map (fun e => (g1 e, g2 e, g3 e)) env).
Proof.
  intros Hy Hz. unfold Np.broadcast3.
  rewrite (broadcast2_full g1 y g2) by assumption. simpl.
  now rewrite (broadcast2_full _ z g3).
Qed.

Lemma map3_full {E A B C D} (f : A -> B -> C -> D) (g1 : E -> A)
  (y : ndarray B) (g2 : E -> B) (z : ndarray C) (g3 : E -> C) env :
  viewed y g2 env -> viewed z g3 env ->
  Np.map3 f (Np.map g1 env) y z
  = Ok (Np.map (fun e => f (g1 e) (g2 e) (g3 e)) env).
Proof.
  intros Hy Hz. unfold Np.map3.
  rewrite (broadcast3_full g1 y g2 z g3) by assumption.
  simpl. now rewrite map_map_nd.
Qed.

Lemma map4_full {E A B C D R} (f : A -> B -> C -> D -> R) (g1 : E -> A)
  (y : ndarray B) (g2 : E -> B) (z : ndarray C) (g3 : E -> C)
  (w : ndarray D) (g4 : E -> D) env :
  viewed y g2 env -> viewed z g3 env -> viewed w g4 env ->
  Np.map4 f (Np.map g1 env) y z w
  = Ok (Np.map (fun e => f (g1 e) (g2 e) (g3 e) (g4 e)) env).
Proof.
  intros Hy Hz Hw. unfold Np.map4.
  rewrite (broadcast3_full g1 y g2 z g3) by assumption. simpl.
  rewrite (broadcast2_full _ w g4) by assumption.
  simpl. now rewrite map_map_nd.
Qed.

Lemma map3_env {A B C D} (f : A -> B -> C -> D) x y z env :
  Np.broadcast3 x y z = Ok env ->
  Np.map3 f x y z = Ok (Np.map (fun '(a, b, c) => f a b c) env).
Proof. intros H. unfold Np.map3. now rewrite H. Qed.

Lemma map4_env {A B C D R} (f : A -> B -> C -> D -> R) x y z
  (w : ndarray D) (g : A * B * C -> D) env :
  Np.broadcast3 x y z = Ok env -> viewed w g env ->
  Np.map4 f x y z w
  = Ok (Np.map (fun e => f (fst (fst e)) (snd (fst e)) (snd e) (g e)) env).
Proof.
  intros H Hw. unfold Np.map4. rewrite H. simpl.
  assert (Hid : Np.map (fun e => e) env = env)
    by (destruct env; simpl; [reflexivity | now rewrite map_id]).
  rewrite <- Hid at 1.
  rewrite (broadcast2_full _ w g) by assumption. simpl.
  rewrite map_map_nd. apply f_equal. apply map_ext_nd. now intros [[a b] c] _.
Qed.

(** The three operands of a successful broadcast, viewed at its shape. *)
Lemma broadcast3_viewed {A B C} (x : ndarray A) (y : ndarray B) (z : ndarray C) env :
  Np.broadcast3 x y z = Ok env ->
  exists xy, Np.broadcast2 x y = Ok xy /\ Np.broadcast2 xy z = Ok env /\
    viewed xy fst env /\
    viewed x (fun e => fst (fst e)) env /\
    viewed y (fun e => snd (fst e)) env /\
    viewed z snd env.
Proof.
  unfold Np.broadcast3. destruct (Np.broadcast2 x y) as [xy |] eqn:Hxy; [| discriminate].
  simpl. intros Henv. exists xy.
  destruct (broadcast2_viewed _ _ _ Hxy) as [Hx Hy].
  destruct (broadcast2_viewed _ _ _ Henv) as [Hxy' Hz].
  repeat split; try assumption.
  - exact (viewed_trans _ _ _ _ _ Hx Hxy').
  - exact (viewed_trans _ _ _ _ _ Hy Hxy').
Qed.

Lemma viewed_all {E A} (P : A -> Prop) (y : ndarray A) (g : E -> A) env :
  viewed y g env -> all P y -> forall e, In e (Np.elements env) -> P (g e).
Proof.
  unfold all. intros [-> | (v & Hg & Hy)] Hall e He.
  - rewrite elements_map, Forall_forall in Hall. apply Hall. now apply in_map.
  - rewrite Hg by assumption.
    destruct Hy as [-> | [-> _]]; now inversion Hall.
Qed.

Lemma any_false_positive (a : ndarray float64) :
  all positive a -> Np.any (Np.map (fun a => F.le a (Fin 0)) a) = false.
Proof.
  intros H. apply any_map_false. eapply Forall_impl; [| exact H].
  intros x (r & -> & Hr). simpl. now apply Rleb_false.
Qed.

Lemma any_false_unit (c : ndarray float64) :
  all in_unit c ->
  Np.any (Np.map (fun c => F.lt c (Fin 0) || F.gt c (Fin 1)) c) = false.
Proof.
  intros H. apply any_map_false. eapply Forall_impl; [| exact H].
  intros x (r & -> & Hr). now apply unit_not_outside.
Qed.

(** ** Consequences of the evaluator contract *)

Section ContractFacts.

Variable beta : BetaEvaluator.
Hypothesis contract : BetaContract beta.


Lemma ppf_real a b q : 0 < a -> 0 < b -> 0 <= q <= 1 ->
  ppf beta (Fin a) (Fin b) (Fin q) = Fin (ppf_R beta a b q) /\ 0 <= ppf_R beta a b q <= 1.
Proof.
  intros Ha Hb Hq. unfold ppf_R.
  destruct (ppf_unit beta contract a b q Ha Hb Hq) as (x & -> & Hx). now split.
Qed.

Lemma cdf_real a b x : 0 < a -> 0 < b ->
  cdf beta (Fin a) (Fin b) (Fin x) = Fin (cdf_R beta a b x) /\ 0 <= cdf_R beta a b x <= 1.
Proof.
  intros Ha Hb. unfold cdf_R.
  destruct (cdf_unit beta contract a b x Ha Hb) as (p & -> & Hp). now split.
Qed.

Lemma cdfR_ppfR a b q : 0 < a -> 0 < b -> 0 <= q <= 1 ->
  cdf_R beta a b (ppf_R beta a b q) = q.
Proof.
  intros Ha Hb Hq. unfold cdf_R.
  destruct (ppf_real a b q Ha Hb Hq) as [<- _].
  now rewrite (cdf_ppf beta contract a b q Ha Hb Hq).
Qed.

Lemma cdfR_increasing a b x y : 0 < a -> 0 < b ->
  0 <= x -> x < y -> y <= 1 -> cdf_R beta a b x < cdf_R beta a b y.
Proof.
  intros Ha Hb Hx Hxy Hy.
  apply (cdf_increasing beta contract a b x y); try assumption;
    now apply cdf_real.
Qed.

Lemma cdfR_le_reflect a b x y : 0 < a -> 0 < b ->
  0 <= x <= 1 -> 0 <= y <= 1 -> cdf_R beta a b x <= cdf_R beta a b y -> x <= y.
Proof.
  intros Ha Hb Hx Hy Hle.
  destruct (Rle_or_lt x y) as [? | Hlt]; [assumption |].
  pose proof (cdfR_increasing a b y x Ha Hb). lra.
Qed.

(** The quantile function is monotone. *)
Lemma ppfR_monotone a b p q : 0 < a -> 0 < b ->
  0 <= p -> p <= q -> q <= 1 -> ppf_R beta a b p <= ppf_R beta a b q.
Proof.
  intros Ha Hb Hp Hpq Hq.
  apply (cdfR_le_reflect a b); try assumption;
    try (apply ppf_real; try assumption; lra).
  rewrite !cdfR_ppfR by (try assumption; lra). assumption.
Qed.

(** The quantiles at 0 and at 1 are the ends of the support. *)
Lemma ppfR_0 a b : 0 < a -> 0 < b -> ppf_R beta a b 0 = 0.
Proof.
  intros Ha Hb.
  destruct (ppf_real a b 0 Ha Hb ltac:(lra)) as [_ Hu].
  destruct (Req_dec (ppf_R beta a b 0) 0) as [? | Hne]; [assumption |].
  pose proof (cdfR_increasing a b 0 (ppf_R beta a b 0) Ha Hb) as Hinc.
  rewrite cdfR_ppfR in Hinc by (try assumption; lra).
  destruct (cdf_real a b 0 Ha Hb) as [_ H0]. lra.
Qed.

Lemma ppfR_1 a b : 0 < a -> 0 < b -> ppf_R beta a b 1 = 1.
Proof.
  intros Ha Hb.
  destruct (ppf_real a b 1 Ha Hb ltac:(lra)) as [_ Hu].
  destruct (Req_dec (ppf_R beta a b 1) 1) as [? | Hne]; [assumption |].
  pose proof (cdfR_increasing a b (ppf_R beta a b 1) 1 Ha Hb) as Hinc.
  rewrite cdfR_ppfR in Hinc by (try assumption; lra).
  destruct (cdf_real a b 1 Ha Hb) as [_ H1]. lra.
Qed.

End ContractFacts.

(** ** [beta_equal_tailed_interval] *)

Section EqualTailed.

Variable beta : BetaEvaluator.
Hypothesis contract : BetaContract beta.

Local Open Scope float_scope.

Lemma beta_equal_tailed_interval_valid a b coverage env :
  all positive a -> all positive b -> all in_unit coverage ->
  Np.broadcast3 a b coverage = Ok env ->
  beta_equal_tailed_interval beta a b coverage =
  Ok (Np.map (fun '(a, b, c) => ppf beta a b ((Fin 1 - c) / Fin 2)) env,
      Np.map (fun '(a, b, c) => ppf beta a b ((Fin 1 + c) / Fin 2)) env).
Proof.
  intros Ha Hb Hc Henv. unfold beta_equal_tailed_interval.
  rewrite any_false_positive, any_false_positive, any_false_unit by assumption.
  cbn [raise_if bind].
  rewrite !(map3_env _ _ _ _ _ Henv). reflexivity.
Qed.

Lemma half_minus c : Fin ((1 - c) / 2)%R = (Fin 1 - Fin c) / Fin 2.
Proof. simpl. rewrite Reqb_false by lra. reflexivity. Qed.

Lemma half_plus c : Fin ((1 + c) / 2)%R = (Fin 1 + Fin c) / Fin 2.
Proof. simpl. rewrite Reqb_false by lra. reflexivity. Qed.

(** C1: on positive [a], [b] and [coverage] in [[0, 1]], broadcast
    together, [beta_equal_tailed_interval] returns elementwise the beta
    quantiles at [(1-coverage)/2] and [(1+coverage)/2]; the distribution
    function is [(1-coverage)/2] at the lower and [(1+coverage)/2] at the
    upper endpoint; at coverage 0 both endpoints are the median, and at
    coverage 1 the interval is (0, 1). *)
Theorem beta_equal_tailed_interval_spec :
  forall (a b coverage : ndarray float64) env,
    all positive a -> all positive b -> all in_unit coverage ->
    Np.broadcast3 a b coverage = Ok env ->
    exists lo hi,
      beta_equal_tailed_interval beta a b coverage = Ok (lo, hi) /\
      lo = Np.map (fun '(a, b, c) => ppf beta a b ((Fin 1 - c) / Fin 2)) env /\
      hi = Np.map (fun '(a, b, c) => ppf beta a b ((Fin 1 + c) / Fin 2)) env /\
      forall a0 b0 c0, In (a0, b0, c0) (Np.elements env) ->
        let lo0 := ppf beta a0 b0 ((Fin 1 - c0) / Fin 2) in
        let hi0 := ppf beta a0 b0 ((Fin 1 + c0) / Fin 2) in
        cdf beta a0 b0 lo0 = (Fin 1 - c0) / Fin 2 /\
        cdf beta a0 b0 hi0 = (Fin 1 + c0) / Fin 2 /\
        (c0 = Fin 0 -> lo0 = ppf beta a0 b0 (Fin (1 / 2)) /\
                       hi0 = ppf beta a0 b0 (Fin (1 / 2))) /\
        (c0 = Fin 1 -> lo0 = Fin 0 /\ hi0 = Fin 1).
Proof.
  intros a b coverage env Ha Hb Hc Henv.
  rewrite (beta_equal_tailed_interval_valid _ _ _ _ Ha Hb Hc Henv).
  do 2 eexists. split; [reflexivity |].
  split; [reflexivity |]. split; [reflexivity |].
  intros a0 b0 c0 Hin.
  destruct (broadcast3_viewed _ _ _ _ Henv) as (_ & _ & _ & _ & Hva & Hvb & Hvc).
  destruct (viewed_all _ _ _ _ Hva Ha _ Hin) as (ra & Ea & Hra).
  destruct (viewed_all _ _ _ _ Hvb Hb _ Hin) as (rb & Eb & Hrb).
  destruct (viewed_all _ _ _ _ Hvc Hc _ Hin) as (rc & Ec & Hrc).
  simpl in Ea, Eb, Ec. subst a0 b0 c0. cbv zeta.
  rewrite <- half_minus, <- half_plus.
  repeat split.
  - apply (cdf_ppf beta contract); (assumption || lra).
  - apply (cdf_ppf beta contract); (assumption || lra).
  - injection H as ->. do 2 f_equal. lra.
  - injection H as ->. do 2 f_equal. lra.
  - injection H as ->. replace ((1 - 1) / 2)%R with 0%R by lra.
    destruct (ppf_real beta contract ra rb 0 Hra Hrb ltac:(lra)) as [-> _].
    now rewrite ppfR_0.
  - injection H as ->. replace ((1 + 1) / 2)%R with 1%R by lra.
    destruct (ppf_real beta contract ra rb 1 Hra Hrb ltac:(lra)) as [-> _].
    now rewrite ppfR_1.
Qed.

End EqualTailed.

(** ** The binomial tail *)

Lemma binom_tail_0 n x : binom_tail n 0 x = 1.
Proof. destruct n; reflexivity. Qed.

Lemma binom_tail_S n k x :
  binom_tail (S n) (S k) x = x * binom_tail n k x + (1 - x) * binom_tail n (S k) x.
Proof. reflexivity. Qed.

Lemma binom_tail_above n : forall k x, (n < k)%nat -> binom_tail n k x = 0.
Proof.
  induction n as [| n IH]; intros [| k] x Hk; try lia; [reflexivity |].
  rewrite binom_tail_S, !IH by lia. lra.
Qed.

Lemma binom_tail_unit n : forall k x, 0 <= x <= 1 -> 0 <= binom_tail n k x <= 1.
Proof.
  induction n as [| n IH]; intros [| k] x Hx; simpl; try lra.
  pose proof (IH k x Hx). pose proof (IH (S k) x Hx). nra.
Qed.

Lemma binom_tail_antitone n : forall k x, 0 <= x <= 1 ->
  binom_tail n (S k) x <= binom_tail n k x.
Proof.
  induction n as [| n IH]; intros k x Hx.
  - destruct k; simpl; lra.
  - destruct k as [| k].
    + rewrite binom_tail_0. now apply binom_tail_unit.
    + rewrite !binom_tail_S.
      pose proof (IH k x Hx). pose proof (IH (S k) x Hx). nra.
Qed.

Lemma binom_tail_at_0 n : forall k, (1 <= k)%nat -> binom_tail n k 0 = 0.
Proof.
  induction n as [| n IH]; intros [| k] Hk; try lia; [reflexivity |].
  rewrite binom_tail_S. rewrite (IH (S k)) by lia. lra.
Qed.

Lemma binom_tail_at_1 n : forall k, (k <= n)%nat -> binom_tail n k 1 = 1.
Proof.
  induction n as [| n IH]; intros [| k] Hk; try lia; try reflexivity.
  rewrite binom_tail_S. rewrite (IH k) by lia. lra.
Qed.

(** The increment of the tail between two success probabilities. *)
Lemma binom_tail_increment n k x y :
  binom_tail (S n) (S k) y - binom_tail (S n) (S k) x
  = (y - x) * (binom_tail n k y - binom_tail n (S k) y)
    + x * (binom_tail n k y - binom_tail n k x)
    + (1 - x) * (binom_tail n (S k) y - binom_tail n (S k) x).
Proof. rewrite !binom_tail_S. ring. Qed.

Lemma binom_tail_monotone n : forall k x y, 0 <= x -> x <= y -> y <= 1 ->
  binom_tail n k x <= binom_tail n k y.
Proof.
  induction n as [| n IH]; intros [| k] x y Hx Hxy Hy; simpl; try lra.
  pose proof (binom_tail_increment n k x y) as Hinc. simpl in Hinc.
  pose proof (IH k x y Hx Hxy Hy).
  pose proof (IH (S k) x y Hx Hxy Hy).
  pose proof (binom_tail_antitone n k y ltac:(lra)).
  assert (0 <= (y - x) * (binom_tail n k y - binom_tail n (S k) y)) by nra.
  assert (0 <= x * (binom_tail n k y - binom_tail n k x)) by nra.
  assert (0 <= (1 - x) * (binom_tail n (S k) y - binom_tail n (S k) x)) by nra.
  lra.
Qed.

Lemma binom_tail_increasing n : forall k x y, (1 <= k <= n)%nat ->
  0 <= x -> x < y -> y <= 1 -> binom_tail n k x < binom_tail n k y.
Proof.
  induction n as [| n IH]; intros [| k] x y Hk Hx Hxy Hy; try lia.
  pose proof (binom_tail_increment n k x y) as Hinc.
  pose proof (binom_tail_monotone n k x y Hx ltac:(lra) Hy).
  pose proof (binom_tail_monotone n (S k) x y Hx ltac:(lra) Hy).
  pose proof (binom_tail_antitone n k y ltac:(lra)).
  assert (0 <= (y - x) * (binom_tail n k y - binom_tail n (S k) y)) by nra.
  assert (0 <= x * (binom_tail n k y - binom_tail n k x)) by nra.
  assert (0 <= (1 - x) * (binom_tail n (S k) y - binom_tail n (S k) x)) by nra.
  destruct (Nat.eq_dec k n) as [-> | Hkn].
  - (* the tail at [S n] vanishes; the first term is positive *)
    rewrite (binom_tail_above n (S n)) in * by lia.
    assert (0 < binom_tail n n y).
    { destruct n as [| n]; [simpl; lra |].
      rewrite <- (binom_tail_at_0 (S n) (S n)) at 1 by lia.
      apply IH; (lia || lra). }
    assert (0 < (y - x) * (binom_tail n n y - 0)) by nra.
    lra.
  - pose proof (IH (S k) x y ltac:(lia) Hx Hxy Hy).
    assert (0 < (1 - x) * (binom_tail n (S k) y - binom_tail n (S k) x)) by nra.
    lra.
Qed.

(** Exchanging successes and failures. *)
Lemma binom_tail_reflect n : forall k x, (k <= S n)%nat ->
  binom_tail n k (1 - x) + binom_tail n (S n - k) x = 1.
Proof.
  induction n as [| n IH]; intros k x Hk.
  - destruct k as [| [| k]]; simpl; try lra; lia.
  - destruct k as [| k].
    + rewrite binom_tail_0, binom_tail_above by lia. lra.
    + destruct (Nat.eq_dec k (S n)) as [-> | Hne].
      * rewrite binom_tail_above by lia.
        replace (S (S n) - S (S n))%nat with 0%nat by lia.
        rewrite binom_tail_0. lra.
      * replace (S (S n) - S k)%nat with (S (n - k)) by lia.
        rewrite !binom_tail_S.
        pose proof (IH k x ltac:(lia)) as H1.
        pose proof (IH (S k) x ltac:(lia)) as H2.
        replace (S n - k)%nat with (S (n - k)) in H1 by lia.
        replace (S n - S k)%nat with (n - k)%nat in H2 by lia.
        nra.
Qed.

Lemma binom_tail_continuous n : forall k, continuity (binom_tail n k).
Proof.
  induction n as [| n IH]; intros [| k].
  - apply continuity_const. intros x y. reflexivity.
  - apply continuity_const. intros x y. reflexivity.
  - apply continuity_const. intros x y. reflexivity.
  - change (binom_tail (S n) (S k))
      with ((id * binom_tail n k) + ((fct_cte 1 - id) * binom_tail n (S k)))%F.
    apply continuity_plus; apply continuity_mult; try apply IH.
    + apply derivable_continuous, derivable_id.
    + apply continuity_minus.
      * apply continuity_const. intros x y. reflexivity.
      * apply derivable_continuous, derivable_id.
Qed.

(** Every level in [[0, 1]] is attained on [[0, 1]]. *)
Lemma binom_tail_onto n k q : (1 <= k <= n)%nat -> 0 <= q <= 1 ->
  exists x, 0 <= x <= 1 /\ binom_tail n k x = q.
Proof.
  intros Hk Hq.
  destruct (IVT_cor (binom_tail n k - fct_cte q)%F 0 1) as (x & Hx & Hfx).
  - apply continuity_minus; [apply binom_tail_continuous |].
    apply continuity_const. intros x y. reflexivity.
  - lra.
  - unfold minus_fct, fct_cte.
    rewrite binom_tail_at_0, binom_tail_at_1 by lia. nra.
  - exists x. split; [assumption |]. unfold minus_fct, fct_cte in Hfx. lra.
Qed.

(** ** The reference evaluator meets the contract *)

Lemma unit_clip_unit x : 0 <= unit_clip x <= 1.
Proof.
  unfold unit_clip, Rmax, Rmin.
  destruct (Rle_dec x 1); destruct (Rle_dec 0 _); lra.
Qed.

Lemma unit_clip_id x : 0 <= x <= 1 -> unit_clip x = x.
Proof.
  intros Hx. unfold unit_clip, Rmax, Rmin.
  destruct (Rle_dec x 1); destruct (Rle_dec 0 _); lra.
Qed.

Lemma as_positive_nat_INR m : (1 <= m)%nat -> as_positive_nat (INR m) = Some m.
Proof.
  intros Hm. unfold as_positive_nat, F.is_int.
  rewrite Int_part_INR, <- INR_IZR_INZ, Nat2Z.id.
  rewrite Rltb_true by (apply lt_0_INR; lia).
  now rewrite Reqb_true.
Qed.

Lemma as_positive_nat_pos a m : as_positive_nat a = Some m -> (1 <= m)%nat.
Proof.
  unfold as_positive_nat, F.is_int.
  destruct (Rltb_spec 0 a) as [Ha |]; [| discriminate].
  destruct (Reqb_spec a (IZR (Int_part a))) as [Hint |]; [| discriminate].
  simpl. intros [= <-].
  assert (0 < Int_part a)%Z by (apply lt_IZR; lra). lia.
Qed.

Lemma reference_cdf_unit a b x : 0 <= reference_cdf a b x <= 1.
Proof.
  unfold reference_cdf. pose proof (unit_clip_unit x).
  destruct (as_positive_nat a), (as_positive_nat b); try assumption.
  now apply binom_tail_unit.
Qed.

Lemma reference_cdf_increasing a b x y :
  0 <= x -> x < y -> y <= 1 -> reference_cdf a b x < reference_cdf a b y.
Proof.
  intros Hx Hxy Hy. unfold reference_cdf.
  rewrite !unit_clip_id by lra.
  destruct (as_positive_nat a) as [m |] eqn:Ea; [| assumption].
  destruct (as_positive_nat b) as [n |] eqn:Eb; [| assumption].
  apply as_positive_nat_pos in Ea, Eb.
  apply binom_tail_increasing; (lia || lra).
Qed.

Lemma reference_cdf_onto a b q : 0 <= q <= 1 ->
  exists x, 0 <= x <= 1 /\ reference_cdf a b x = q.
Proof.
  intros Hq. unfold reference_cdf.
  destruct (as_positive_nat a) as [m |] eqn:Ea;
    [destruct (as_positive_nat b) as [n |] eqn:Eb |].
  - apply as_positive_nat_pos in Ea, Eb.
    destruct (binom_tail_onto (m + n - 1) m q ltac:(lia) Hq) as (x & Hx & Hbt).
    exists x. split; [assumption |]. now rewrite unit_clip_id.
  - exists q. split; [assumption |]. now apply unit_clip_id.
  - exists q. split; [assumption |]. now apply unit_clip_id.
Qed.

Lemma reference_ppf_spec a b q : 0 <= q <= 1 ->
  0 <= reference_ppf a b q <= 1 /\ reference_cdf a b (reference_ppf a b q) = q.
Proof.
  intros Hq. unfold reference_ppf.
  apply (epsilon_spec (inhabits 0)
           (fun x => 0 <= x <= 1 /\ reference_cdf a b x = q)).
  now apply reference_cdf_onto.
Qed.

Lemma reference_beta_contract : BetaContract reference_beta.
Proof.
  constructor; simpl; unfold on_domain.
  - intros a b q Ha Hb Hq.
    rewrite !Rltb_true, !Rleb_true by lra. simpl.
    eexists. split; [reflexivity |]. now apply reference_ppf_spec.
  - intros a b x Ha Hb.
    rewrite !Rltb_true by lra. simpl.
    eexists. split; [reflexivity |]. apply reference_cdf_unit.
  - intros a b q Ha Hb Hq.
    rewrite !Rltb_true, !Rleb_true by lra. simpl.
    f_equal. now apply reference_ppf_spec.
  - intros a b x y p q Ha Hb Hx Hxy Hy.
    rewrite !Rltb_true by lra. simpl.
    intros [= <-] [= <-]. now apply reference_cdf_increasing.
  - intros a b x Ha Hb Hx.
    rewrite !Rltb_true by (apply lt_0_INR; lia). simpl.
    unfold reference_cdf. rewrite !as_positive_nat_INR by assumption.
    now rewrite unit_clip_id.
Qed.

(** ** [binomial_confidence_interval] *)

Lemma Forall2_map_same {E A B} (P : A -> B -> Prop) (f : E -> A) (g : E -> B)
  (l : list E) :
  (forall e, In e l -> P (f e) (g e)) -> Forall2 P (List.map f l) (List.map g l).
Proof.
  induction l as [| e l IH]; simpl; intros H; constructor.
  - apply H. now left.
  - apply IH. intros e' He'. apply H. now right.
Qed.

Lemma unit_intervals_map {E} (f g : E -> float64) (env : ndarray E) :
  (forall e, In e (Np.elements env) -> unit_interval (f e) (g e)) ->
  unit_intervals (Np.map f env) (Np.map g env).
Proof.
  intros H. split.
  - now rewrite !shape_map.
  - rewrite !elements_map. now apply Forall2_map_same.
Qed.

Lemma contract_range beta : BetaContract beta -> BetaRange beta.
Proof. intros C. constructor; [apply (ppf_unit beta C) | apply (cdf_unit beta C)]. Qed.

Section Binomial.

Variable beta : BetaEvaluator.
Hypothesis contract : BetaContract beta.

Lemma IZR_to_nat (z : Z) : (0 <= z)%Z -> INR (Z.to_nat z) = IZR z.
Proof. intros Hz. now rewrite INR_IZR_INZ, Z2Nat.id. Qed.

(** At integer shape parameters the quantile inverts the binomial tail. *)
Lemma quantile_int (a b : Z) q : (1 <= a)%Z -> (1 <= b)%Z -> 0 <= q <= 1 ->
  ppf beta (Fin (IZR a)) (Fin (IZR b)) (Fin q)
  = Fin (ppf_R beta (IZR a) (IZR b) q) /\
  0 <= ppf_R beta (IZR a) (IZR b) q <= 1 /\
  binom_tail (Z.to_nat (a + b - 1)) (Z.to_nat a)
    (ppf_R beta (IZR a) (IZR b) q) = q.
Proof.
  intros Ha Hb Hq.
  assert (Ha' : 0 < IZR a) by (apply IZR_lt; lia).
  assert (Hb' : 0 < IZR b) by (apply IZR_lt; lia).
  destruct (ppf_real beta contract _ _ q Ha' Hb' Hq) as [Hppf Hu].
  repeat split; try assumption; try lra.
  pose proof (cdf_ppf beta contract _ _ q Ha' Hb' Hq) as Hcdf.
  rewrite Hppf in Hcdf.
  pose proof (cdf_binomial beta contract (Z.to_nat a) (Z.to_nat b) _
                ltac:(lia) ltac:(lia) Hu) as Hbin.
  rewrite !IZR_to_nat in Hbin by lia. rewrite Hcdf in Hbin.
  injection Hbin as Hbin.
  etransitivity; [| symmetry; exact Hbin]. f_equal; lia.
Qed.

Lemma confidence_levels c : 0 <= c <= 1 ->
  F.div (F.sub (Fin 1) (Fin c)) (Fin 2) = Fin ((1 - c) / 2) /\
  F.sub (Fin 1) (F.div (F.sub (Fin 1) (Fin c)) (Fin 2)) = Fin ((1 + c) / 2).
Proof.
  intros Hc. simpl. rewrite Reqb_false by lra. simpl.
  split; f_equal; lra.
Qed.

(** One entry: the bounds are ordered and lie in the unit interval. *)
Lemma clopper_pearson_ordered (k n : Z) c :
  (0 <= k <= n)%Z -> (1 <= n)%Z -> 0 <= c <= 1 ->
  unit_interval (clopper_pearson_lo beta k n (Fin c))
                (clopper_pearson_hi beta k n (Fin c)).
Proof.
  intros Hk Hn Hc. unfold clopper_pearson_lo, clopper_pearson_hi.
  destruct (confidence_levels c Hc) as [-> ->].
  destruct (Z.eqb_spec k 0) as [-> | Hk0].
  - destruct (Z.eqb_spec 0 n) as [<- | _]; [lia |].
    destruct (quantile_int (0 + 1) (n - 0) ((1 + c) / 2))
      as (-> & Hu & _); try lia; try lra.
    exists 0, (ppf_R beta (IZR (0 + 1)) (IZR (n - 0)) ((1 + c) / 2)).
    repeat split; lra.
  - destruct (quantile_int k (n - k + 1) ((1 - c) / 2))
      as (-> & Hu & Hbu); try lia; try lra.
    destruct (Z.eqb_spec k n) as [-> | Hkn].
    + exists (ppf_R beta (IZR n) (IZR (n - n + 1)) ((1 - c) / 2)), 1.
      repeat split; lra.
    + destruct (quantile_int (k + 1) (n - k) ((1 + c) / 2))
        as (-> & Hv & Hbv); try lia; try lra.
      do 2 eexists. repeat split; try lra.
      set (u := ppf_R beta (IZR k) (IZR (n - k + 1)) ((1 - c) / 2)) in *.
      set (v := ppf_R beta (IZR (k + 1)) (IZR (n - k)) ((1 + c) / 2)) in *.
      replace (Z.to_nat (k + (n - k + 1) - 1)) with (Z.to_nat n) in Hbu
        by (f_equal; lia).
      replace (Z.to_nat (k + 1 + (n - k) - 1)) with (Z.to_nat n) in Hbv
        by (f_equal; lia).
      replace (Z.to_nat (k + 1)) with (S (Z.to_nat k)) in Hbv by lia.
      destruct (Rle_or_lt u v) as [? | Hvu]; [assumption | exfalso].
      pose proof (binom_tail_increasing (Z.to_nat n) (Z.to_nat k) v u
                    ltac:(lia) ltac:(lra) Hvu ltac:(lra)).
      pose proof (binom_tail_antitone (Z.to_nat n) (Z.to_nat k) v ltac:(lra)).
      lra.
Qed.

(** One entry: the lower bound for [k] successes mirrors the upper bound
    for [n - k] successes. *)
Lemma clopper_pearson_symmetric (k n : Z) c :
  (0 <= k <= n)%Z -> (1 <= n)%Z -> 0 <= c <= 1 ->
  clopper_pearson_lo beta k n (Fin c)
  = F.sub (Fin 1) (clopper_pearson_hi beta (n - k) n (Fin c)).
Proof.
  intros Hk Hn Hc. unfold clopper_pearson_lo, clopper_pearson_hi.
  destruct (confidence_levels c Hc) as [-> ->].
  destruct (Z.eqb_spec k 0) as [-> | Hk0].
  - rewrite Z.sub_0_r, Z.eqb_refl. simpl. f_equal. lra.
  - destruct (Z.eqb_spec (n - k) n) as [? | _]; [lia |].
    destruct (quantile_int k (n - k + 1) ((1 - c) / 2))
      as (-> & Hu & Hbu); try lia; try lra.
    destruct (quantile_int (n - k + 1) (n - (n - k)) ((1 + c) / 2))
      as (-> & Hv & Hbv); try lia; try lra.
    set (u := ppf_R beta (IZR k) (IZR (n - k + 1)) ((1 - c) / 2)) in *.
    set (v := ppf_R beta (IZR (n - k + 1)) (IZR (n - (n - k))) ((1 + c) / 2)) in *.
    simpl. f_equal.
    replace (Z.to_nat (k + (n - k + 1) - 1)) with (Z.to_nat n) in Hbu
      by (f_equal; lia).
    replace (Z.to_nat (n - k + 1 + (n - (n - k)) - 1)) with (Z.to_nat n) in Hbv
      by (f_equal; lia).
    pose proof (binom_tail_reflect (Z.to_nat n) (Z.to_nat k) v ltac:(lia)) as Hr.
    replace (S (Z.to_nat n) - Z.to_nat k)%nat with (Z.to_nat (n - k + 1)) in Hr
      by lia.
    destruct (Rtotal_order u (1 - v)) as [Hlt | [Heq | Hgt]].
    + pose proof (binom_tail_increasing (Z.to_nat n) (Z.to_nat k) u (1 - v)
                    ltac:(lia) ltac:(lra) Hlt ltac:(lra)). lra.
    + lra.
    + pose proof (binom_tail_increasing (Z.to_nat n) (Z.to_nat k) (1 - v) u
                    ltac:(lia) ltac:(lra) Hgt ltac:(lra)). lra.
Qed.

End Binomial.

Lemma broadcast2_raise {A B} (x : ndarray A) (y : ndarray B) e :
  Np.broadcast2 x y = Raise e -> e = ValueError.
Proof.
  destruct x as [a | la], y as [b | lb]; simpl; try discriminate.
  destruct (Nat.eqb _ _); [discriminate |].
  destruct la as [| a [| a' la]], lb as [| b [| b' lb]]; try discriminate;
    now intros [= <-].
Qed.

Lemma map2_raise {A B C} (f : A -> B -> C) x y e :
  Np.map2 f x y = Raise e -> e = ValueError.
Proof.
  unfold Np.map2. destruct (Np.broadcast2 x y) eqn:H; [discriminate |].
  simpl. intros [= <-]. now apply broadcast2_raise in H.
Qed.

Lemma map2_ok {A B C} (f : A -> B -> C) x y xy :
  Np.broadcast2 x y = Ok xy ->
  Np.map2 f x y = Ok (Np.map (fun '(a, b) => f a b) xy).
Proof. intros H. unfold Np.map2. now rewrite H. Qed.

Lemma map2_inv {A B C} (f : A -> B -> C) x y r :
  Np.map2 f x y = Ok r ->
  exists xy, Np.broadcast2 x y = Ok xy /\ r = Np.map (fun '(a, b) => f a b) xy.
Proof.
  unfold Np.map2. destruct (Np.broadcast2 x y) as [xy |]; [| discriminate].
  simpl. intros [= <-]. eauto.
Qed.

(** The tail at a rational success probability, by integer arithmetic. *)
Lemma binom_tail_rational p q n : (0 < q)%Z -> forall k,
  binom_tail n k (IZR p / IZR q) = IZR (tail_num p q n k) / IZR (q ^ Z.of_nat n).
Proof.
  intros Hq.
  assert (Hq' : IZR q <> 0) by (apply not_0_IZR; lia).
  assert (Hpow : forall m, IZR (q ^ Z.of_nat m) <> 0).
  { intros m. apply not_0_IZR. apply Z.pow_nonzero; lia. }
  induction n as [| n IH]; intros [| k].
  - simpl. lra.
  - simpl. lra.
  - rewrite binom_tail_0. cbn [tail_num]. field. apply Hpow.
  - rewrite binom_tail_S, !IH. cbn [tail_num].
    rewrite Nat2Z.inj_succ, Z.pow_succ_r by lia.
    rewrite plus_IZR, !mult_IZR, minus_IZR. field.
    split; [apply Hpow | assumption].
Qed.

Lemma tail_below p q n k (a b : Z) :
  (0 < q)%Z -> (0 < b)%Z ->
  (b * tail_num p q n k <? a * q ^ Z.of_nat n)%Z = true ->
  binom_tail n k (IZR p / IZR q) < IZR a / IZR b.
Proof.
  intros Hq Hb H. rewrite binom_tail_rational by assumption.
  apply Z.ltb_lt in H. apply IZR_lt in H. rewrite !mult_IZR in H.
  assert (0 < IZR (q ^ Z.of_nat n)) by (apply IZR_lt, Z.pow_pos_nonneg; lia).
  assert (0 < IZR b) by (now apply IZR_lt).
  apply Rmult_lt_reg_r with (IZR (q ^ Z.of_nat n) * IZR b); [nra |].
  field_simplify; lra.
Qed.

Lemma tail_above p q n k (a b : Z) :
  (0 < q)%Z -> (0 < b)%Z ->
  (a * q ^ Z.of_nat n <? b * tail_num p q n k)%Z = true ->
  IZR a / IZR b < binom_tail n k (IZR p / IZR q).
Proof.
  intros Hq Hb H. rewrite binom_tail_rational by assumption.
  apply Z.ltb_lt in H. apply IZR_lt in H. rewrite !mult_IZR in H.
  assert (0 < IZR (q ^ Z.of_nat n)) by (apply IZR_lt, Z.pow_pos_nonneg; lia).
  assert (0 < IZR b) by (now apply IZR_lt).
  apply Rmult_lt_reg_r with (IZR (q ^ Z.of_nat n) * IZR b); [nra |].
  field_simplify; lra.
Qed.

(** The tail probabilities that bracket the quantiles of the example. *)
Lemma binom_tail_10_5_below : binom_tail 10 5 (1753 / 5000) < 1 / 4.
Proof. apply tail_below; reflexivity. Qed.

Lemma binom_tail_10_5_above : 1 / 4 < binom_tail 10 5 (1754 / 5000).
Proof. apply tail_above; reflexivity. Qed.

Lemma binom_tail_10_6_below : binom_tail 10 6 (3246 / 5000) < 3 / 4.
Proof. apply tail_below; reflexivity. Qed.

Lemma binom_tail_10_6_above : 3 / 4 < binom_tail 10 6 (3247 / 5000).
Proof. apply tail_above; reflexivity. Qed.

(** A level strictly between the tails at two points has its preimage
    strictly between the points. *)
Lemma binom_tail_bracket n k u lo hi :
  0 <= lo <= 1 -> 0 <= hi <= 1 -> 0 <= u <= 1 ->
  binom_tail n k lo < binom_tail n k u ->
  binom_tail n k u < binom_tail n k hi ->
  lo < u < hi.
Proof.
  intros Hlo Hhi Hu H1 H2. split.
  - destruct (Rlt_or_le lo u) as [? | Hle]; [assumption |].
    pose proof (binom_tail_monotone n k u lo ltac:(lra) Hle ltac:(lra)). lra.
  - destruct (Rlt_or_le u hi) as [? | Hle]; [assumption |].
    pose proof (binom_tail_monotone n k hi u ltac:(lra) Hle ltac:(lra)). lra.
Qed.

Section BinomialArrays.

Variable beta : BetaEvaluator.

Lemma binomial_confidence_interval_valid ks ns conf kn env :
  all (fun k => (0 <= k)%Z) ks -> all (fun n => (1 <= n)%Z) ns ->
  all in_unit conf ->
  Np.broadcast2 ks ns = Ok kn -> all (fun '(k, n) => (k <= n)%Z) kn ->
  Np.broadcast2 kn conf = Ok env ->
  binomial_confidence_interval beta ks ns conf =
  Ok (Np.map (fun '(k, n, c) => clopper_pearson_lo beta k n c) env,
      Np.map (fun '(k, n, c) => clopper_pearson_hi beta k n c) env).
Proof.
  intros Hk Hn Hc Hkn Hle Henv. unfold binomial_confidence_interval.
  replace (Np.any (Np.map (fun k => (k <? 0)%Z) ks)) with false.
  2:{ symmetry. apply any_map_false. eapply Forall_impl; [| exact Hk].
      intros k Hk0. simpl in Hk0. now apply Z.ltb_ge. }
  replace (Np.any (Np.map (fun n => (n <? 1)%Z) ns)) with false.
  2:{ symmetry. apply any_map_false. eapply Forall_impl; [| exact Hn].
      intros n Hn0. simpl in Hn0. now apply Z.ltb_ge. }
  rewrite any_false_unit by assumption.
  rewrite (map2_ok _ _ _ _ Hkn).
  cbn [raise_if bind].
  replace (Np.any _) with false.
  2:{ symmetry. apply any_map_false. eapply Forall_impl; [| exact Hle].
      intros [k n] Hkn0. rewrite Z.gtb_ltb. now apply Z.ltb_ge. }
  cbn [raise_if bind].
  assert (H3 : Np.broadcast3 ks ns conf = Ok env)
    by (unfold Np.broadcast3; now rewrite Hkn).
  rewrite !(map3_env _ _ _ _ _ H3). reflexivity.
Qed.

Lemma binomial_confidence_interval_invalid ks ns conf :
  (exists k, In k (Np.elements ks) /\ (k < 0)%Z) \/
  (exists n, In n (Np.elements ns) /\ (n < 1)%Z) \/
  (exists c, In c (Np.elements conf) /\
             (F.lt c (Fin 0) || F.gt c (Fin 1)) = true) \/
  (exists kn k n, Np.broadcast2 ks ns = Ok kn /\
                  In (k, n) (Np.elements kn) /\ (n < k)%Z) ->
  binomial_confidence_interval beta ks ns conf = Raise ValueError.
Proof.
  intros H. unfold binomial_confidence_interval.
  destruct (Np.any (Np.map (fun k => (k <? 0)%Z) ks)) eqn:E1; [reflexivity |].
  destruct (Np.any (Np.map (fun n => (n <? 1)%Z) ns)) eqn:E2; [reflexivity |].
  destruct (Np.any (Np.map _ conf)) eqn:E3; [reflexivity |].
  cbn [raise_if bind].
  destruct (Np.map2 _ ks ns) as [too_many | e] eqn:E4.
  2:{ apply map2_raise in E4. now subst e. }
  cbn [bind].
  destruct (Np.any too_many) eqn:E5; [reflexivity | exfalso].
  apply map2_inv in E4 as (kn & Hkn & ->).
  apply any_map_false in E1. apply any_map_false in E2.
  apply any_map_false in E3. apply any_map_false in E5. unfold all in *.
  rewrite Forall_forall in E1, E2, E3, E5.
  destruct H as [(k & Hin & Hk) | [(n & Hin & Hn) | [(c & Hin & Hc) |
                 (kn' & k & n & Hkn' & Hin & Hlt)]]].
  - apply E1 in Hin. apply Z.ltb_ge in Hin. lia.
  - apply E2 in Hin. apply Z.ltb_ge in Hin. lia.
  - apply E3 in Hin. congruence.
  - rewrite Hkn in Hkn'. injection Hkn' as <-.
    apply E5 in Hin. simpl in Hin. rewrite Z.gtb_ltb in Hin.
    apply Z.ltb_ge in Hin. lia.
Qed.

End BinomialArrays.

(** C3: for integer arrays with [0 <= n_successes <= n_total],
    [n_total >= 1] and [confidence] in [[0, 1]],
    [binomial_confidence_interval] returns elementwise the lower bound 0
    when [n_successes == 0] and otherwise
    [Beta(n_successes, n_total-n_successes+1).ppf((1-confidence)/2)], and
    the upper bound 1 when [n_successes == n_total] and otherwise
    [Beta(n_successes+1, n_total-n_successes).ppf(1-(1-confidence)/2)]; an
    argument outside those domains raises a validation error; and
    [binomial_confidence_interval(5, 10, 0.5)] is (0.3507, 0.6493) to four
    decimals, [binomial_confidence_interval(0, 1, 0.5)] is (0, 0.75). *)
Theorem binomial_confidence_interval_spec :
  forall beta : BetaEvaluator,
    BetaContract beta ->
    (forall ks ns conf kn env,
        all (fun k => (0 <= k)%Z) ks -> all (fun n => (1 <= n)%Z) ns ->
        all in_unit conf ->
        Np.broadcast2 ks ns = Ok kn -> all (fun '(k, n) => (k <= n)%Z) kn ->
        Np.broadcast2 kn conf = Ok env ->
        binomial_confidence_interval beta ks ns conf =
        Ok (Np.map
              (fun '(k, n, c) =>
                 if (k =? 0)%Z then Fin 0
                 else ppf beta (Fin (IZR k)) (Fin (IZR (n - k + 1)))
                        (F.div (F.sub (Fin 1) c) (Fin 2)))
              env,
            Np.map
              (fun '(k, n, c) =>
                 if (k =? n)%Z then Fin 1
                 else ppf beta (Fin (IZR (k + 1))) (Fin (IZR (n - k)))
                        (F.sub (Fin 1) (F.div (F.sub (Fin 1) c) (Fin 2))))
              env)) /\
    (forall ks ns conf,
        (exists k, In k (Np.elements ks) /\ (k < 0)%Z) \/
        (exists n, In n (Np.elements ns) /\ (n < 1)%Z) \/
        (exists c, In c (Np.elements conf) /\
                   (F.lt c (Fin 0) || F.gt c (Fin 1)) = true) \/
        (exists kn k n, Np.broadcast2 ks ns = Ok kn /\
                        In (k, n) (Np.elements kn) /\ (n < k)%Z) ->
        binomial_confidence_interval beta ks ns conf = Raise ValueError) /\
    (exists l h,
        binomial_confidence_interval beta
          (Scalar 5%Z) (Scalar 10%Z) (Scalar (Fin (1 / 2)))
        = Ok (Scalar (Fin l), Scalar (Fin h)) /\
        Rabs (l - 3507 / 10000) < 1 / 10000 /\
        Rabs (h - 6493 / 10000) < 1 / 10000) /\
    binomial_confidence_interval beta
      (Scalar 0%Z) (Scalar 1%Z) (Scalar (Fin (1 / 2)))
    = Ok (Scalar (Fin 0), Scalar (Fin (3 / 4))).
Proof.
  intros beta contract. repeat split.
  - intros ks ns conf kn env Hk Hn Hc Hkn Hle Henv.
    now apply (binomial_confidence_interval_valid beta ks ns conf kn env).
  - apply binomial_confidence_interval_invalid.
  - assert (Hc : 0 <= 1 / 2 <= 1) by lra.
    destruct (confidence_levels (1 / 2) Hc) as [Hlo Hhi].
    destruct (quantile_int beta contract 5 6 ((1 - 1 / 2) / 2))
      as (Hl & Hlu & Hlt); try lia; try lra.
    destruct (quantile_int beta contract 6 5 ((1 + 1 / 2) / 2))
      as (Hh & Hhu & Hht); try lia; try lra.
    change (Z.to_nat (5 + 6 - 1)) with 10%nat in Hlt.
    change (Z.to_nat 5) with 5%nat in Hlt.
    change (Z.to_nat (6 + 5 - 1)) with 10%nat in Hht.
    change (Z.to_nat 6) with 6%nat in Hht.
    exists (ppf_R beta 5 6 ((1 - 1 / 2) / 2)), (ppf_R beta 6 5 ((1 + 1 / 2) / 2)).
    split; [| split].
    + erewrite binomial_confidence_interval_valid; try reflexivity;
        try (repeat constructor; simpl; lia).
      * cbn [Np.map]. unfold clopper_pearson_lo, clopper_pearson_hi.
        cbn [Z.eqb Pos.eqb Z.sub Z.add Z.opp Z.pos_sub Pos.add Pos.succ
               Z.succ_double Z.pred_double Z.double Pos.pred_double].
        rewrite Hhi, Hlo. now rewrite Hl, Hh.
      * repeat constructor. exists (1 / 2). split; [reflexivity | lra].
    + pose proof binom_tail_10_5_below. pose proof binom_tail_10_5_above.
      destruct (binom_tail_bracket 10 5 (ppf_R beta 5 6 ((1 - 1 / 2) / 2))
                  (1753 / 5000) (1754 / 5000)); try lra.
      apply Rabs_def1; lra.
    + pose proof binom_tail_10_6_below. pose proof binom_tail_10_6_above.
      destruct (binom_tail_bracket 10 6 (ppf_R beta 6 5 ((1 + 1 / 2) / 2))
                  (3246 / 5000) (3247 / 5000)); try lra.
      apply Rabs_def1; lra.
  - assert (Hc : 0 <= 1 / 2 <= 1) by lra.
    destruct (confidence_levels (1 / 2) Hc) as [Hlo Hhi].
    destruct (quantile_int beta contract 1 1 ((1 + 1 / 2) / 2))
      as (Hh & Hhu & Hht); try lia; try lra.
    change (binom_tail (Z.to_nat (1 + 1 - 1)) (Z.to_nat 1)) with (binom_tail 1 1) in Hht.
    cbn [binom_tail] in Hht.
    erewrite binomial_confidence_interval_valid; try reflexivity;
      try (repeat constructor; simpl; lia).
    + cbn [Np.map]. unfold clopper_pearson_lo, clopper_pearson_hi.
      cbn [Z.eqb Z.sub Z.add Z.opp Z.pos_sub Pos.add Pos.succ].
      rewrite Hhi, Hh.
      replace (ppf_R beta 1 1 ((1 + 1 / 2) / 2)) with (3 / 4) by lra.
      reflexivity.
    + repeat constructor. exists (1 / 2). split; [reflexivity | lra].
Qed.

Lemma binomial_confidence_interval_spec_witness :
  binomial_confidence_interval reference_beta
    (Scalar 0%Z) (Scalar 1%Z) (Scalar (Fin (1 / 2)))
  = Ok (Scalar (Fin 0), Scalar (Fin (3 / 4))) /\
  binomial_confidence_interval reference_beta
    (Vector [3; 4]%Z) (Scalar 2%Z) (Scalar (Fin (1 / 2)))
  = Raise ValueError.
Proof.
  destruct (binomial_confidence_interval_spec reference_beta
              reference_beta_contract) as (_ & Hinvalid & _ & Hexample).
  split; [exact Hexample |].
  apply Hinvalid. right. right. right.
  exists (Vector [(3, 2); (4, 2)]%Z), 3%Z, 2%Z.
  split; [reflexivity | split; [now left | lia]].
Defined.

(** C4: for [0 <= k <= n], [n >= 1] and [gamma] in [[0, 1]], the lower
    bound of [binomial_confidence_interval(k, n, gamma)] is one minus the
    upper bound of [binomial_confidence_interval(n - k, n, gamma)]. *)
Theorem binomial_confidence_interval_symmetry :
  forall beta : BetaEvaluator,
    BetaContract beta ->
    forall (k n : Z) (gamma : R),
      (0 <= k <= n)%Z -> (1 <= n)%Z -> 0 <= gamma <= 1 ->
      exists lo1 hi1 lo2 hi2,
        binomial_confidence_interval beta
          (Scalar k) (Scalar n) (Scalar (Fin gamma))
        = Ok (Scalar lo1, Scalar hi1) /\
        binomial_confidence_interval beta
          (Scalar (n - k)%Z) (Scalar n) (Scalar (Fin gamma))
        = Ok (Scalar lo2, Scalar hi2) /\
        lo1 = F.sub (Fin 1) hi2.
Proof.
  intros beta contract k n gamma Hk Hn Hg.
  assert (Hunit : all in_unit (Scalar (Fin gamma)))
    by (repeat constructor; exists gamma; now split).
  exists (clopper_pearson_lo beta k n (Fin gamma)),
         (clopper_pearson_hi beta k n (Fin gamma)),
         (clopper_pearson_lo beta (n - k) n (Fin gamma)),
         (clopper_pearson_hi beta (n - k) n (Fin gamma)).
  split; [| split].
  - apply (binomial_confidence_interval_valid beta _ _ _
             (Scalar (k, n)) (Scalar (k, n, Fin gamma)));
      try reflexivity; try assumption; repeat constructor; lia.
  - apply (binomial_confidence_interval_valid beta _ _ _
             (Scalar ((n - k)%Z, n)) (Scalar ((n - k)%Z, n, Fin gamma)));
      try reflexivity; try assumption; repeat constructor; lia.
  - now apply clopper_pearson_symmetric.
Qed.

Lemma binomial_confidence_interval_symmetry_witness :
  exists lo1 hi1 lo2 hi2,
    binomial_confidence_interval reference_beta
      (Scalar 25%Z) (Scalar 100%Z) (Scalar (Fin (3 / 4)))
    = Ok (Scalar lo1, Scalar hi1) /\
    binomial_confidence_interval reference_beta
      (Scalar (100 - 25)%Z) (Scalar 100%Z) (Scalar (Fin (3 / 4)))
    = Ok (Scalar lo2, Scalar hi2) /\
    lo1 = F.sub (Fin 1) hi2.
Proof.
  apply (binomial_confidence_interval_symmetry
           reference_beta reference_beta_contract 25 100 (3 / 4)); (lia || lra).
Defined.

(** ** The number of iterations of the binary searches *)

Lemma Int_part_IZR z : Int_part (IZR z) = z.
Proof. symmetry. apply Int_part_spec. lra. Qed.

Lemma ln_2_pos : 0 < ln 2.
Proof. rewrite <- ln_1. apply ln_increasing; lra. Qed.

(** The ceiling of a real that is at least 1 is at least 1. *)
Lemma ceil_ge_1 r : 1 <= r -> (1 <= - Int_part (- r))%Z.
Proof.
  intros Hr. destruct (base_Int_part (- r)) as [Hle _].
  assert (IZR (Int_part (- r)) < 0) by lra.
  apply lt_IZR in H. lia.
Qed.

Lemma log2_ge_1 m : 2 <= m -> 1 <= ln m / ln 2.
Proof.
  intros Hm. pose proof ln_2_pos.
  assert (ln 2 <= ln m).
  { destruct Hm as [Hm | <-]; [left; apply ln_increasing; lra | right; reflexivity]. }
  apply Rmult_le_reg_r with (ln 2); [assumption |].
  unfold Rdiv. rewrite Rmult_assoc, Rinv_l by lra. lra.
Qed.

(** [max(2, v)] is a real that is at least 2, or plus infinity. *)
Lemma py_max_2 v :
  (exists m, py_max (Fin 2) v = Fin m /\ 2 <= m) \/ py_max (Fin 2) v = PInf.
Proof.
  unfold py_max, F.gt. destruct v as [r | | |]; simpl.
  - destruct (Rltb_spec 2 r); left; eexists; split; try reflexivity; lra.
  - now right.
  - left. exists 2. split; [reflexivity | lra].
  - left. exists 2. split; [reflexivity | lra].
Qed.

Lemma iterations_of_real m : 2 <= m ->
  py_int (F.ceil (F.log2 (Fin m))) = Ok (- Int_part (- (ln m / ln 2)))%Z /\
  (1 <= - Int_part (- (ln m / ln 2)))%Z.
Proof.
  intros Hm. pose proof ln_2_pos. pose proof (log2_ge_1 m Hm) as HL.
  pose proof (ceil_ge_1 _ HL) as Hc.
  split; [| assumption].
  unfold F.log2. simpl. rewrite Rltb_true by lra. simpl.
  rewrite Reqb_false by lra. simpl.
  rewrite Rltb_false by (apply IZR_le; lia).
  now rewrite Int_part_IZR.
Qed.

(** Whenever the number of iterations is computed, it is at least 1. *)
Lemma n_iterations_ge_1 width atol n :
  n_iterations width atol = Ok n -> (1 <= n)%Z.
Proof.
  unfold n_iterations. destruct (Np.max width) as [w |]; [| discriminate].
  cbn [bind].
  destruct (py_max_2 (F.div w atol)) as [(m & -> & Hm) | ->].
  - destruct (iterations_of_real m Hm) as [-> Hn]. now intros [= <-].
  - unfold F.log2. simpl. destruct (Rltb _ _); discriminate.
Qed.

Lemma maximum_finite x y : finite x -> finite y -> finite (F.maximum x y).
Proof.
  intros [a ->] [b ->]. unfold F.maximum. destruct (F.le _ _); eexists; reflexivity.
Qed.

Lemma max_finite (m : ndarray float64) :
  all finite m -> Np.elements m <> [] -> exists w, Np.max m = Ok (Fin w).
Proof.
  unfold all, Np.max. destruct (Np.elements m) as [| x l]; [congruence |].
  intros H _. inversion H as [| ? ? Hx Hl]; subst. clear H.
  revert x Hx. induction l as [| y l IH]; intros x Hx; simpl.
  - destruct Hx as [r ->]. eauto.
  - inversion Hl; subst. apply IH; [assumption |]. now apply maximum_finite.
Qed.

(** With finite bracket widths and a positive tolerance the number of
    iterations is computed. *)
Lemma n_iterations_succeeds width t :
  all finite width -> Np.elements width <> [] -> 0 < t ->
  exists n, n_iterations width (Fin t) = Ok n.
Proof.
  intros Hf Hne Ht. unfold n_iterations.
  destruct (max_finite width Hf Hne) as [w ->]. cbn [bind].
  destruct (py_max_2 (F.div (Fin w) (Fin t))) as [(m & Hm & Hm2) | Hinf].
  - rewrite Hm. destruct (iterations_of_real m Hm2) as [-> _]. eauto.
  - exfalso. revert Hinf. unfold py_max, F.gt. simpl.
    rewrite Reqb_false by lra. simpl. destruct (Rltb _ _); discriminate.
Qed.

(** ** The loop *)

Lemma for_range_counting {S} (body : S -> result S) n : forall s c,
  for_range n (counting body) (s, c)
  = (s' <- for_range n body s ;; Ok (s', (c + n)%nat)).
Proof.
  induction n as [| n IH]; intros s c; simpl.
  - now rewrite Nat.add_0_r.
  - destruct (body s) as [s1 |]; simpl; [| reflexivity].
    rewrite IH. now rewrite Nat.add_succ_r.
Qed.

(** ** [beta_highest_density_interval], entry by entry *)

Lemma clip_unit v : exists r, F.clip (Fin v) (Fin 0) (Fin 1) = Fin r /\ 0 <= r <= 1.
Proof.
  unfold F.clip, F.maximum, F.minimum. simpl.
  destruct (Rleb_spec v 0); simpl.
  - rewrite Rleb_true by lra. exists 0. split; [reflexivity | lra].
  - destruct (Rleb_spec v 1); eexists; split; try reflexivity; lra.
Qed.

(** The clamp of the upper endpoint: whatever value the evaluator gave,
    the result lies between the lower endpoint and 1. *)
Lemma clamp_upper y x : 0 <= x <= 1 ->
  unit_interval (Fin x) (F.clip (Fin y) (Fin x) (Fin 1)).
Proof.
  intros Hx. unfold F.clip, F.maximum, F.minimum. simpl.
  destruct (Rleb_spec y x); simpl.
  - rewrite Rleb_true by lra. exists x, x. repeat split; lra.
  - destruct (Rleb_spec y 1).
    + exists x, y. repeat split; lra.
    + exists x, 1. repeat split; lra.
Qed.

Lemma midpoint_unit lo hi : in_unit lo -> in_unit hi -> in_unit (midpoint lo hi).
Proof.
  intros (l & -> & Hl) (h & -> & Hh). unfold midpoint. simpl.
  rewrite Reqb_false by lra. eexists. split; [reflexivity | lra].
Qed.

Lemma beta_mode_unit a b : 0 < a -> 0 < b -> 1 < a \/ 1 < b ->
  in_unit (beta_mode (Fin a) (Fin b)).
Proof.
  intros Ha Hb Hab. unfold beta_mode. simpl.
  destruct (Reqb_spec (a + b + - (2)) 0) as [H0 | Hne].
  - unfold F.signed_inf.
    destruct (Rltb_spec 0 (a + - (1))).
    + exists 1. split; [| lra]. unfold F.clip. simpl. reflexivity.
    + destruct (Rltb_spec (a + - (1)) 0); [| lra].
      exists 0. split; [| lra]. unfold F.clip. simpl.
      now rewrite Rleb_true by lra.
  - apply clip_unit.
Qed.

Section HdiEntries.

Variable beta : BetaEvaluator.
Hypothesis range : BetaRange beta.

Lemma hdi_upper_interval a b c x :
  positive a -> positive b -> in_unit c -> in_unit x ->
  unit_interval x (hdi_upper beta a b c x).
Proof.
  intros (ra & -> & Ha) (rb & -> & Hb) (rc & -> & Hc) (rx & -> & Hx).
  unfold hdi_upper.
  destruct (range_cdf beta range ra rb rx Ha Hb) as (p & -> & Hp).
  cbn [F.add].
  destruct (clip_unit (p + rc)) as (q & -> & Hq).
  destruct (range_ppf beta range ra rb q Ha Hb Hq) as (y & -> & Hy).
  now apply clamp_upper.
Qed.

Lemma hdi_init_lo_unit a b c :
  positive a -> positive b -> in_unit c -> in_unit (beta_mode a b) ->
  in_unit (hdi_init_lo beta a b c).
Proof.
  intros (ra & -> & Ha) (rb & -> & Hb) (rc & -> & Hc) (m & Hm & Hm1).
  unfold hdi_init_lo. rewrite Hm.
  destruct (range_cdf beta range ra rb m Ha Hb) as (p & -> & Hp).
  assert (Hq : exists q, F.maximum (F.sub (Fin p) (Fin rc)) (Fin 0) = Fin q
                         /\ 0 <= q <= 1).
  { unfold F.maximum. simpl.
    destruct (Rleb_spec (p + - rc) 0); eexists; split; try reflexivity; lra. }
  destruct Hq as (q & -> & Hq).
  exact (range_ppf beta range ra rb q Ha Hb Hq).
Qed.

Lemma hdi_init_hi_unit a b c :
  positive a -> positive b -> in_unit c -> in_unit (beta_mode a b) ->
  in_unit (hdi_init_hi beta a b c).
Proof.
  intros (ra & -> & Ha) (rb & -> & Hb) (rc & -> & Hc) (m & Hm & Hm1).
  unfold hdi_init_hi. rewrite Hm. cbn [F.sub F.opp F.add].
  destruct (range_ppf beta range ra rb (1 + - rc) Ha Hb ltac:(lra))
    as (y & -> & Hy).
  unfold F.minimum. simpl.
  destruct (Rleb_spec m y); eexists; split; try reflexivity; lra.
Qed.

End HdiEntries.

(** ** [beta_highest_density_interval] on arrays *)

Section HdiArrays.

Variable beta : BetaEvaluator.

Variables a b coverage : ndarray float64.
Variable env : ndarray entry.
Hypothesis Henv : Np.broadcast3 a b coverage = Ok env.

Lemma view_a : viewed a entry_a env.
Proof. now destruct (broadcast3_viewed _ _ _ _ Henv) as (_ & _ & _ & _ & H & _ & _). Qed.

Lemma view_b : viewed b entry_b env.
Proof. now destruct (broadcast3_viewed _ _ _ _ Henv) as (_ & _ & _ & _ & _ & H & _). Qed.

Lemma view_c : viewed coverage entry_c env.
Proof. now destruct (broadcast3_viewed _ _ _ _ Henv) as (_ & _ & _ & _ & _ & _ & H). Qed.

(** One iteration of the loop is one step of every entry. *)
Lemma hdi_body_env glo ghi s :
  x_lo s = Np.map glo env -> x_hi s = Np.map ghi env ->
  hdi_body beta a b coverage s =
  Ok {| x_lo := Np.map (fun e => hdi_next_lo beta (entry_a e) (entry_b e)
                                   (entry_c e) (glo e) (ghi e)) env;
        x_hi := Np.map (fun e => hdi_next_hi beta (entry_a e) (entry_b e)
                                   (entry_c e) (glo e) (ghi e)) env;
        hdi_x := Some (Np.map (fun e => midpoint (glo e) (ghi e)) env);
        hdi_y := Some (Np.map (fun e => hdi_upper beta (entry_a e) (entry_b e)
                                          (entry_c e)
                                          (midpoint (glo e) (ghi e))) env) |}.
Proof.
  intros Hlo Hhi. unfold hdi_body. rewrite Hlo, Hhi.
  pose proof view_a as Va. pose proof view_b as Vb. pose proof view_c as Vc.
  rewrite map2_full with (g2 := ghi) by apply viewed_refl. cbn [bind].
  rewrite map4_full with (g2 := entry_a) (g3 := entry_b) (g4 := entry_c)
    by assumption. cbn [bind].
  rewrite map2_full with (g2 := fun e => midpoint (glo e) (ghi e))
    by apply viewed_refl. cbn [bind].
  rewrite map3_full with (g2 := entry_a) (g3 := entry_b) by assumption.
  cbn [bind].
  rewrite map3_full with (g2 := entry_a) (g3 := entry_b) by assumption.
  cbn [bind].
  rewrite map4_full
    with (g2 := fun e => density_proxy
                          (hdi_upper beta (entry_a e) (entry_b e) (entry_c e)
                             (midpoint (glo e) (ghi e)))
                          (entry_a e) (entry_b e))
         (g3 := fun e => midpoint (glo e) (ghi e)) (g4 := glo)
    by apply viewed_refl.
  cbn [bind].
  rewrite map4_full
    with (g2 := fun e => density_proxy
                          (hdi_upper beta (entry_a e) (entry_b e) (entry_c e)
                             (midpoint (glo e) (ghi e)))
                          (entry_a e) (entry_b e))
         (g3 := fun e => midpoint (glo e) (ghi e)) (g4 := ghi)
    by apply viewed_refl.
  cbn [bind]. reflexivity.
Qed.

(** On arguments that broadcast to an empty array the setup raises:
    there is no widest bracket. *)
Lemma hdi_setup_empty atol n s0 :
  Np.elements env = [] -> hdi_setup beta a b coverage atol <> Ok (n, s0).
Proof.
  intros Hempty H. unfold hdi_setup in H.
  destruct (Np.any (Np.map _ a)); [discriminate |].
  destruct (Np.any (Np.map _ b)); [discriminate |].
  destruct (Np.any (Np.map _ coverage)); [discriminate |].
  cbn [raise_if bind] in H.
  destruct (broadcast3_viewed _ _ _ _ Henv) as (ab & Hab & _ & Vab & _).
  rewrite !(map2_ok _ _ _ _ Hab) in H. cbn [bind] in H.
  destruct (Np.any _); [discriminate |]. cbn [raise_if bind] in H.
  assert (Vmode : viewed (Np.map (fun '(a0, b0) => beta_mode a0 b0) ab)
                    (fun e => beta_mode (entry_a e) (entry_b e)) env).
  { eapply viewed_ext; [| exact (viewed_map _ _ _ _ Vab)].
    now intros [[a0 b0] c0]. }
  rewrite !(map4_env _ _ _ _ _ _ _ Henv Vmode) in H. cbn [bind] in H.
  erewrite map2_full in H by apply viewed_refl. cbn [bind] in H.
  unfold n_iterations, Np.max in H.
  rewrite elements_map in H. unfold entry in Hempty.
  rewrite Hempty in H. discriminate.
Qed.

End HdiArrays.

Lemma viewed_all_inv {E A} (P : A -> Prop) (y : ndarray A) (g : E -> A) env :
  viewed y g env -> Np.elements env <> [] ->
  (forall e, In e (Np.elements env) -> P (g e)) -> all P y.
Proof.
  unfold all. intros [-> | (v & Hg & Hy)] Hne H.
  - rewrite elements_map. apply Forall_map, Forall_forall. exact H.
  - assert (Hv : P v).
    { destruct (Np.elements env) as [| e l] eqn:Hel; [congruence |].
      rewrite <- (Hg e) by (now left). apply H. now left. }
    destruct Hy as [-> | [-> _]]; repeat constructor; assumption.
Qed.

Lemma elements_map_nonempty {A B} (f : A -> B) (m : ndarray A) :
  Np.elements m <> [] -> Np.elements (Np.map f m) <> [].
Proof.
  rewrite elements_map. destruct (Np.elements m); [congruence | discriminate].
Qed.

Section HdiSetup.

Variable beta : BetaEvaluator.
Hypothesis range : BetaRange beta.

Variables a b coverage : ndarray float64.
Variable env : ndarray entry.
Hypothesis Henv : Np.broadcast3 a b coverage = Ok env.
Hypothesis Hne : Np.elements env <> [].
Hypothesis Hvalid : forall e, In e (Np.elements env) -> hdi_entry_valid e.

Lemma entry_facts e : In e (Np.elements env) ->
  positive (entry_a e) /\ positive (entry_b e) /\ in_unit (entry_c e) /\
  in_unit (beta_mode (entry_a e) (entry_b e)) /\
  (F.le (entry_a e) (Fin 1) && F.le (entry_b e) (Fin 1)) = false.
Proof.
  intros He. destruct (Hvalid e He) as (ra & rb & rc & -> & Ha & Hb & Hc & Hab).
  unfold entry_a, entry_b, entry_c. simpl.
  repeat split.
  - now exists ra.
  - now exists rb.
  - now exists rc.
  - now apply beta_mode_unit.
  - destruct Hab; [rewrite (Rleb_false ra) by lra | rewrite (Rleb_false rb) by lra];
      [reflexivity | apply andb_false_r].
Qed.

Lemma hdi_setup_env t : 0 < t ->
  exists n,
    (1 <= n)%nat /\
    hdi_setup beta a b coverage (Fin t) =
    Ok (n,
        {| x_lo := Np.map (fun e => hdi_init_lo beta (entry_a e) (entry_b e)
                                      (entry_c e)) env;
           x_hi := Np.map (fun e => hdi_init_hi beta (entry_a e) (entry_b e)
                                      (entry_c e)) env;
           hdi_x := None;
           hdi_y := None |}).
Proof.
  intros Ht.
  pose proof (view_a a b coverage env Henv) as Va.
  pose proof (view_b a b coverage env Henv) as Vb.
  pose proof (view_c a b coverage env Henv) as Vc.
  destruct (broadcast3_viewed _ _ _ _ Henv) as (ab & Hab & _ & Vab & _).
  unfold hdi_setup.
  rewrite any_false_positive
    by (apply (viewed_all_inv _ _ _ _ Va Hne); intros; now apply entry_facts).
  rewrite any_false_positive
    by (apply (viewed_all_inv _ _ _ _ Vb Hne); intros; now apply entry_facts).
  rewrite any_false_unit
    by (apply (viewed_all_inv _ _ _ _ Vc Hne); intros; now apply entry_facts).
  cbn [raise_if bind].
  rewrite !(map2_ok _ _ _ _ Hab). cbn [bind].
  replace (Np.any _) with false.
  2:{ symmetry. apply any_map_false.
      apply (viewed_all_inv _ _ _ _ Vab Hne).
      intros [[a0 b0] c0] He. apply (entry_facts _ He). }
  cbn [raise_if bind].
  assert (Vmode : viewed (Np.map (fun '(a0, b0) => beta_mode a0 b0) ab)
                    (fun e => beta_mode (entry_a e) (entry_b e)) env).
  { eapply viewed_ext; [| exact (viewed_map _ _ _ _ Vab)].
    now intros [[a0 b0] c0]. }
  rewrite !(map4_env _ _ _ _ _ _ _ Henv Vmode). cbn [bind].
  erewrite map2_full by apply viewed_refl.
  cbn [bind].
  match goal with
  | |- context [n_iterations ?w _] =>
      destruct (n_iterations_succeeds w t) as [n Hn]
  end; try assumption.
  - unfold all. rewrite elements_map. apply Forall_map, Forall_forall.
    intros e He. destruct (entry_facts e He) as (Pa & Pb & Pc & Pm & _).
    change (finite (F.sub (hdi_init_hi beta (entry_a e) (entry_b e) (entry_c e))
                          (hdi_init_lo beta (entry_a e) (entry_b e) (entry_c e)))).
    destruct (hdi_init_lo_unit beta range _ _ _ Pa Pb Pc Pm) as (l & -> & _).
    destruct (hdi_init_hi_unit beta range _ _ _ Pa Pb Pc Pm) as (h & -> & _).
    eexists. reflexivity.
  - now apply elements_map_nonempty.
  - rewrite Hn. cbn [bind]. exists (Z.to_nat n). split; [| reflexivity].
    apply n_iterations_ge_1 in Hn. lia.
Qed.

Lemma hdi_body_invariant s : bracket_in_unit env s ->
  exists s', hdi_body beta a b coverage s = Ok s' /\
             bracket_in_unit env s' /\ endpoints_ordered env s'.
Proof.
  intros (glo & ghi & Hlo & Hhi & Hunit).
  rewrite (hdi_body_env beta a b coverage env Henv glo ghi s Hlo Hhi).
  eexists. split; [reflexivity |].
  assert (Hmid : forall e, In e (Np.elements env) ->
                   in_unit (midpoint (glo e) (ghi e))).
  { intros e He. destruct (Hunit e He). now apply midpoint_unit. }
  split.
  - do 2 eexists. cbn [x_lo x_hi]. repeat split; try reflexivity.
    + unfold hdi_next_lo. cbv zeta. destruct (F.le _ _); [auto | now apply Hunit].
    + unfold hdi_next_hi. cbv zeta. destruct (F.ge _ _); [auto | now apply Hunit].
  - do 2 eexists. cbn [hdi_x hdi_y]. repeat split; try reflexivity.
    intros e He. destruct (entry_facts e He) as (Pa & Pb & Pc & _).
    apply hdi_upper_interval; auto.
Qed.

Lemma hdi_loop_invariant n : forall s, bracket_in_unit env s ->
  exists s', for_range n (hdi_body beta a b coverage) s = Ok s' /\
             bracket_in_unit env s' /\ ((1 <= n)%nat -> endpoints_ordered env s').
Proof.
  induction n as [| n IH]; intros s Hs; simpl.
  - exists s. split; [reflexivity | split; [assumption | lia]].
  - destruct (hdi_body_invariant s Hs) as (s1 & -> & Hs1 & Hord1). cbn [bind].
    destruct n as [| n].
    + simpl. exists s1. split; [reflexivity | split; [assumption | auto]].
    + destruct (IH s1 Hs1) as (s' & Hrun & Hs' & Hord').
      exists s'. split; [assumption | split; [assumption |]].
      intros _. apply Hord'. lia.
Qed.

(** On a valid, non-empty input the call returns, and its endpoints are
    the ordered ones of every entry. *)
Lemma beta_highest_density_interval_valid t : 0 < t ->
  exists lo hi,
    beta_highest_density_interval beta a b coverage (Fin t) = Ok (lo, hi) /\
    unit_intervals lo hi.
Proof.
  intros Ht. unfold beta_highest_density_interval.
  destruct (hdi_setup_env t Ht) as (n & Hn & ->). cbn [bind].
  match goal with
  | |- context [for_range n _ ?s0] =>
      assert (H0 : bracket_in_unit env s0)
  end.
  { do 2 eexists. cbn [x_lo x_hi]. split; [reflexivity | split; [reflexivity |]].
    intros e He. destruct (entry_facts e He) as (Pa & Pb & Pc & Pm & _).
    split; [now apply hdi_init_lo_unit | now apply hdi_init_hi_unit]. }
  destruct (hdi_loop_invariant n _ H0) as (s' & -> & _ & Hord).
  cbn [bind].
  destruct (Hord Hn) as (gx & gy & -> & -> & Hxy). cbn [bind read_local].
  do 2 eexists. split; [reflexivity |]. now apply unit_intervals_map.
Qed.

End HdiSetup.

(** Whatever a call on valid entries returns is an array of ordered
    endpoints; on an empty broadcast it returns nothing. *)
Lemma beta_highest_density_interval_ordered beta a b coverage env t lo hi :
  BetaRange beta ->
  Np.broadcast3 a b coverage = Ok env ->
  (forall e, In e (Np.elements env) -> hdi_entry_valid e) ->
  0 < t ->
  beta_highest_density_interval beta a b coverage (Fin t) = Ok (lo, hi) ->
  unit_intervals lo hi.
Proof.
  intros range Henv Hvalid Ht H.
  assert (Hcase : Np.elements env = [] \/ Np.elements env <> [])
    by (destruct (Np.elements env); [now left | right; discriminate]).
  destruct Hcase as [Hempty | Hne].
  - exfalso. unfold beta_highest_density_interval in H.
    destruct (hdi_setup beta a b coverage (Fin t)) as [[n s0] |] eqn:Hs;
      [| discriminate].
    now apply (hdi_setup_empty beta a b coverage env Henv (Fin t) n s0).
  - destruct (beta_highest_density_interval_valid beta range a b coverage env
                Henv Hne Hvalid t Ht) as (lo' & hi' & E & Hord).
    rewrite E in H. now injection H as <- <-.
Qed.

(** ** Interval results *)

Lemma beta_equal_tailed_interval_ordered beta a b coverage env :
  BetaContract beta ->
  all positive a -> all positive b -> all in_unit coverage ->
  Np.broadcast3 a b coverage = Ok env ->
  exists lo hi,
    beta_equal_tailed_interval beta a b coverage = Ok (lo, hi) /\
    unit_intervals lo hi.
Proof.
  intros contract Ha Hb Hc Henv.
  rewrite (beta_equal_tailed_interval_valid beta a b coverage env Ha Hb Hc Henv).
  do 2 eexists. split; [reflexivity |].
  apply unit_intervals_map. intros [[a0 b0] c0] Hin.
  destruct (broadcast3_viewed _ _ _ _ Henv) as (_ & _ & _ & _ & Hva & Hvb & Hvc).
  destruct (viewed_all _ _ _ _ Hva Ha _ Hin) as (ra & Ea & Hra).
  destruct (viewed_all _ _ _ _ Hvb Hb _ Hin) as (rb & Eb & Hrb).
  destruct (viewed_all _ _ _ _ Hvc Hc _ Hin) as (rc & Ec & Hrc).
  simpl in Ea, Eb, Ec. subst a0 b0 c0.
  rewrite <- half_minus, <- half_plus.
  destruct (ppf_real beta contract ra rb ((1 - rc) / 2) Hra Hrb ltac:(lra))
    as [-> Hlo].
  destruct (ppf_real beta contract ra rb ((1 + rc) / 2) Hra Hrb ltac:(lra))
    as [-> Hhi].
  pose proof (ppfR_monotone beta contract ra rb ((1 - rc) / 2) ((1 + rc) / 2)
                Hra Hrb ltac:(lra) ltac:(lra) ltac:(lra)).
  do 2 eexists. repeat split; try reflexivity; lra.
Qed.

Lemma binomial_confidence_interval_ordered beta ks ns conf kn env :
  BetaContract beta ->
  all (fun k => (0 <= k)%Z) ks -> all (fun n => (1 <= n)%Z) ns ->
  all in_unit conf ->
  Np.broadcast2 ks ns = Ok kn -> all (fun '(k, n) => (k <= n)%Z) kn ->
  Np.broadcast2 kn conf = Ok env ->
  exists lo hi,
    binomial_confidence_interval beta ks ns conf = Ok (lo, hi) /\
    unit_intervals lo hi.
Proof.
  intros contract Hk Hn Hc Hkn Hle Henv.
  rewrite (binomial_confidence_interval_valid beta ks ns conf kn env)
    by assumption.
  do 2 eexists. split; [reflexivity |].
  apply unit_intervals_map. intros [[k n] c] Hin.
  destruct (broadcast2_viewed _ _ _ Hkn) as [Vk Vn].
  destruct (broadcast2_viewed _ _ _ Henv) as [Vkn Vc].
  pose proof (viewed_all _ _ _ _ (viewed_trans _ _ _ _ _ Vk Vkn) Hk _ Hin) as Hk0.
  pose proof (viewed_all _ _ _ _ (viewed_trans _ _ _ _ _ Vn Vkn) Hn _ Hin) as Hn0.
  pose proof (viewed_all _ _ _ _ Vkn Hle _ Hin) as Hle0.
  destruct (viewed_all _ _ _ _ Vc Hc _ Hin) as (rc & Ec & Hrc).
  simpl in Hk0, Hn0, Hle0, Ec. subst c.
  apply clopper_pearson_ordered; (assumption || lia).
Qed.

(** C2: on a valid input each of [beta_equal_tailed_interval],
    [beta_highest_density_interval] and [binomial_confidence_interval]
    returns two arrays of one shape with, elementwise,
    [0 <= lo <= hi <= 1].  For [beta_highest_density_interval] this needs
    only that the evaluator's values lie in [[0, 1]], not that they are
    accurate: every iteration of the search clamps the upper endpoint
    between the lower endpoint and 1.  (On arguments that broadcast to an
    empty array [beta_highest_density_interval] returns nothing, the other
    two return empty arrays.) *)
Theorem interval_results_ordered :
  forall beta : BetaEvaluator,
    (BetaContract beta ->
     forall a b coverage env,
       all positive a -> all positive b -> all in_unit coverage ->
       Np.broadcast3 a b coverage = Ok env ->
       exists lo hi,
         beta_equal_tailed_interval beta a b coverage = Ok (lo, hi) /\
         unit_intervals lo hi) /\
    (BetaRange beta ->
     forall a b coverage env t,
       Np.broadcast3 a b coverage = Ok env ->
       Np.elements env <> [] ->
       (forall e, In e (Np.elements env) -> hdi_entry_valid e) ->
       0 < t ->
       (forall s, bracket_in_unit env s ->
          exists s', hdi_body beta a b coverage s = Ok s' /\
                     bracket_in_unit env s' /\ endpoints_ordered env s') /\
       exists lo hi,
         beta_highest_density_interval beta a b coverage (Fin t) = Ok (lo, hi) /\
         unit_intervals lo hi) /\
    (BetaRange beta ->
     forall a b coverage env t lo hi,
       Np.broadcast3 a b coverage = Ok env ->
       (forall e, In e (Np.elements env) -> hdi_entry_valid e) ->
       0 < t ->
       beta_highest_density_interval beta a b coverage (Fin t) = Ok (lo, hi) ->
       unit_intervals lo hi) /\
    (BetaContract beta ->
     forall ks ns conf kn env,
       all (fun k => (0 <= k)%Z) ks -> all (fun n => (1 <= n)%Z) ns ->
       all in_unit conf ->
       Np.broadcast2 ks ns = Ok kn -> all (fun '(k, n) => (k <= n)%Z) kn ->
       Np.broadcast2 kn conf = Ok env ->
       exists lo hi,
         binomial_confidence_interval beta ks ns conf = Ok (lo, hi) /\
         unit_intervals lo hi).
Proof.
  intros beta. split; [| split; [| split]].
  - intros contract a b coverage env. now apply beta_equal_tailed_interval_ordered.
  - intros range a b coverage env t Henv Hne Hvalid Ht. split.
    + now apply hdi_body_invariant.
    + now apply beta_highest_density_interval_valid with (env := env).
  - intros range a b coverage env t lo hi.
    now apply beta_highest_density_interval_ordered.
  - intros contract ks ns conf kn env.
    now apply binomial_confidence_interval_ordered.
Qed.

(** ** [beta_highest_density_coverage] on arrays *)

Lemma combine_map_l {A A' B} (g : A -> A') (la : list A) (lb : list B) :
  combine (List.map g la) lb
  = List.map (fun e => (g (fst e), snd e)) (combine la lb).
Proof.
  revert lb. induction la as [| a la IH]; intros [| b lb]; simpl;
    try reflexivity. now rewrite IH.
Qed.

(** Broadcasting commutes with an elementwise operation on the left
    operand. *)
Lemma broadcast2_map_l {A A' B} (g : A -> A') (u : ndarray A) (x : ndarray B) :
  Np.broadcast2 (Np.map g u) x
  = (r <- Np.broadcast2 u x ;; Ok (Np.map (fun e => (g (fst e), snd e)) r)).
Proof.
  destruct u as [a | la], x as [b | lb]; simpl.
  - reflexivity.
  - now rewrite List.map_map.
  - now rewrite !List.map_map.
  - rewrite length_map. destruct (Nat.eqb (length la) (length lb)); simpl.
    + now rewrite combine_map_l.
    + destruct la as [| a [| a' la]]; simpl.
      * destruct lb as [| b [| b' lb]]; reflexivity.
      * now rewrite List.map_map.
      * destruct lb as [| b [| b' lb]]; simpl; try reflexivity.
        now rewrite !List.map_map.
Qed.

Lemma beta_mode_range a b :
  in_unit (beta_mode a b) \/ beta_mode a b = NaN.
Proof.
  unfold beta_mode.
  destruct (F.div (F.sub a (Fin 1)) (F.sub (F.add a b) (Fin 2))) as [v | | |].
  - left. apply clip_unit.
  - left. exists 1. split; [reflexivity | lra].
  - left. exists 0. split; [| lra]. unfold F.clip. simpl.
    now rewrite Rleb_true by lra.
  - now right.
Qed.

Lemma maximum_not_pinf x y : x <> PInf -> y <> PInf -> F.maximum x y <> PInf.
Proof.
  intros Hx Hy. unfold F.maximum.
  destruct x, y; try congruence; destruct (F.le _ _); congruence.
Qed.

Lemma max_not_pinf (m : ndarray float64) :
  all (fun x => x <> PInf) m -> Np.elements m <> [] ->
  exists w, Np.max m = Ok w /\ w <> PInf.
Proof.
  unfold all, Np.max. destruct (Np.elements m) as [| x l]; [congruence |].
  intros H _. inversion H as [| ? ? Hx Hl]; subst. clear H.
  revert x Hx. induction l as [| y l IH]; intros x Hx; simpl.
  - eauto.
  - inversion Hl; subst. apply IH; [assumption |]. now apply maximum_not_pinf.
Qed.

(** With no infinite bracket width and a positive tolerance the number
    of iterations is computed. *)
Lemma n_iterations_bounded width t :
  all (fun x => x <> PInf) width -> Np.elements width <> [] -> 0 < t ->
  exists n, n_iterations width (Fin t) = Ok n.
Proof.
  intros Hf Hne Ht. unfold n_iterations.
  destruct (max_not_pinf width Hf Hne) as (w & -> & Hw). cbn [bind].
  destruct (py_max_2 (F.div w (Fin t))) as [(m & Hm & Hm2) | Hinf].
  - rewrite Hm. destruct (iterations_of_real m Hm2) as [-> _]. eauto.
  - exfalso. revert Hinf. unfold py_max, F.gt.
    destruct w as [r | | |]; simpl; try congruence.
    + rewrite Reqb_false by lra. simpl. destruct (Rltb _ _); discriminate.
    + rewrite Rltb_false by lra. simpl. discriminate.
Qed.

Section HdcArrays.

Variable beta : BetaEvaluator.

Variables a b x : ndarray float64.
Variable env : ndarray entry.
Hypothesis Henv : Np.broadcast3 a b x = Ok env.

Lemma hdc_body_env glo ghi s :
  y_lo s = Np.map glo env -> y_hi s = Np.map ghi env ->
  hdc_body a b
    (Np.map hdc_lower env)
    (Np.map (fun e => density_proxy (entry_c e) (entry_a e) (entry_b e)) env)
    s =
  Ok {| y_lo := Np.map (fun e => let y := midpoint (glo e) (ghi e) in
                                 if hdc_y_is_lo e y then y else glo e) env;
        y_hi := Np.map (fun e => let y := midpoint (glo e) (ghi e) in
                                 if negb (hdc_y_is_lo e y) then y else ghi e) env;
        hdc_y := Some (Np.map (fun e => midpoint (glo e) (ghi e)) env) |}.
Proof.
  intros Hlo Hhi. unfold hdc_body. rewrite Hlo, Hhi.
  pose proof (view_a a b x env Henv) as Va.
  pose proof (view_b a b x env Henv) as Vb.
  rewrite map2_full with (g2 := ghi) by apply viewed_refl. cbn [bind].
  rewrite map3_full with (g2 := entry_a) (g3 := entry_b) by assumption.
  cbn [bind].
  rewrite map3_full
    with (g2 := fun e => density_proxy (entry_c e) (entry_a e) (entry_b e))
         (g3 := fun e => density_proxy (midpoint (glo e) (ghi e))
                           (entry_a e) (entry_b e))
    by apply viewed_refl.
  cbn [bind].
  rewrite map3_full
    with (g2 := fun e => midpoint (glo e) (ghi e)) (g3 := glo)
    by apply viewed_refl.
  cbn [bind].
  rewrite map3_full
    with (g2 := fun e => midpoint (glo e) (ghi e)) (g3 := ghi)
    by apply viewed_refl.
  cbn [bind]. reflexivity.
Qed.

Lemma hdc_loop_env n : forall s, hdc_entrywise env s ->
  exists s',
    for_range n
      (hdc_body a b
         (Np.map hdc_lower env)
         (Np.map (fun e => density_proxy (entry_c e) (entry_a e) (entry_b e))
            env))
      s = Ok s' /\
    hdc_entrywise env s' /\ ((1 <= n)%nat -> hdc_assigned env s').
Proof.
  induction n as [| n IH]; intros s Hs; simpl.
  - exists s. split; [reflexivity | split; [assumption | lia]].
  - destruct Hs as (glo & ghi & Hlo & Hhi).
    rewrite (hdc_body_env glo ghi s Hlo Hhi). cbn [bind].
    match goal with
    | |- context [for_range n _ ?s1] =>
        destruct (IH s1) as (s' & Hrun & Hs' & Hy)
    end.
    { do 2 eexists. cbn [y_lo y_hi]. split; reflexivity. }
    exists s'. split; [assumption | split; [assumption |]].
    intros _. destruct n as [| n].
    + simpl in Hrun. injection Hrun as <-. eexists. reflexivity.
    + apply Hy. lia.
Qed.

Hypothesis Hne : Np.elements env <> [].
Hypothesis Hmode : forall e, In e (Np.elements env) ->
                     no_mode (entry_a e) (entry_b e) = false.

Lemma hdc_setup_env t : 0 < t ->
  exists n s0,
    (1 <= n)%nat /\ hdc_entrywise env s0 /\
    hdc_setup a b x (Fin t) =
    Ok (n, s0, Np.map hdc_lower env,
        Np.map (fun e => density_proxy (entry_c e) (entry_a e) (entry_b e)) env).
Proof.
  intros Ht.
  destruct (broadcast3_viewed _ _ _ _ Henv) as (ab & Hab & Habx & Vab & _).
  unfold hdc_setup.
  rewrite !(map2_ok _ _ _ _ Hab). cbn [bind].
  replace (Np.any _) with false.
  2:{ symmetry. apply any_map_false.
      apply (viewed_all_inv _ _ _ _ Vab Hne).
      intros [[a0 b0] c0] He. apply (Hmode _ He). }
  cbn [raise_if bind].
  assert (Vmode : viewed (Np.map (fun '(a0, b0) => beta_mode a0 b0) ab)
                    (fun e => beta_mode (entry_a e) (entry_b e)) env).
  { eapply viewed_ext; [| exact (viewed_map _ _ _ _ Vab)].
    now intros [[a0 b0] c0]. }
  unfold Np.map2 at 1. rewrite broadcast2_map_l, Habx. cbn [bind].
  rewrite !map_map_nd.
  rewrite (map_ext_nd _ hdc_lower env) by (now intros [[a0 b0] c0] _).
  rewrite (map3_env _ _ _ _ _ Henv). cbn [bind].
  rewrite (map_ext_nd _ (fun e => density_proxy (entry_c e) (entry_a e)
                                    (entry_b e)) env)
    by (now intros [[a0 b0] c0] _).
  rewrite map2_full with (g2 := fun e => beta_mode (entry_a e) (entry_b e))
    by assumption.
  cbn [bind].
  rewrite map2_full with (g2 := fun e => beta_mode (entry_a e) (entry_b e))
    by assumption.
  cbn [bind].
  erewrite map2_full by apply viewed_refl. cbn [bind].
  match goal with
  | |- context [n_iterations ?w _] =>
      destruct (n_iterations_bounded w t) as [n Hn]
  end; try assumption.
  - unfold all. rewrite elements_map. apply Forall_map, Forall_forall.
    intros e _. cbv beta.
    destruct (beta_mode_range (entry_a e) (entry_b e)) as [(m & -> & Hm) | ->];
      destruct (hdc_lower e); simpl; discriminate.
  - now apply elements_map_nonempty.
  - rewrite Hn. cbn [bind]. do 2 eexists.
    split; [| split; [| reflexivity]].
    + apply n_iterations_ge_1 in Hn. lia.
    + do 2 eexists. cbn [y_lo y_hi]. split; reflexivity.
Qed.

(** The call returns whenever the broadcast arguments are not empty and
    every pair of shape parameters has a mode. *)
Lemma beta_highest_density_coverage_succeeds t : 0 < t ->
  succeeds (beta_highest_density_coverage beta a b x (Fin t)).
Proof.
  intros Ht. unfold beta_highest_density_coverage, succeeds.
  destruct (hdc_setup_env t Ht) as (n & s0 & Hn & Hs0 & ->). cbn [bind].
  destruct (hdc_loop_env n s0 Hs0) as (s' & -> & _ & Hy). cbn [bind].
  destruct (Hy Hn) as (gy & ->). cbn [bind read_local].
  pose proof (view_a a b x env Henv) as Va.
  pose proof (view_b a b x env Henv) as Vb.
  pose proof (view_c a b x env Henv) as Vc.
  rewrite map3_full with (g2 := entry_c) (g3 := gy)
    by (assumption || apply viewed_refl).
  cbn [bind].
  rewrite map3_full with (g2 := gy) (g3 := entry_c)
    by (assumption || apply viewed_refl).
  cbn [bind].
  erewrite map4_full; try eassumption; try apply viewed_refl.
  eexists. reflexivity.
Qed.

End HdcArrays.

(** ** Validation of the highest density functions *)

Lemma any_no_mode_true (ab : ndarray (float64 * float64)) :
  (exists a0 b0, In (a0, b0) (Np.elements ab) /\ no_mode a0 b0 = true) ->
  Np.any (Np.map (fun '(a, b) => F.le a (Fin 1) && F.le b (Fin 1)) ab) = true.
Proof.
  intros (a0 & b0 & Hin & Hno). apply any_map_true. now exists (a0, b0).
Qed.

Lemma hdi_setup_no_mode beta a b coverage atol ab :
  Np.broadcast2 a b = Ok ab ->
  (exists a0 b0, In (a0, b0) (Np.elements ab) /\ no_mode a0 b0 = true) ->
  hdi_setup beta a b coverage atol = Raise ValueError.
Proof.
  intros Hab Hno. unfold hdi_setup.
  destruct (Np.any (Np.map _ a)); [reflexivity |].
  destruct (Np.any (Np.map _ b)); [reflexivity |].
  destruct (Np.any (Np.map _ coverage)); [reflexivity |].
  cbn [raise_if bind]. rewrite (map2_ok _ _ _ _ Hab). cbn [bind].
  now rewrite any_no_mode_true.
Qed.

Lemma hdc_setup_no_mode a b x atol ab :
  Np.broadcast2 a b = Ok ab ->
  (exists a0 b0, In (a0, b0) (Np.elements ab) /\ no_mode a0 b0 = true) ->
  hdc_setup a b x atol = Raise ValueError.
Proof.
  intros Hab Hno. unfold hdc_setup.
  rewrite (map2_ok _ _ _ _ Hab). cbn [bind].
  now rewrite any_no_mode_true.
Qed.

(** The argument checks shared by the two interval functions. *)
Lemma invalid_argument_cases (a b coverage : ndarray float64) :
  (exists a0, In a0 (Np.elements a) /\ F.le a0 (Fin 0) = true) \/
  (exists b0, In b0 (Np.elements b) /\ F.le b0 (Fin 0) = true) \/
  (exists c, In c (Np.elements coverage) /\
             (F.lt c (Fin 0) || F.gt c (Fin 1)) = true) ->
  Np.any (Np.map (fun a => F.le a (Fin 0)) a) = true \/
  Np.any (Np.map (fun b => F.le b (Fin 0)) b) = true \/
  Np.any (Np.map (fun c => F.lt c (Fin 0) || F.gt c (Fin 1)) coverage) = true.
Proof.
  intros [H | [H | H]]; [left | right; left | right; right];
    now apply any_map_true.
Qed.

Lemma hdi_setup_invalid beta a b coverage atol :
  (exists a0, In a0 (Np.elements a) /\ F.le a0 (Fin 0) = true) \/
  (exists b0, In b0 (Np.elements b) /\ F.le b0 (Fin 0) = true) \/
  (exists c, In c (Np.elements coverage) /\
             (F.lt c (Fin 0) || F.gt c (Fin 1)) = true) ->
  hdi_setup beta a b coverage atol = Raise ValueError.
Proof.
  intros H. apply invalid_argument_cases in H. unfold hdi_setup.
  destruct (Np.any (Np.map _ a)); [reflexivity |].
  destruct (Np.any (Np.map _ b)); [reflexivity |].
  destruct (Np.any (Np.map _ coverage)); [reflexivity |].
  destruct H as [H | [H | H]]; discriminate.
Qed.

Lemma beta_equal_tailed_interval_invalid beta a b coverage :
  (exists a0, In a0 (Np.elements a) /\ F.le a0 (Fin 0) = true) \/
  (exists b0, In b0 (Np.elements b) /\ F.le b0 (Fin 0) = true) \/
  (exists c, In c (Np.elements coverage) /\
             (F.lt c (Fin 0) || F.gt c (Fin 1)) = true) ->
  beta_equal_tailed_interval beta a b coverage = Raise ValueError.
Proof.
  intros H. apply invalid_argument_cases in H. unfold beta_equal_tailed_interval.
  destruct (Np.any (Np.map _ a)); [reflexivity |].
  destruct (Np.any (Np.map _ b)); [reflexivity |].
  destruct (Np.any (Np.map _ coverage)); [reflexivity |].
  destruct H as [H | [H | H]]; discriminate.
Qed.

Lemma hdi_raise_of_setup beta a b coverage atol e :
  hdi_setup beta a b coverage atol = Raise e ->
  beta_highest_density_interval beta a b coverage atol = Raise e.
Proof. intros H. unfold beta_highest_density_interval. now rewrite H. Qed.

Lemma hdc_raise_of_setup beta a b x atol e :
  hdc_setup a b x atol = Raise e ->
  beta_highest_density_coverage beta a b x atol = Raise e.
Proof. intros H. unfold beta_highest_density_coverage. now rewrite H. Qed.

Lemma default_atol_pos : default_atol = Fin (/ 10 ^ 10) /\ 0 < / 10 ^ 10.
Proof.
  split; [reflexivity |]. apply Rinv_0_lt_compat, pow_lt. lra.
Qed.

(** The validation of the highest density functions on arrays that are
    not empty: [beta_highest_density_interval] and
    [beta_highest_density_coverage] raise a validation error whenever some
    pair of the broadcast shape parameters has [a <= 1] and [b <= 1];
    [beta_highest_density_interval] also raises when some [a <= 0], some
    [b <= 0] or some coverage lies outside [[0, 1]]; when no element
    violates a condition and there is an element, both calls return. *)
Theorem highest_density_validation :
  forall (beta : BetaEvaluator) (a b : ndarray float64),
    (forall ab,
        Np.broadcast2 a b = Ok ab ->
        (exists a0 b0, In (a0, b0) (Np.elements ab) /\ no_mode a0 b0 = true) ->
        (forall coverage atol,
            beta_highest_density_interval beta a b coverage atol
            = Raise ValueError) /\
        (forall x atol,
            beta_highest_density_coverage beta a b x atol = Raise ValueError)) /\
    (forall coverage atol,
        (exists a0, In a0 (Np.elements a) /\ F.le a0 (Fin 0) = true) \/
        (exists b0, In b0 (Np.elements b) /\ F.le b0 (Fin 0) = true) \/
        (exists c, In c (Np.elements coverage) /\
                   (F.lt c (Fin 0) || F.gt c (Fin 1)) = true) ->
        beta_highest_density_interval beta a b coverage atol
        = Raise ValueError) /\
    (BetaRange beta ->
     forall coverage env,
       Np.broadcast3 a b coverage = Ok env ->
       Np.elements env <> [] ->
       (forall e, In e (Np.elements env) -> hdi_entry_valid e) ->
       succeeds (beta_highest_density_interval beta a b coverage default_atol)) /\
    (forall x env,
        Np.broadcast3 a b x = Ok env ->
        Np.elements env <> [] ->
        (forall e, In e (Np.elements env) ->
                   no_mode (entry_a e) (entry_b e) = false) ->
        succeeds (beta_highest_density_coverage beta a b x default_atol)).
Proof.
  intros beta a b. destruct default_atol_pos as [-> Hpos].
  split; [| split; [| split]].
  - intros ab Hab Hno. split.
    + intros coverage atol.
      apply hdi_raise_of_setup, (hdi_setup_no_mode _ _ _ _ _ ab); assumption.
    + intros x atol.
      apply hdc_raise_of_setup, (hdc_setup_no_mode _ _ _ _ ab); assumption.
  - intros coverage atol H. now apply hdi_raise_of_setup, hdi_setup_invalid.
  - intros range coverage env Henv Hne Hvalid.
    destruct (beta_highest_density_interval_valid beta range a b coverage env
                Henv Hne Hvalid _ Hpos) as (lo & hi & H & _).
    now exists (lo, hi).
  - intros x env Henv Hne Hmode.
    now apply (beta_highest_density_coverage_succeeds beta a b x env).
Qed.

(** C6: the claim does not hold of the code on empty arrays.  No element
    of an empty broadcast violates a condition, so by the claim both calls
    succeed, as the equal-tailed functions do, which return empty arrays;
    [beta_highest_density_interval] and [beta_highest_density_coverage]
    raise ValueError instead, whatever the evaluator and the tolerance:
    the number of iterations takes [np.max] of the bracket widths, which
    has no value on an empty array. *)
Theorem highest_density_empty_input :
  forall (beta : BetaEvaluator) (atol : float64),
    Np.broadcast3 (Vector (@nil float64)) (Vector (@nil float64))
      (Vector (@nil float64)) = Ok (Vector []) /\
    beta_highest_density_interval beta
      (Vector []) (Vector []) (Vector []) atol = Raise ValueError /\
    beta_highest_density_coverage beta
      (Vector []) (Vector []) (Vector []) atol = Raise ValueError /\
    beta_equal_tailed_interval beta (Vector []) (Vector []) (Vector [])
    = Ok (Vector [], Vector []) /\
    beta_equal_tailed_coverage beta (Vector []) (Vector []) (Vector [])
    = Ok (Vector []).
Proof. intros beta atol. repeat split; reflexivity. Qed.

(** ** Which functions validate the shape parameters *)

Lemma beta_equal_tailed_coverage_env beta a b x env :
  Np.broadcast3 a b x = Ok env ->
  beta_equal_tailed_coverage beta a b x =
  Ok (Np.map
        (fun '(a0, b0, x0) =>
           F.mul (Fin 2) (F.abs (F.sub (Fin (1 / 2)) (cdf beta a0 b0 x0))))
        env).
Proof. intros Henv. unfold beta_equal_tailed_coverage. now rewrite (map3_env _ _ _ _ _ Henv). Qed.

(** What each function checks: [beta_equal_tailed_interval] and
    [beta_highest_density_interval] raise a validation error on a
    non-positive shape parameter or a coverage outside [[0, 1]];
    [beta_equal_tailed_coverage] has no check and returns
    [2 |0.5 - cdf(x)|] on all arguments that broadcast;
    [beta_highest_density_coverage] has the mode check only, and returns
    when every pair of shape parameters passes it and the broadcast
    arguments are not empty. *)
Theorem shape_parameter_validation :
  forall (beta : BetaEvaluator) (a b : ndarray float64),
    (forall coverage,
        (exists a0, In a0 (Np.elements a) /\ F.le a0 (Fin 0) = true) \/
        (exists b0, In b0 (Np.elements b) /\ F.le b0 (Fin 0) = true) \/
        (exists c, In c (Np.elements coverage) /\
                   (F.lt c (Fin 0) || F.gt c (Fin 1)) = true) ->
        beta_equal_tailed_interval beta a b coverage = Raise ValueError /\
        forall atol,
          beta_highest_density_interval beta a b coverage atol
          = Raise ValueError) /\
    (forall x env,
        Np.broadcast3 a b x = Ok env ->
        beta_equal_tailed_coverage beta a b x =
        Ok (Np.map
              (fun '(a0, b0, x0) =>
                 F.mul (Fin 2) (F.abs (F.sub (Fin (1 / 2)) (cdf beta a0 b0 x0))))
              env)) /\
    (forall x env,
        Np.broadcast3 a b x = Ok env ->
        Np.elements env <> [] ->
        (forall e, In e (Np.elements env) ->
                   no_mode (entry_a e) (entry_b e) = false) ->
        succeeds (beta_highest_density_coverage beta a b x default_atol)).
Proof.
  intros beta a b. split; [| split].
  - intros coverage H. split.
    + now apply beta_equal_tailed_interval_invalid.
    + intros atol. now apply hdi_raise_of_setup, hdi_setup_invalid.
  - intros x env. apply beta_equal_tailed_coverage_env.
  - intros x env Henv Hne Hmode. destruct default_atol_pos as [-> Hpos].
    now apply (beta_highest_density_coverage_succeeds beta a b x env).
Qed.

Lemma shape_parameter_validation_witness :
  succeeds
    (beta_highest_density_coverage reference_beta
       (Scalar (Fin (-1))) (Scalar (Fin 2)) (Vector [Fin (1 / 4); Fin (3 / 4)])
       default_atol).
Proof.
  apply (proj2 (proj2 (shape_parameter_validation reference_beta
                         (Scalar (Fin (-1))) (Scalar (Fin 2))))
           (Vector [Fin (1 / 4); Fin (3 / 4)])
           (Vector [(Fin (-1), Fin 2, Fin (1 / 4));
                    (Fin (-1), Fin 2, Fin (3 / 4))])).
  - reflexivity.
  - discriminate.
  - intros e [<- | [<- | []]]; unfold no_mode, entry_a, entry_b; simpl;
      rewrite (Rleb_false 2 1) by lra; apply andb_false_r.
Defined.

(** The reference evaluator has no value for a shape parameter that is
    not positive. *)
Lemma reference_cdf_invalid a b x :
  a <= 0 -> cdf reference_beta (Fin a) b x = NaN.
Proof.
  intros Ha. cbn [reference_beta cdf]. unfold on_domain.
  destruct b as [b | | |]; try reflexivity.
  destruct x as [x | | |]; try reflexivity.
  now rewrite (Rltb_false 0 a) by lra.
Qed.

(** C7: the claim does not hold of the code for the coverage functions.
    With the shape parameter [a = -1] (and [b = 2], [x = 0.5]),
    [beta_equal_tailed_coverage] and [beta_highest_density_coverage]
    return a value, for every evaluator, and nan for the reference one;
    on the same shape parameters [beta_equal_tailed_interval] and
    [beta_highest_density_interval] raise ValueError: they test
    [np.any(a <= 0)] and [np.any(b <= 0)], the coverage functions do
    not. *)
Theorem coverage_shape_unvalidated :
  F.le (Fin (-1)) (Fin 0) = true /\
  beta_equal_tailed_coverage reference_beta
    (Scalar (Fin (-1))) (Scalar (Fin 2)) (Scalar (Fin (1 / 2)))
  = Ok (Scalar NaN) /\
  beta_highest_density_coverage reference_beta
    (Scalar (Fin (-1))) (Scalar (Fin 2)) (Scalar (Fin (1 / 2))) default_atol
  = Ok (Scalar NaN) /\
  (forall beta : BetaEvaluator,
      succeeds
        (beta_equal_tailed_coverage beta
           (Scalar (Fin (-1))) (Scalar (Fin 2)) (Scalar (Fin (1 / 2)))) /\
      succeeds
        (beta_highest_density_coverage beta
           (Scalar (Fin (-1))) (Scalar (Fin 2)) (Scalar (Fin (1 / 2)))
           default_atol)) /\
  (forall beta : BetaEvaluator,
      beta_equal_tailed_interval beta
        (Scalar (Fin (-1))) (Scalar (Fin 2)) (Scalar (Fin (1 / 2)))
      = Raise ValueError /\
      forall atol,
        beta_highest_density_interval beta
          (Scalar (Fin (-1))) (Scalar (Fin 2)) (Scalar (Fin (1 / 2))) atol
        = Raise ValueError).
Proof.
  assert (Hle : F.le (Fin (-1)) (Fin 0) = true) by (apply Rleb_true; lra).
  assert (Hmode : forall e,
             In e (Np.elements (Scalar (Fin (-1), Fin 2, Fin (1 / 2)))) ->
             no_mode (entry_a e) (entry_b e) = false).
  { intros e [<- | []]. unfold no_mode, entry_a, entry_b. simpl.
    rewrite (Rleb_false 2 1) by lra. apply andb_false_r. }
  assert (Hne : Np.elements (Scalar (Fin (-1), Fin 2, Fin (1 / 2))) <> [])
    by discriminate.
  destruct default_atol_pos as [Hatol Hpos].
  split; [exact Hle |]. split; [| split; [| split]].
  - unfold beta_equal_tailed_coverage.
    cbn [Np.map3 Np.broadcast3 Np.broadcast2 bind Np.map].
    now rewrite reference_cdf_invalid by lra.
  - rewrite Hatol. unfold beta_highest_density_coverage.
    destruct (hdc_setup_env (Scalar (Fin (-1))) (Scalar (Fin 2))
                (Scalar (Fin (1 / 2))) (Scalar (Fin (-1), Fin 2, Fin (1 / 2)))
                eq_refl Hne Hmode _ Hpos) as (n & s0 & Hn & Hs0 & ->).
    cbn [bind].
    destruct (hdc_loop_env (Scalar (Fin (-1))) (Scalar (Fin 2))
                (Scalar (Fin (1 / 2))) (Scalar (Fin (-1), Fin 2, Fin (1 / 2)))
                eq_refl n s0 Hs0) as (s' & -> & _ & Hy).
    cbn [bind]. destruct (Hy Hn) as (gy & ->).
    cbn [bind read_local Np.map Np.map3 Np.map4 Np.broadcast3 Np.broadcast2].
    now rewrite !reference_cdf_invalid by lra.
  - intros beta. split.
    + eexists. reflexivity.
    + rewrite Hatol.
      now apply (beta_highest_density_coverage_succeeds beta _ _ _
                   (Scalar (Fin (-1), Fin 2, Fin (1 / 2)))).
  - intros beta.
    assert (H : (exists a0, In a0 (Np.elements (Scalar (Fin (-1)))) /\
                            F.le a0 (Fin 0) = true) \/
                (exists b0, In b0 (Np.elements (Scalar (Fin 2))) /\
                            F.le b0 (Fin 0) = true) \/
                (exists c, In c (Np.elements (Scalar (Fin (1 / 2)))) /\
                           (F.lt c (Fin 0) || F.gt c (Fin 1)) = true)).
    { left. exists (Fin (-1)). split; [now left | exact Hle]. }
    split.
    + now apply beta_equal_tailed_interval_invalid.
    + intros atol. now apply hdi_raise_of_setup, hdi_setup_invalid.
Qed.

(** ** The iterations of the binary searches *)

Ltac bind_inv H :=
  repeat match type of H with
    | bind (raise_if ?c _) _ = Ok _ =>
        destruct c; [discriminate H | cbn [raise_if bind] in H]
    | bind ?m _ = Ok _ =>
        let E := fresh "E" in
        destruct m eqn:E; [cbn [bind] in H | discriminate H]
    end.

Lemma hdi_setup_iterations beta a b coverage atol n s0 :
  hdi_setup beta a b coverage atol = Ok (n, s0) ->
  exists width k,
    Np.map2 F.sub (x_hi s0) (x_lo s0) = Ok width /\
    n_iterations width atol = Ok k /\ n = Z.to_nat k /\
    hdi_x s0 = None /\ hdi_y s0 = None.
Proof.
  intros H. unfold hdi_setup in H. bind_inv H.
  injection H as <- <-. cbn [x_lo x_hi hdi_x hdi_y]. eauto 8.
Qed.

Lemma hdc_setup_iterations a b x atol n s0 lower x_pdf :
  hdc_setup a b x atol = Ok (n, s0, lower, x_pdf) ->
  exists width k,
    Np.map2 F.sub (y_hi s0) (y_lo s0) = Ok width /\
    n_iterations width atol = Ok k /\ n = Z.to_nat k /\ hdc_y s0 = None.
Proof.
  intros H. unfold hdc_setup in H. bind_inv H.
  injection H as <- <- <- <-. cbn [y_lo y_hi hdc_y]. eauto 8.
Qed.

(** The number of iterations is the ceiling of the base-2 logarithm of
    a real that is at least 2. *)
Lemma n_iterations_formula width atol k :
  n_iterations width atol = Ok k ->
  exists w m,
    Np.max width = Ok w /\ py_max (Fin 2) (F.div w atol) = Fin m /\ 2 <= m /\
    k = (- Int_part (- (ln m / ln 2)))%Z /\ (1 <= k)%Z.
Proof.
  intros H. pose proof (n_iterations_ge_1 _ _ _ H) as Hk.
  unfold n_iterations in H. destruct (Np.max width) as [w |]; [| discriminate].
  cbn [bind] in H. exists w.
  destruct (py_max_2 (F.div w atol)) as [(m & Hm & Hm2) | Hinf].
  - exists m. rewrite Hm in H. destruct (iterations_of_real m Hm2) as [E _].
    rewrite E in H. injection H as <-. repeat split; assumption.
  - rewrite Hinf in H. unfold F.log2 in H. simpl in H.
    destruct (Rltb _ _); discriminate.
Qed.

(** The loop enters its body at most [n] times, and [n] times when no
    iteration raises. *)
Lemma for_range_steps_le {S} (body : S -> result S) n : forall s,
  (for_range_steps n body s <= n)%nat.
Proof.
  induction n as [| n IH]; intros s; simpl; [lia |].
  destruct (body s) as [s1 |]; [specialize (IH s1) |]; lia.
Qed.

Lemma for_range_steps_complete {S} (body : S -> result S) n : forall s s',
  for_range n body s = Ok s' -> for_range_steps n body s = n.
Proof.
  induction n as [| n IH]; intros s s' H; simpl in *; [reflexivity |].
  destruct (body s) as [s1 |]; [| discriminate].
  cbn [bind] in H. f_equal. now apply (IH s1 s').
Qed.

(** When the setup returns, the arguments broadcast and the brackets have
    one pair of ends for every broadcast element. *)
Lemma hdi_setup_shape beta a b coverage atol n s0 :
  hdi_setup beta a b coverage atol = Ok (n, s0) ->
  exists env glo ghi,
    Np.broadcast3 a b coverage = Ok env /\
    x_lo s0 = Np.map glo env /\ x_hi s0 = Np.map ghi env.
Proof.
  intros H. destruct (Np.broadcast3 a b coverage) as [env | e] eqn:Henv.
  - destruct (broadcast3_viewed _ _ _ _ Henv) as (ab & Hab & _ & Vab & _).
    assert (Vmode : viewed (Np.map (fun '(a0, b0) => beta_mode a0 b0) ab)
                      (fun e => beta_mode (entry_a e) (entry_b e)) env).
    { eapply viewed_ext; [| exact (viewed_map _ _ _ _ Vab)].
      now intros [[a0 b0] c0]. }
    unfold hdi_setup in H.
    destruct (Np.any (Np.map _ a)); [discriminate H |].
    destruct (Np.any (Np.map _ b)); [discriminate H |].
    destruct (Np.any (Np.map _ coverage)); [discriminate H |].
    cbn [raise_if bind] in H.
    rewrite !(map2_ok _ _ _ _ Hab) in H. cbn [bind] in H.
    destruct (Np.any _); [discriminate H |].
    cbn [raise_if bind] in H.
    rewrite !(map4_env _ _ _ _ _ _ _ Henv Vmode) in H. cbn [bind] in H.
    destruct (Np.map2 F.sub _ _); [| discriminate H]. cbn [bind] in H.
    destruct (n_iterations _ _); [| discriminate H]. cbn [bind] in H.
    injection H as <- <-. exists env. do 2 eexists.
    split; [reflexivity |]. cbn [x_lo x_hi]. split; reflexivity.
  - unfold hdi_setup in H. bind_inv H.
    match goal with
    | E : Np.map4 _ a b coverage _ = Ok _ |- _ =>
        unfold Np.map4 in E; rewrite Henv in E; discriminate E
    end.
Qed.

Lemma hdc_setup_shape a b x atol n s0 lower x_pdf :
  hdc_setup a b x atol = Ok (n, s0, lower, x_pdf) ->
  exists env,
    Np.broadcast3 a b x = Ok env /\ hdc_entrywise env s0 /\
    lower = Np.map hdc_lower env /\
    x_pdf = Np.map (fun e => density_proxy (entry_c e) (entry_a e) (entry_b e))
              env.
Proof.
  intros H. destruct (Np.broadcast3 a b x) as [env | e] eqn:Henv.
  - destruct (broadcast3_viewed _ _ _ _ Henv) as (ab & Hab & Habx & Vab & _).
    assert (Vmode : viewed (Np.map (fun '(a0, b0) => beta_mode a0 b0) ab)
                      (fun e => beta_mode (entry_a e) (entry_b e)) env).
    { eapply viewed_ext; [| exact (viewed_map _ _ _ _ Vab)].
      now intros [[a0 b0] c0]. }
    unfold hdc_setup in H.
    rewrite !(map2_ok _ _ _ _ Hab) in H. cbn [bind] in H.
    destruct (Np.any _); [discriminate H |].
    cbn [raise_if bind] in H.
    unfold Np.map2 at 1 in H. rewrite broadcast2_map_l, Habx in H.
    cbn [bind] in H. rewrite !map_map_nd in H.
    rewrite (map_ext_nd _ hdc_lower env) in H by (now intros [[a0 b0] c0] _).
    rewrite (map3_env _ _ _ _ _ Henv) in H. cbn [bind] in H.
    rewrite (map_ext_nd _ (fun e => density_proxy (entry_c e) (entry_a e)
                                      (entry_b e)) env) in H
      by (now intros [[a0 b0] c0] _).
    rewrite map2_full with (g2 := fun e => beta_mode (entry_a e) (entry_b e))
      in H by assumption.
    cbn [bind] in H.
    rewrite map2_full with (g2 := fun e => beta_mode (entry_a e) (entry_b e))
      in H by assumption.
    cbn [bind] in H.
    erewrite map2_full in H by apply viewed_refl. cbn [bind] in H.
    destruct (n_iterations _ _); [| discriminate H]. cbn [bind] in H.
    injection H as <- <- <- <-. exists env.
    split; [reflexivity |]. split; [| split; reflexivity].
    do 2 eexists. cbn [y_lo y_hi]. split; reflexivity.
  - unfold hdc_setup in H. bind_inv H.
    match goal with
    | E : Np.map3 _ a b x = Ok _ |- _ =>
        unfold Np.map3 in E; rewrite Henv in E; discriminate E
    end.
Qed.

(** The loop of the interval search returns from every state whose
    brackets have the shape of the broadcast arguments. *)
Lemma hdi_loop_returns beta a b coverage env :
  Np.broadcast3 a b coverage = Ok env ->
  forall n s glo ghi,
    x_lo s = Np.map glo env -> x_hi s = Np.map ghi env ->
    exists s', for_range n (hdi_body beta a b coverage) s = Ok s'.
Proof.
  intros Henv n. induction n as [| n IH]; intros s glo ghi Hlo Hhi.
  - exists s. reflexivity.
  - cbn [for_range].
    rewrite (hdi_body_env beta a b coverage env Henv glo ghi s Hlo Hhi).
    cbn [bind]. eapply IH; reflexivity.
Qed.

(** C9: in [beta_highest_density_interval] and
    [beta_highest_density_coverage] the number of iterations [n] is fixed
    before the loop as [ceil(log2(max(2, max_width / atol)))], a natural
    number that is at least 1; the function is its setup, followed by the
    loop over [range(n)], followed by the lines that read the result; the
    loop returns, having entered its body exactly [n] times.  These are
    the only loops: a call that does not reach one raises in the setup,
    and the other functions are elementwise operations. *)
Theorem binary_search_iterations :
  forall (beta : BetaEvaluator),
    (forall a b coverage atol n s0,
        hdi_setup beta a b coverage atol = Ok (n, s0) ->
        (exists width w m,
            Np.map2 F.sub (x_hi s0) (x_lo s0) = Ok width /\
            Np.max width = Ok w /\
            py_max (Fin 2) (F.div w atol) = Fin m /\ 2 <= m /\
            Z.of_nat n = (- Int_part (- (ln m / ln 2)))%Z) /\
        (1 <= n)%nat /\
        beta_highest_density_interval beta a b coverage atol =
        (s <- for_range n (hdi_body beta a b coverage) s0 ;;
         x <- read_local (hdi_x s) ;;
         y <- read_local (hdi_y s) ;;
         Ok (x, y)) /\
        (exists s, for_range n (hdi_body beta a b coverage) s0 = Ok s) /\
        for_range_steps n (hdi_body beta a b coverage) s0 = n /\
        forall s c,
          for_range n (counting (hdi_body beta a b coverage)) (s0, 0%nat)
          = Ok (s, c) -> c = n) /\
    (forall a b x atol n s0 lower x_pdf,
        hdc_setup a b x atol = Ok (n, s0, lower, x_pdf) ->
        (exists width w m,
            Np.map2 F.sub (y_hi s0) (y_lo s0) = Ok width /\
            Np.max width = Ok w /\
            py_max (Fin 2) (F.div w atol) = Fin m /\ 2 <= m /\
            Z.of_nat n = (- Int_part (- (ln m / ln 2)))%Z) /\
        (1 <= n)%nat /\
        beta_highest_density_coverage beta a b x atol =
        (s <- for_range n (hdc_body a b lower x_pdf) s0 ;;
         y <- read_local (hdc_y s) ;;
         x' <- Np.map3 (fun (c : bool) x y => if c then x else y) lower x y ;;
         y' <- Np.map3 (fun (c : bool) y x => if c then y else x) lower y x ;;
         Np.map4 (fun y x a b => F.sub (cdf beta a b y) (cdf beta a b x))
           y' x' a b) /\
        (exists s, for_range n (hdc_body a b lower x_pdf) s0 = Ok s) /\
        for_range_steps n (hdc_body a b lower x_pdf) s0 = n /\
        forall s c,
          for_range n (counting (hdc_body a b lower x_pdf)) (s0, 0%nat)
          = Ok (s, c) -> c = n) /\
    (forall a b coverage atol e,
        hdi_setup beta a b coverage atol = Raise e ->
        beta_highest_density_interval beta a b coverage atol = Raise e) /\
    (forall a b x atol e,
        hdc_setup a b x atol = Raise e ->
        beta_highest_density_coverage beta a b x atol = Raise e).
Proof.
  intros beta. split; [| split; [| split]].
  - intros a b coverage atol n s0 H.
    destruct (hdi_setup_shape _ _ _ _ _ _ _ H)
      as (env & glo & ghi & Henv & Hlo & Hhi).
    destruct (hdi_loop_returns beta a b coverage env Henv n s0 glo ghi Hlo Hhi)
      as (s1 & Hrun).
    destruct (hdi_setup_iterations _ _ _ _ _ _ _ H) as (width & k & Hw & Hk & -> & _).
    destruct (n_iterations_formula _ _ _ Hk) as (w & m & Hmax & Hm & Hm2 & Ek & Hk1).
    split; [| split; [| split; [| split; [| split]]]].
    + exists width, w, m. repeat split; try assumption. rewrite Z2Nat.id by lia.
      assumption.
    + lia.
    + unfold beta_highest_density_interval. now rewrite H.
    + exists s1. exact Hrun.
    + exact (for_range_steps_complete _ _ _ _ Hrun).
    + intros s c Hc. rewrite for_range_counting in Hc.
      destruct (for_range _ _ s0); [| discriminate].
      cbn [bind] in Hc. now injection Hc as _ <-.
  - intros a b x atol n s0 lower x_pdf H.
    destruct (hdc_setup_shape _ _ _ _ _ _ _ _ H)
      as (env & Henv & Hs0 & -> & ->).
    destruct (hdc_loop_env a b x env Henv n s0 Hs0) as (s1 & Hrun & _).
    destruct (hdc_setup_iterations _ _ _ _ _ _ _ _ H) as (width & k & Hw & Hk & -> & _).
    destruct (n_iterations_formula _ _ _ Hk) as (w & m & Hmax & Hm & Hm2 & Ek & Hk1).
    split; [| split; [| split; [| split; [| split]]]].
    + exists width, w, m. repeat split; try assumption. rewrite Z2Nat.id by lia.
      assumption.
    + lia.
    + unfold beta_highest_density_coverage. now rewrite H.
    + exists s1. exact Hrun.
    + exact (for_range_steps_complete _ _ _ _ Hrun).
    + intros s c Hc. rewrite for_range_counting in Hc.
      destruct (for_range _ _ s0); [| discriminate].
      cbn [bind] in Hc. now injection Hc as _ <-.
  - intros a b coverage atol e. apply hdi_raise_of_setup.
  - intros a b x atol e. apply hdc_raise_of_setup.
Qed.

(** ** [sort_by_first] *)

Section InsertionArgsortFacts.

Variable V : Type.
Variable leb : V -> V -> bool.
Hypothesis leb_total : forall v w, leb v w = true \/ leb w v = true.
Hypothesis leb_trans : forall u v w,
    leb u v = true -> leb v w = true -> leb u w = true.
Variable ties_first : bool.
Variable keys : list V.

Lemma insert_index_perm i p : Permutation (insert_index V leb ties_first keys i p) (i :: p).
Proof.
  induction p as [| j p IH]; simpl; [reflexivity |].
  destruct (goes_before _ _ _ _ _ _); [reflexivity |].
  rewrite IH. apply perm_swap.
Qed.

Lemma insertion_argsort_perm :
  Permutation (insertion_argsort leb ties_first keys) (seq 0 (length keys)).
Proof.
  unfold insertion_argsort.
  induction (seq 0 (length keys)) as [| i l IH]; simpl; [reflexivity |].
  rewrite insert_index_perm. now apply perm_skip.
Qed.

Lemma key_le_trans i j k :
  key_le leb keys i j -> key_le leb keys j k -> key_le leb keys i k.
Proof.
  intros (u & v & Hi & Hj & Huv) (v' & w & Hj' & Hk & Hvw).
  rewrite Hj in Hj'. injection Hj' as <-.
  exists u, w. repeat split; try assumption. eauto.
Qed.

Lemma goes_before_true i j :
  (i < length keys)%nat -> (j < length keys)%nat ->
  goes_before V leb ties_first keys i j = true -> key_le leb keys i j.
Proof.
  intros Hi Hj. unfold goes_before, key_le.
  destruct (nth_error keys i) as [v |] eqn:Ei;
    [| apply nth_error_None in Ei; lia].
  destruct (nth_error keys j) as [w |] eqn:Ej;
    [| apply nth_error_None in Ej; lia].
  intros H. exists v, w. repeat split.
  destruct ties_first; [assumption |].
  destruct (leb_total v w) as [? | Hwv]; [assumption |].
  rewrite Hwv in H. discriminate.
Qed.

Lemma goes_before_false i j :
  (i < length keys)%nat -> (j < length keys)%nat ->
  goes_before V leb ties_first keys i j = false -> key_le leb keys j i.
Proof.
  intros Hi Hj. unfold goes_before, key_le.
  destruct (nth_error keys i) as [v |] eqn:Ei;
    [| apply nth_error_None in Ei; lia].
  destruct (nth_error keys j) as [w |] eqn:Ej;
    [| apply nth_error_None in Ej; lia].
  intros H. exists w, v. repeat split.
  destruct ties_first.
  - destruct (leb_total v w) as [Hvw | ?]; [congruence | assumption].
  - now apply negb_false_iff in H.
Qed.

Lemma insert_index_sorted i p :
  (i < length keys)%nat -> Forall (fun j => (j < length keys)%nat) p ->
  StronglySorted (key_le leb keys) p ->
  StronglySorted (key_le leb keys) (insert_index V leb ties_first keys i p).
Proof.
  intros Hi Hp Hs. induction p as [| j p IH]; simpl.
  - repeat constructor.
  - inversion Hp as [| ? ? Hj Hp']; subst.
    inversion Hs as [| ? ? Hs' Hall]; subst.
    destruct (goes_before _ _ _ _ _ _) eqn:Hgo.
    + pose proof (goes_before_true i j Hi Hj Hgo) as Hij.
      constructor; [assumption |]. constructor; [assumption |].
      eapply Forall_impl; [| exact Hall].
      intros k Hjk. now apply key_le_trans with j.
    + pose proof (goes_before_false i j Hi Hj Hgo) as Hji.
      constructor; [now apply IH |].
      rewrite insert_index_perm. now constructor.
Qed.

Lemma insertion_argsort_in_range :
  Forall (fun j => (j < length keys)%nat)
    (insertion_argsort leb ties_first keys).
Proof.
  rewrite insertion_argsort_perm. apply Forall_forall.
  intros j Hj. apply in_seq in Hj. lia.
Qed.

Lemma insertion_argsort_sorted :
  StronglySorted (key_le leb keys) (insertion_argsort leb ties_first keys).
Proof.
  unfold insertion_argsort.
  assert (Hrange : Forall (fun j => (j < length keys)%nat)
                     (seq 0 (length keys))).
  { apply Forall_forall. intros j Hj. apply in_seq in Hj. lia. }
  induction (seq 0 (length keys)) as [| i l IH]; simpl; [constructor |].
  inversion Hrange as [| ? ? Hi Hl]; subst.
  apply insert_index_sorted; [assumption | | now apply IH].
  clear IH. induction l as [| k l IHl]; simpl; [constructor |].
  inversion Hl; subst. rewrite insert_index_perm. constructor; auto.
Qed.

(** Indexing by indices sorted by their keys gives sorted values. *)
Lemma fancy_index_sorted p :
  StronglySorted (key_le leb keys) p ->
  Forall (fun j => (j < length keys)%nat) p ->
  exists sorted,
    fancy_index keys p = Ok sorted /\
    StronglySorted (fun v w => leb v w = true) sorted /\
    Forall2 (fun j v => nth_error keys j = Some v) p sorted.
Proof.
  induction p as [| i p IH]; simpl; intros Hs Hr.
  - exists []. repeat constructor.
  - inversion Hs as [| ? ? Hs' Hall]; subst. inversion Hr as [| ? ? Hi Hr']; subst.
    destruct (IH Hs' Hr') as (sorted & E & Hsorted & Hnth).
    unfold fancy_index in *. simpl.
    destruct (nth_error keys i) as [v |] eqn:Ei;
      [| apply nth_error_None in Ei; lia].
    cbn [bind]. rewrite E. cbn [bind].
    exists (v :: sorted). repeat split; [| now constructor].
    constructor; [assumption |].
    clear -Hall Hnth Ei. induction Hnth as [| j w p sorted Hj Hnth IH].
    + constructor.
    + inversion Hall as [| ? ? (v' & w' & Hv' & Hw' & Hle) Hall']; subst.
      rewrite Ei in Hv'. injection Hv' as <-.
      rewrite Hj in Hw'. injection Hw' as <-.
      constructor; auto.
Qed.

End InsertionArgsortFacts.

(** The sorts by insertion meet the contract of [np.argsort]. *)
Lemma insertion_argsort_contract {V} (leb : V -> V -> bool) ties_first :
  (forall v w, leb v w = true \/ leb w v = true) ->
  (forall u v w, leb u v = true -> leb v w = true -> leb u w = true) ->
  argsort_contract leb (insertion_argsort leb ties_first).
Proof.
  intros Htotal Htrans keys. split.
  - apply insertion_argsort_perm.
  - destruct (fancy_index_sorted V leb keys
                (insertion_argsort leb ties_first keys))
      as (sorted & E & Hs & _).
    + now apply insertion_argsort_sorted.
    + apply insertion_argsort_in_range.
    + eauto.
Qed.

Lemma Zleb_total (v w : Z) : (v <=? w)%Z = true \/ (w <=? v)%Z = true.
Proof. destruct (Z.leb_spec v w); [now left | right; apply Z.leb_le; lia]. Qed.

Lemma Zleb_trans (u v w : Z) :
  (u <=? v)%Z = true -> (v <=? w)%Z = true -> (u <=? w)%Z = true.
Proof. rewrite !Z.leb_le. lia. Qed.

Lemma fancy_index_in_range {V} (arr : list V) p :
  Forall (fun i => (i < length arr)%nat) p ->
  exists out, fancy_index arr p = Ok out /\
              Forall2 (fun i v => nth_error arr i = Some v) p out.
Proof.
  unfold fancy_index. induction p as [| i p IH]; simpl; intros Hr.
  - exists []. split; [reflexivity | constructor].
  - inversion Hr as [| ? ? Hi Hr']; subst.
    destruct (IH Hr') as (out & -> & Hout).
    destruct (nth_error arr i) as [v |] eqn:Ei;
      [| apply nth_error_None in Ei; lia].
    cbn [bind]. exists (v :: out). split; [reflexivity | now constructor].
Qed.

Section SortByFirstFacts.

Variable V : Type.
Variable argsort : list V -> list nat.

Lemma sort_by_first_no_args : sort_by_first argsort [] = Ok [].
Proof. reflexivity. Qed.

Lemma sort_by_first_shapes_differ args :
  (exists arg, In arg args /\ length arg <> length (first_arg args)) ->
  sort_by_first argsort args = Raise ValueError.
Proof.
  intros (arg & Hin & Hlen). unfold sort_by_first.
  replace (existsb _ args) with true; [reflexivity |].
  symmetry. apply existsb_exists. exists arg. split; [assumption |].
  apply negb_true_iff. now apply Nat.eqb_neq.
Qed.

Lemma sort_by_first_same_shape first rest :
  Forall (fun arg => length arg = length first) rest ->
  Permutation (argsort first) (seq 0 (length first)) ->
  exists outs,
    sort_by_first argsort (first :: rest) = Ok outs /\
    Forall2
      (fun arg out =>
         Forall2 (fun i v => nth_error arg i = Some v) (argsort first) out)
      (first :: rest) outs.
Proof.
  intros Hlen Hperm. unfold sort_by_first.
  change (first_arg (first :: rest)) with first.
  replace (existsb _ (first :: rest)) with false.
  2:{ symmetry. apply not_true_is_false. intros H.
      apply existsb_exists in H as (arg & Hin & Hneq).
      apply negb_true_iff, Nat.eqb_neq in Hneq. apply Hneq.
      destruct Hin as [<- | Hin]; [reflexivity |].
      rewrite Forall_forall in Hlen. now apply Hlen. }
  cbn [raise_if bind length Nat.eqb].
  assert (Hall : Forall (fun arg => length arg = length first) (first :: rest))
    by (constructor; [reflexivity | assumption]).
  clear Hlen. induction Hall as [| arg args Harg Hall IH]; simpl.
  - exists []. split; [reflexivity | constructor].
  - destruct (fancy_index_in_range arg (argsort first)) as (out & -> & Hout).
    { rewrite Hperm. apply Forall_forall. intros i Hi.
      apply in_seq in Hi. lia. }
    destruct IH as (outs & -> & Houts). cbn [bind].
    exists (out :: outs). split; [reflexivity | now constructor].
Qed.

End SortByFirstFacts.

(** ** Arguments of dimension 0 or 1 *)

Lemma existsb_map_list {A B} (f : B -> bool) (g : A -> B) (l : list A) :
  existsb f (map g l) = existsb (fun a => f (g a)) l.
Proof. induction l as [| a l IH]; simpl; [reflexivity | now rewrite IH]. Qed.

Lemma map_result_vectors {V} (sorting : list nat) (args : list (list V)) :
  map_result (fun arg => index_array arg sorting) (map Vector args)
  = (outs <- map_result (fun arg => fancy_index arg sorting) args ;;
     Ok (map Vector outs)).
Proof.
  induction args as [| arg args IH]; [reflexivity |].
  cbn [map map_result index_array].
  destruct (fancy_index arg sorting) as [out |]; [| reflexivity].
  cbn [bind]. rewrite IH.
  destruct (map_result _ args) as [outs |]; reflexivity.
Qed.

(** On one-dimensional arguments the two definitions agree. *)
Lemma sort_by_first_arrays_vectors {V} (argsort : list V -> list nat)
  (args : list (list V)) :
  sort_by_first_arrays argsort (map Vector args)
  = (outs <- sort_by_first argsort args ;; Ok (map Vector outs)).
Proof.
  unfold sort_by_first_arrays, sort_by_first, first_array, first_arg.
  change (@Vector V []) with (@Vector V (@nil V)).
  rewrite (map_nth (@Vector V) args [] 0).
  rewrite existsb_map_list. cbn [Np.shape shape_eqb].
  destruct (existsb _ args); [reflexivity |].
  cbn [raise_if bind]. rewrite length_map.
  destruct (Nat.eqb (length args) 0); [reflexivity |].
  cbn [Np.elements]. apply map_result_vectors.
Qed.

(** Arguments of dimension 0 have one shape, and the call raises
    IndexError whichever permutation [np.argsort] returns. *)
Lemma sort_by_first_arrays_scalars {V} (argsort : list V -> list nat)
  (x : V) (xs : list V) :
  sort_by_first_arrays argsort (map Scalar (x :: xs)) = Raise IndexError.
Proof.
  unfold sort_by_first_arrays, first_array.
  replace (existsb _ (map Scalar (x :: xs))) with false; [reflexivity |].
  symmetry. rewrite existsb_map_list. apply not_true_is_false. intros H.
  apply existsb_exists in H as (y & _ & H). discriminate H.
Qed.

Lemma sort_by_first_arrays_shapes_differ {V} (argsort : list V -> list nat)
  (args : list (ndarray V)) :
  (exists arg, In arg args /\ Np.shape arg <> Np.shape (first_array args)) ->
  sort_by_first_arrays argsort args = Raise ValueError.
Proof.
  intros (arg & Hin & Hshape). unfold sort_by_first_arrays.
  replace (existsb _ args) with true; [reflexivity |].
  symmetry. apply existsb_exists. exists arg. split; [assumption |].
  apply negb_true_iff.
  destruct (Np.shape arg) as [m |], (Np.shape (first_array args)) as [n |];
    simpl; try reflexivity; [| congruence].
  apply Nat.eqb_neq. congruence.
Qed.

(** C8, as amended: for one-dimensional arrays of one length
    [sort_by_first] returns all the arrays permuted by one common
    permutation of their indices, the one [np.argsort] gives for the first
    array, which arranges the first array in ascending order (the order
    among equal elements of the first array is the one [np.argsort]
    happens to choose); with no argument it returns the empty tuple;
    arrays of differing shapes, of dimension 0 or 1, raise a validation
    error. *)
Theorem sort_by_first_spec :
  forall (V : Type) (leb : V -> V -> bool) (argsort : list V -> list nat),
    argsort_contract leb argsort ->
    sort_by_first_arrays argsort [] = Ok [] /\
    (forall args,
        (exists arg,
            In arg args /\ Np.shape arg <> Np.shape (first_array args)) ->
        sort_by_first_arrays argsort args = Raise ValueError) /\
    (forall first rest,
        Forall (fun arg => length arg = length first) rest ->
        exists sorted others,
          sort_by_first_arrays argsort (map Vector (first :: rest))
          = Ok (map Vector (sorted :: others)) /\
          sort_by_first argsort (first :: rest) = Ok (sorted :: others) /\
          Permutation (argsort first) (seq 0 (length first)) /\
          Forall2
            (fun arg out =>
               Forall2 (fun i v => nth_error arg i = Some v) (argsort first) out)
            (first :: rest) (sorted :: others) /\
          StronglySorted (fun v w => leb v w = true) sorted) /\
    sort_by_first argsort [] = Ok [] /\
    (forall args,
        (exists arg, In arg args /\ length arg <> length (first_arg args)) ->
        sort_by_first argsort args = Raise ValueError).
Proof.
  intros V leb argsort contract. split; [| split; [| split; [| split]]].
  - reflexivity.
  - apply sort_by_first_arrays_shapes_differ.
  - intros first rest Hlen.
    destruct (contract first) as (Hperm & sorted & Hsorted & Hss).
    destruct (sort_by_first_same_shape V argsort first rest Hlen Hperm)
      as (outs & E & Houts).
    inversion Houts as [| ? out ? others Hout Hothers]; subst.
    exists out, others.
    split; [rewrite sort_by_first_arrays_vectors, E; reflexivity |].
    repeat split; try assumption.
    destruct (fancy_index_in_range first (argsort first)) as (out' & E' & Hout').
    { rewrite Hperm. apply Forall_forall. intros i Hi. apply in_seq in Hi. lia. }
    assert (out = out').
    { clear -Hout Hout'. revert out' Hout'.
      induction Hout as [| i v p out Hi Hout IH]; intros out' Hout';
        inversion Hout'; subst; [reflexivity |].
      f_equal; [congruence | now apply IH]. }
    subst out'. rewrite Hsorted in E'. now injection E' as <-.
  - apply sort_by_first_no_args.
  - apply sort_by_first_shapes_differ.
Qed.

Lemma sort_by_first_spec_witness :
  exists sorted others,
    sort_by_first_arrays (insertion_argsort Z.leb true)
      [Vector [2; 1; 3]; Vector [30; 20; 10]]%Z
    = Ok (map Vector (sorted :: others)) /\
    StronglySorted (fun v w => (v <=? w)%Z = true) sorted.
Proof.
  destruct (sort_by_first_spec Z Z.leb (insertion_argsort Z.leb true)
              (insertion_argsort_contract Z.leb true Zleb_total Zleb_trans))
    as (_ & _ & H & _).
  destruct (H [2; 1; 3]%Z [[30; 20; 10]%Z])
    as (sorted & others & E & _ & _ & _ & Hs).
  - repeat constructor.
  - exists sorted, others. now split.
Defined.

(** The example of the tests: sorting [[2, 1, 3]] carries [[3, 2, 1]] to
    [[2, 3, 1]]. *)
Example sort_by_first_example :
  sort_by_first (insertion_argsort Z.leb true) [[2; 1; 3]; [3; 2; 1]]%Z
  = Ok [[1; 2; 3]; [2; 3; 1]]%Z.
Proof. reflexivity. Qed.

(** C8 as stated fails: the arguments of [sort_by_first(5, 6)] are arrays
    of one shape, [()], and the call raises IndexError where the claim
    has it return the two arrays. *)
Lemma sort_by_first_scalar_counterexample :
  Np.shape (Scalar 5%Z) = Np.shape (Scalar 6%Z) /\
  sort_by_first_arrays (insertion_argsort Z.leb true) [Scalar 5%Z; Scalar 6%Z]
  = Raise IndexError.
Proof. split; reflexivity. Qed.

(** The contract of [np.argsort] leaves the order of equal elements open:
    the two insertion sorts meet it, and on the keys [[1, 1]] one keeps
    the entries [[10, 20]] in place and the other exchanges them.  (On an
    array this short NumPy's default sort keeps them in place; it is on
    longer arrays that it is not stable.) *)
Lemma argsort_contract_ties :
  argsort_contract Z.leb (insertion_argsort Z.leb true) /\
  argsort_contract Z.leb (insertion_argsort Z.leb false) /\
  sort_by_first (insertion_argsort Z.leb true) [[1; 1]; [10; 20]]%Z
  = Ok [[1; 1]; [10; 20]]%Z /\
  sort_by_first (insertion_argsort Z.leb false) [[1; 1]; [10; 20]]%Z
  = Ok [[1; 1]; [20; 10]]%Z /\
  stable Z.leb [1; 1]%Z (insertion_argsort Z.leb true [1; 1]%Z) /\
  ~ stable Z.leb [1; 1]%Z (insertion_argsort Z.leb false [1; 1]%Z).
Proof.
  split; [apply insertion_argsort_contract; [apply Zleb_total | apply Zleb_trans] |].
  split; [apply insertion_argsort_contract; [apply Zleb_total | apply Zleb_trans] |].
  split; [reflexivity |]. split; [reflexivity |]. split.
  - change (insertion_argsort Z.leb true [1; 1]%Z) with [0; 1]%nat.
    repeat constructor.
  - intros H. change (insertion_argsort Z.leb false [1; 1]%Z) with [1; 0]%nat in H.
    inversion H as [| ? ? _ Hall]; subst.
    inversion Hall as [| ? ? Htie _]; subst.
    assert (1 < 0)%nat; [| lia].
    apply Htie. unfold tied. simpl. now split.
Qed.

(** ** The theorems at concrete inputs *)

Lemma beta_equal_tailed_interval_spec_witness :
  exists lo hi,
    beta_equal_tailed_interval reference_beta
      (Scalar (Fin 2)) (Scalar (Fin 3)) (Vector [Fin 0; Fin (1 / 2); Fin 1])
    = Ok (lo, hi) /\
    cdf reference_beta (Fin 2) (Fin 3)
      (ppf reference_beta (Fin 2) (Fin 3)
         (F.div (F.sub (Fin 1) (Fin (1 / 2))) (Fin 2)))
    = F.div (F.sub (Fin 1) (Fin (1 / 2))) (Fin 2).
Proof.
  destruct (beta_equal_tailed_interval_spec reference_beta reference_beta_contract
              (Scalar (Fin 2)) (Scalar (Fin 3))
              (Vector [Fin 0; Fin (1 / 2); Fin 1])
              (Vector [(Fin 2, Fin 3, Fin 0); (Fin 2, Fin 3, Fin (1 / 2));
                       (Fin 2, Fin 3, Fin 1)]))
    as (lo & hi & E & _ & _ & Hentry).
  - repeat constructor. exists 2. split; [reflexivity | lra].
  - repeat constructor. exists 3. split; [reflexivity | lra].
  - repeat constructor; eexists; (split; [reflexivity | lra]).
  - reflexivity.
  - exists lo, hi. split; [exact E |].
    apply (Hentry (Fin 2) (Fin 3) (Fin (1 / 2))). right. now left.
Defined.

Lemma interval_results_ordered_witness :
  (exists lo hi,
      beta_equal_tailed_interval reference_beta
        (Scalar (Fin 2)) (Vector [Fin 3; Fin (1 / 2)]) (Scalar (Fin (1 / 2)))
      = Ok (lo, hi) /\ unit_intervals lo hi) /\
  (exists lo hi,
      beta_highest_density_interval reference_beta
        (Scalar (Fin 2)) (Vector [Fin 3; Fin (1 / 2)]) (Scalar (Fin (1 / 2)))
        default_atol
      = Ok (lo, hi) /\ unit_intervals lo hi) /\
  (exists lo hi,
      binomial_confidence_interval reference_beta
        (Vector [0; 5; 10]%Z) (Scalar 10%Z) (Scalar (Fin (1 / 2)))
      = Ok (lo, hi) /\ unit_intervals lo hi).
Proof.
  destruct (interval_results_ordered reference_beta) as (Het & Hhd & _ & Hbin).
  split; [| split].
  - apply (Het reference_beta_contract _ _ _
             (Vector [(Fin 2, Fin 3, Fin (1 / 2));
                      (Fin 2, Fin (1 / 2), Fin (1 / 2))])).
    + repeat constructor. exists 2. split; [reflexivity | lra].
    + repeat constructor; eexists; (split; [reflexivity | lra]).
    + repeat constructor. exists (1 / 2). split; [reflexivity | lra].
    + reflexivity.
  - destruct default_atol_pos as [-> Hpos].
    refine (proj2 (Hhd (contract_range _ reference_beta_contract)
                     (Scalar (Fin 2)) (Vector [Fin 3; Fin (1 / 2)])
                     (Scalar (Fin (1 / 2)))
                     (Vector [(Fin 2, Fin 3, Fin (1 / 2));
                              (Fin 2, Fin (1 / 2), Fin (1 / 2))])
                     (/ 10 ^ 10) eq_refl _ _ Hpos)).
    + discriminate.
    + intros e [<- | [<- | []]]; do 3 eexists;
        (split; [reflexivity | repeat split; lra]).
  - apply (Hbin reference_beta_contract _ _ _
             (Vector [(0, 10); (5, 10); (10, 10)]%Z)
             (Vector [(0, 10, Fin (1 / 2)); (5, 10, Fin (1 / 2));
                      (10, 10, Fin (1 / 2))]%Z)).
    + repeat constructor; lia.
    + repeat constructor; lia.
    + repeat constructor. exists (1 / 2). split; [reflexivity | lra].
    + reflexivity.
    + repeat constructor; lia.
    + reflexivity.
Defined.

Lemma highest_density_validation_witness :
  beta_highest_density_interval reference_beta
    (Scalar (Fin (1 / 2))) (Vector [Fin 2; Fin 1]) (Scalar (Fin (1 / 2)))
    default_atol = Raise ValueError /\
  succeeds
    (beta_highest_density_interval reference_beta
       (Scalar (Fin (1 / 2))) (Vector [Fin 2; Fin 3]) (Scalar (Fin (1 / 2)))
       default_atol).
Proof.
  split.
  - apply (proj1 (highest_density_validation reference_beta
                    (Scalar (Fin (1 / 2))) (Vector [Fin 2; Fin 1]))
             (Vector [(Fin (1 / 2), Fin 2); (Fin (1 / 2), Fin 1)]) eq_refl).
    exists (Fin (1 / 2)), (Fin 1). split; [right; now left |].
    unfold no_mode. simpl. now rewrite !Rleb_true by lra.
  - apply (proj1 (proj2 (proj2 (highest_density_validation reference_beta
                                  (Scalar (Fin (1 / 2))) (Vector [Fin 2; Fin 3]))))
             (contract_range _ reference_beta_contract)
             (Scalar (Fin (1 / 2)))
             (Vector [(Fin (1 / 2), Fin 2, Fin (1 / 2));
                      (Fin (1 / 2), Fin 3, Fin (1 / 2))])
             eq_refl).
    + discriminate.
    + intros e [<- | [<- | []]]; do 3 eexists;
        (split; [reflexivity | repeat split; lra]).
Defined.

Lemma binary_search_iterations_witness :
  (exists n s0,
      hdi_setup reference_beta
        (Scalar (Fin 2)) (Scalar (Fin 3)) (Scalar (Fin (1 / 2))) default_atol
      = Ok (n, s0) /\
      (1 <= n)%nat /\
      (exists s,
          for_range n
            (hdi_body reference_beta
               (Scalar (Fin 2)) (Scalar (Fin 3)) (Scalar (Fin (1 / 2))))
            s0 = Ok s) /\
      for_range_steps n
        (hdi_body reference_beta
           (Scalar (Fin 2)) (Scalar (Fin 3)) (Scalar (Fin (1 / 2))))
        s0 = n) /\
  (exists n s0 lower x_pdf,
      hdc_setup (Scalar (Fin 2)) (Scalar (Fin 3)) (Scalar (Fin (1 / 4)))
        default_atol
      = Ok (n, s0, lower, x_pdf) /\
      (1 <= n)%nat /\
      (exists s,
          for_range n
            (hdc_body (Scalar (Fin 2)) (Scalar (Fin 3)) lower x_pdf) s0
          = Ok s) /\
      for_range_steps n
        (hdc_body (Scalar (Fin 2)) (Scalar (Fin 3)) lower x_pdf) s0 = n).
Proof.
  destruct default_atol_pos as [Hatol Hpos]. split.
  - destruct (hdi_setup_env reference_beta
                (contract_range _ reference_beta_contract)
                (Scalar (Fin 2)) (Scalar (Fin 3)) (Scalar (Fin (1 / 2)))
                (Scalar (Fin 2, Fin 3, Fin (1 / 2))) eq_refl)
      with (t := / 10 ^ 10) as (n & _ & Hsetup).
    + discriminate.
    + intros e [<- | []]. do 3 eexists.
      split; [reflexivity | repeat split; lra].
    + exact Hpos.
    + rewrite <- Hatol in Hsetup.
      destruct (proj1 (binary_search_iterations reference_beta)
                  _ _ _ _ _ _ Hsetup)
        as (_ & Hn & _ & Hrun & Hsteps & _).
      exists n. eexists. split; [exact Hsetup |].
      split; [exact Hn |]. split; [exact Hrun | exact Hsteps].
  - destruct (hdc_setup_env (Scalar (Fin 2)) (Scalar (Fin 3))
                (Scalar (Fin (1 / 4))) (Scalar (Fin 2, Fin 3, Fin (1 / 4)))
                eq_refl)
      with (t := / 10 ^ 10) as (n & s0 & _ & _ & Hsetup).
    + discriminate.
    + intros e [<- | []]. unfold no_mode, entry_a, entry_b. simpl.
      now rewrite (Rleb_false 2 1) by lra.
    + exact Hpos.
    + rewrite <- Hatol in Hsetup.
      destruct (proj1 (proj2 (binary_search_iterations reference_beta))
                  _ _ _ _ _ _ _ _ Hsetup)
        as (_ & Hn & _ & Hrun & Hsteps & _).
      exists n, s0. do 2 eexists. split; [exact Hsetup |].
      split; [exact Hn |]. split; [exact Hrun | exact Hsteps].
Defined.

(** * Further properties *)

(** ** [dkw_epsilon] as a function of its arguments *)

(** The value of [dkw_epsilon] on a valid call: elementwise
    [dkw_value]. *)
Lemma dkw_epsilon_values n confidence n0 cs :
  single n (Fin n0) -> 0 < n0 ->
  Np.elements confidence = map Fin cs ->
  Forall (fun c => 0 <= c <= 1) cs ->
  exists out, dkw_epsilon n confidence = Ok out /\
              Np.elements out = map (dkw_value n0) cs.
Proof.
  intros Hn H0 Hcs Hall. rewrite (dkw_epsilon_pos _ _ n0) by assumption.
  replace (Np.any _) with false.
  2:{ symmetry. apply any_map_false. unfold all. rewrite Hcs.
      apply Forall_map. eapply Forall_impl; [| exact Hall].
      intros c Hc. now apply unit_not_outside. }
  cbn [raise_if bind]. unfold Np.map2.
  destruct (broadcast2_single_r confidence n _ Hn) as (xy & Exy & Hxy).
  rewrite Exy. cbn [bind]. eexists; split; [reflexivity |].
  rewrite elements_map, Hxy, Hcs, !List.map_map.
  apply map_ext_in. intros c Hc. rewrite Forall_forall in Hall.
  apply dkw_kernel; auto.
Qed.

Lemma dkw_epsilon_scalar n0 c : 0 < n0 -> 0 <= c <= 1 ->
  dkw_epsilon (Scalar (Fin n0)) (Scalar (Fin c)) = Ok (Scalar (dkw_value n0 c)).
Proof.
  intros Hn Hc. rewrite (dkw_epsilon_pos _ _ n0) by (reflexivity || assumption).
  cbn [Np.map Np.any Np.elements existsb]. rewrite unit_not_outside by assumption.
  cbn [raise_if bind Np.map2 Np.broadcast2 Np.map].
  now rewrite dkw_kernel.
Qed.

Lemma dkw_log_nonneg c : 0 <= c < 1 -> 0 <= ln (2 / (1 - c)).
Proof.
  intros Hc.
  assert (H1 : 1 < 2 / (1 - c)).
  { apply Rmult_lt_reg_r with (1 - c); [lra |].
    unfold Rdiv. rewrite Rmult_assoc, Rinv_l by lra. lra. }
  rewrite <- ln_1. left. apply ln_increasing; lra.
Qed.

Lemma dkw_log_monotone c1 c2 : 0 <= c1 -> c1 <= c2 -> c2 < 1 ->
  ln (2 / (1 - c1)) <= ln (2 / (1 - c2)).
Proof.
  intros H0 H12 H2.
  assert (Hq : 2 / (1 - c1) <= 2 / (1 - c2)).
  { unfold Rdiv. apply Rmult_le_compat_l; [lra |].
    apply Rinv_le_contravar; lra. }
  assert (Hp : 0 < 2 / (1 - c1)) by (apply Rdiv_lt_0_compat; lra).
  destruct Hq as [Hq | Hq].
  - left. apply ln_increasing; assumption.
  - right. now rewrite Hq.
Qed.

(** X1: the epsilon returned is the half-width at which the bound of the
    Dvoretzky-Kiefer-Wolfowitz inequality, [2 exp(-2 n eps^2)], is exactly
    [1 - confidence]. *)
Theorem dkw_epsilon_inverts_bound :
  forall n confidence n0 cs,
    single n (Fin n0) -> 0 < n0 ->
    Np.elements confidence = map Fin cs ->
    Forall (fun c => 0 <= c < 1) cs ->
    exists out,
      dkw_epsilon n confidence = Ok out /\
      Forall2
        (fun c eps => exists e, eps = Fin e /\ 0 <= e /\
                                2 * exp (- 2 * n0 * (e * e)) = 1 - c)
        cs (Np.elements out).
Proof.
  intros n confidence n0 cs Hn H0 Hcs Hall.
  destruct (dkw_epsilon_values n confidence n0 cs Hn H0 Hcs) as (out & E & Hout).
  { eapply Forall_impl; [| exact Hall]. simpl. intros; lra. }
  exists out. split; [assumption |]. rewrite Hout.
  clear -Hall H0. induction Hall as [| c cs Hc Hall IH]; simpl; constructor;
    [| assumption].
  unfold dkw_value. rewrite Reqb_false by lra.
  eexists; split; [reflexivity |]. split; [apply sqrt_pos |].
  pose proof (dkw_log_nonneg c Hc) as HL.
  rewrite sqrt_sqrt.
  2:{ apply Rmult_le_pos; [assumption |]. left. apply Rinv_0_lt_compat. lra. }
  replace (- 2 * n0 * (ln (2 / (1 - c)) / (2 * n0))) with (- ln (2 / (1 - c)))
    by (field; lra).
  rewrite exp_Ropp, exp_ln by (apply Rdiv_lt_0_compat; lra).
  field; lra.
Qed.

Lemma dkw_epsilon_inverts_bound_witness :
  exists out,
    dkw_epsilon (Scalar (Fin 100)) (Vector [Fin 0; Fin (1 / 2); Fin (19 / 20)])
    = Ok out /\
    Forall2
      (fun c eps => exists e, eps = Fin e /\ 0 <= e /\
                              2 * exp (- 2 * 100 * (e * e)) = 1 - c)
      [0; 1 / 2; 19 / 20] (Np.elements out).
Proof.
  apply (dkw_epsilon_inverts_bound (Scalar (Fin 100))
           (Vector [Fin 0; Fin (1 / 2); Fin (19 / 20)]) 100 [0; 1 / 2; 19 / 20]).
  - reflexivity.
  - lra.
  - reflexivity.
  - repeat constructor; lra.
Defined.

Lemma dkw_value_le n1 n2 c1 c2 :
  0 < n1 -> n1 <= n2 -> 0 <= c1 -> c1 <= c2 -> c2 <= 1 ->
  F.le (dkw_value n2 c1) (dkw_value n1 c2) = true.
Proof.
  intros Hn1 Hn Hc1 Hc Hc2. unfold dkw_value.
  destruct (Reqb_spec c2 1) as [-> | Hne2].
  - destruct (Reqb c1 1); reflexivity.
  - rewrite (Reqb_false c1) by lra. simpl. apply Rleb_true.
    apply sqrt_le_1_alt.
    pose proof (dkw_log_nonneg c1 ltac:(lra)) as HL1.
    pose proof (dkw_log_monotone c1 c2 Hc1 Hc ltac:(lra)) as HL.
    assert (Hi : / (2 * n2) <= / (2 * n1)) by (apply Rinv_le_contravar; lra).
    assert (Hp : 0 < / (2 * n2)) by (apply Rinv_0_lt_compat; lra).
    unfold Rdiv. apply Rmult_le_compat; lra.
Qed.

(** X2: the epsilon shrinks as the sample grows and grows with the
    confidence: for [n1 <= n2] and [c1 <= c2],
    [dkw_epsilon(n2, c1) <= dkw_epsilon(n1, c2)]. *)
Theorem dkw_epsilon_monotone :
  forall n1 n2 c1 c2,
    0 < n1 -> n1 <= n2 -> 0 <= c1 -> c1 <= c2 -> c2 <= 1 ->
    exists e1 e2,
      dkw_epsilon (Scalar (Fin n2)) (Scalar (Fin c1)) = Ok (Scalar e1) /\
      dkw_epsilon (Scalar (Fin n1)) (Scalar (Fin c2)) = Ok (Scalar e2) /\
      F.le e1 e2 = true.
Proof.
  intros n1 n2 c1 c2 Hn1 Hn Hc1 Hc Hc2.
  exists (dkw_value n2 c1), (dkw_value n1 c2).
  rewrite !dkw_epsilon_scalar by lra.
  repeat split. now apply dkw_value_le.
Qed.

Lemma dkw_epsilon_monotone_witness :
  exists e1 e2,
    dkw_epsilon (Scalar (Fin 50)) (Scalar (Fin (1 / 2))) = Ok (Scalar e1) /\
    dkw_epsilon (Scalar (Fin 10)) (Scalar (Fin 1)) = Ok (Scalar e2) /\
    F.le e1 e2 = true.
Proof. apply (dkw_epsilon_monotone 10 50 (1 / 2) 1); lra. Defined.

Lemma dkw_value_scale n k c : 0 < n -> 0 < k ->
  dkw_value (k * k * n) c = F.div (dkw_value n c) (Fin k).
Proof.
  intros Hn Hk. unfold dkw_value. destruct (Reqb c 1).
  - simpl. now rewrite Rltb_false by lra.
  - simpl. rewrite Reqb_false by lra. f_equal.
    replace (ln (2 / (1 - c)) / (2 * (k * k * n)))
      with (ln (2 / (1 - c)) / (2 * n) * (/ k * / k)) by (field; lra).
    destruct (Rle_or_lt 0 (ln (2 / (1 - c)) / (2 * n))) as [Hp | Hneg].
    + rewrite sqrt_mult_alt by assumption.
      rewrite sqrt_square by (left; now apply Rinv_0_lt_compat). reflexivity.
    + assert (Hk2 : 0 < / k * / k).
      { apply Rmult_lt_0_compat; now apply Rinv_0_lt_compat. }
      rewrite (sqrt_neg_0 (_ * _)) by nra.
      rewrite sqrt_neg_0 by lra. unfold Rdiv. lra.
Qed.

(** X3: multiplying the sample size by [k^2] divides the epsilon by [k]
    (four times the sample halves it), at every confidence. *)
Theorem dkw_epsilon_scaling :
  forall n0 k confidence cs,
    0 < n0 -> 0 < k ->
    Np.elements confidence = map Fin cs ->
    Forall (fun c => 0 <= c <= 1) cs ->
    exists out out',
      dkw_epsilon (Scalar (Fin n0)) confidence = Ok out /\
      dkw_epsilon (Scalar (Fin (k * k * n0))) confidence = Ok out' /\
      Np.elements out'
      = map (fun eps => F.div eps (Fin k)) (Np.elements out).
Proof.
  intros n0 k confidence cs Hn Hk Hcs Hall.
  destruct (dkw_epsilon_values (Scalar (Fin n0)) confidence n0 cs eq_refl Hn Hcs Hall)
    as (out & E & Hout).
  assert (Hkn : 0 < k * k * n0) by (repeat apply Rmult_lt_0_compat; assumption).
  destruct (dkw_epsilon_values (Scalar (Fin (k * k * n0))) confidence _ cs
              eq_refl Hkn Hcs Hall) as (out' & E' & Hout').
  exists out, out'. repeat split; try assumption.
  rewrite Hout, Hout', List.map_map. apply map_ext.
  intros c. now apply dkw_value_scale.
Qed.

Lemma dkw_epsilon_scaling_witness :
  exists out out',
    dkw_epsilon (Scalar (Fin 25)) (Vector [Fin (1 / 2); Fin 1]) = Ok out /\
    dkw_epsilon (Scalar (Fin (2 * 2 * 25))) (Vector [Fin (1 / 2); Fin 1])
    = Ok out' /\
    Np.elements out' = map (fun eps => F.div eps (Fin 2)) (Np.elements out).
Proof.
  apply (dkw_epsilon_scaling 25 2 (Vector [Fin (1 / 2); Fin 1]) [1 / 2; 1]).
  - lra.
  - lra.
  - reflexivity.
  - repeat constructor; lra.
Defined.

(** X4: a nan is not rejected by the validation, whose comparisons are all
    false on it: a nan sample size gives a nan at every confidence that
    passes the test, and a nan confidence gives a nan. *)
Theorem dkw_epsilon_nan :
  (forall confidence,
      Np.any (Np.map (fun c => F.lt c (Fin 0) || F.gt c (Fin 1)) confidence)
      = false ->
      dkw_epsilon (Scalar NaN) confidence
      = Ok (Np.map (fun _ => NaN) confidence)) /\
  (forall n0, 0 < n0 ->
      dkw_epsilon (Scalar (Fin n0)) (Scalar NaN) = Ok (Scalar NaN)).
Proof.
  split.
  - intros confidence Hc. unfold dkw_epsilon.
    cbn [Np.map Np.truth Np.elements F.le bind raise_if]. rewrite Hc.
    cbn [raise_if bind]. unfold Np.map2.
    destruct confidence as [c | lc]; cbn [Np.broadcast2 bind Np.map].
    + do 2 f_equal. destruct (F.log _); reflexivity.
    + do 2 f_equal. rewrite List.map_map. apply map_ext.
      intros c. cbn. destruct (F.log _); reflexivity.
  - intros n0 Hn. rewrite (dkw_epsilon_pos _ _ n0) by (reflexivity || assumption).
    reflexivity.
Qed.

Lemma dkw_epsilon_nan_witness :
  dkw_epsilon (Scalar NaN) (Vector [Fin 0; NaN; Fin 1])
  = Ok (Vector [NaN; NaN; NaN]).
Proof.
  apply (proj1 dkw_epsilon_nan (Vector [Fin 0; NaN; Fin 1])).
  cbn [Np.map Np.any Np.elements List.map existsb].
  rewrite !unit_not_outside by lra. reflexivity.
Defined.

(** ** [sort_by_first]: what the sorting permutation does to the arrays *)

Lemma map_nth_seq {V} (d : V) (l : list V) :
  map (fun i => nth i l d) (seq 0 (length l)) = l.
Proof.
  induction l as [| a l IH]; [reflexivity |].
  cbn [length seq map nth]. f_equal.
  rewrite <- seq_shift, List.map_map. exact IH.
Qed.

Lemma indexed_map {V} (d : V) (arr : list V) p out :
  Forall2 (fun i v => nth_error arr i = Some v) p out ->
  out = map (fun i => nth i arr d) p.
Proof.
  induction 1 as [| i v p out Hi _ IH]; [reflexivity |].
  cbn [map]. f_equal; [| exact IH].
  symmetry. now apply nth_error_nth.
Qed.

Lemma indexed_length {V} (arr : list V) p out :
  Forall2 (fun i v => nth_error arr i = Some v) p out -> length out = length p.
Proof. intros H. symmetry. exact (Forall2_length H). Qed.

(** Indexing by a permutation of the indices rearranges the array. *)
Lemma indexed_permutation {V} (arr : list V) p out :
  Permutation p (seq 0 (length arr)) ->
  Forall2 (fun i v => nth_error arr i = Some v) p out ->
  Permutation arr out.
Proof.
  intros Hperm Hout. destruct arr as [| d arr'] eqn:E.
  - apply Permutation_sym, Permutation_nil in Hperm. subst p.
    inversion Hout. apply perm_nil.
  - rewrite <- E in *. clear E arr'.
    rewrite (indexed_map d arr p out Hout).
    rewrite <- (map_nth_seq d arr) at 1.
    apply Permutation_map. now apply Permutation_sym.
Qed.

Lemma combine_indexed {V} (d1 d2 : V) (a1 a2 : list V) p :
  combine (map (fun i => nth i a1 d1) p) (map (fun i => nth i a2 d2) p)
  = map (fun i => (nth i a1 d1, nth i a2 d2)) p.
Proof. apply combine_map_same. Qed.

(** ... and it rearranges two arrays of one length in step. *)
Lemma indexed_permutation_pair {V} (a1 a2 : list V) p o1 o2 :
  length a1 = length a2 ->
  Permutation p (seq 0 (length a1)) ->
  Forall2 (fun i v => nth_error a1 i = Some v) p o1 ->
  Forall2 (fun i v => nth_error a2 i = Some v) p o2 ->
  Permutation (combine a1 a2) (combine o1 o2).
Proof.
  intros Hlen Hperm H1 H2. destruct a1 as [| d1 a1'] eqn:E1.
  - apply Permutation_sym, Permutation_nil in Hperm. subst p.
    inversion H1. apply perm_nil.
  - destruct a2 as [| d2 a2'] eqn:E2; [discriminate |].
    rewrite <- E1, <- E2 in *. clear E1 E2 a1' a2'.
    rewrite (indexed_map d1 a1 p o1 H1), (indexed_map d2 a2 p o2 H2).
    rewrite combine_indexed.
    rewrite <- (map_nth_seq d1 a1) at 1. rewrite <- (map_nth_seq d2 a2) at 1.
    rewrite <- Hlen, (combine_indexed d1 d2 a1 a2).
    apply Permutation_map. now apply Permutation_sym.
Qed.

(** X5: on arrays of one length [sort_by_first] returns as many arrays as it
    is given, each a rearrangement of its argument (no element is lost or
    repeated), and any two of them are rearranged in step: the pairs of
    their elements at equal positions are the same before and after. *)
Theorem sort_by_first_rearranges :
  forall (V : Type) (leb : V -> V -> bool) (argsort : list V -> list nat),
    argsort_contract leb argsort ->
    forall first rest,
      Forall (fun arg => length arg = length first) rest ->
      exists outs,
        sort_by_first argsort (first :: rest) = Ok outs /\
        Forall2 (fun arg out => Permutation arg out) (first :: rest) outs /\
        forall j1 j2 a1 a2 o1 o2,
          nth_error (first :: rest) j1 = Some a1 ->
          nth_error (first :: rest) j2 = Some a2 ->
          nth_error outs j1 = Some o1 ->
          nth_error outs j2 = Some o2 ->
          Permutation (combine a1 a2) (combine o1 o2).
Proof.
  intros V leb argsort contract first rest Hlen.
  destruct (contract first) as (Hperm & _).
  destruct (sort_by_first_same_shape V argsort first rest Hlen Hperm)
    as (outs & E & Houts).
  exists outs. split; [exact E |].
  assert (Hall : Forall (fun arg => length arg = length first) (first :: rest))
    by (constructor; [reflexivity | assumption]).
  assert (Hrow : forall j a o,
             nth_error (first :: rest) j = Some a -> nth_error outs j = Some o ->
             length a = length first /\
             Forall2 (fun i v => nth_error a i = Some v) (argsort first) o).
  { clear -Houts Hall. induction Houts as [| arg out args outs Hout _ IH];
      intros j a o Ha Ho.
    - destruct j; discriminate.
    - inversion Hall; subst. destruct j; simpl in Ha, Ho.
      + injection Ha as <-. injection Ho as <-. now split.
      + now apply (IH H2 j). }
  split.
  - clear Hrow E. induction Houts as [| arg out args outs Hout _ IH];
      constructor.
    + inversion Hall; subst.
      apply (indexed_permutation arg (argsort first)); [| assumption].
      now rewrite H1.
    + apply IH. now inversion Hall.
  - intros j1 j2 a1 a2 o1 o2 Ha1 Ha2 Ho1 Ho2.
    destruct (Hrow j1 a1 o1 Ha1 Ho1) as [L1 F1].
    destruct (Hrow j2 a2 o2 Ha2 Ho2) as [L2 F2].
    apply (indexed_permutation_pair a1 a2 (argsort first)); try assumption.
    + congruence.
    + now rewrite L1.
Qed.

Lemma sort_by_first_rearranges_witness :
  exists outs,
    sort_by_first (insertion_argsort Z.leb false)
      [[2; 1; 2; 0]; [10; 20; 30; 40]; [7; 7; 8; 8]]%Z = Ok outs /\
    Forall2 (fun arg out => Permutation arg out)
      [[2; 1; 2; 0]; [10; 20; 30; 40]; [7; 7; 8; 8]]%Z outs.
Proof.
  destruct (sort_by_first_rearranges Z Z.leb (insertion_argsort Z.leb false)
              (insertion_argsort_contract Z.leb false Zleb_total Zleb_trans)
              [2; 1; 2; 0]%Z [[10; 20; 30; 40]; [7; 7; 8; 8]]%Z)
    as (outs & E & Hperm & _).
  - repeat constructor.
  - exists outs. now split.
Defined.

(** *** Uniqueness of the sorting permutation *)

(** Two sorted lists with the same elements are equal when the order is
    antisymmetric on them. *)
Lemma sorted_permutation_unique {A} (R : A -> A -> Prop) :
  forall l1 l2,
    (forall x y, In x l1 -> In y l1 -> R x y -> R y x -> x = y) ->
    StronglySorted R l1 -> StronglySorted R l2 -> Permutation l1 l2 ->
    l1 = l2.
Proof.
  induction l1 as [| a l1 IH]; intros l2 Hanti S1 S2 Hperm.
  - apply Permutation_nil in Hperm. now subst.
  - destruct l2 as [| b l2].
    { apply Permutation_sym, Permutation_nil in Hperm. discriminate. }
    apply StronglySorted_inv in S1 as [S1 F1].
    apply StronglySorted_inv in S2 as [S2 F2].
    rewrite Forall_forall in F1, F2.
    assert (Hab : a = b).
    { assert (Ha : In a (b :: l2))
        by (apply (Permutation_in _ Hperm); now left).
      assert (Hb : In b (a :: l1))
        by (apply (Permutation_in _ (Permutation_sym Hperm)); now left).
      destruct Ha as [-> | Ha]; [reflexivity |].
      destruct Hb as [-> | Hb]; [reflexivity |].
      apply Hanti; [now left | now right | now apply F1 | now apply F2]. }
    subst b. f_equal. apply IH; try assumption.
    + intros x y Hx Hy. apply Hanti; now right.
    + now apply Permutation_cons_inv in Hperm.
Qed.

Lemma indices_sorted {V} (leb : V -> V -> bool) (keys : list V) p sorted :
  Forall2 (fun i v => nth_error keys i = Some v) p sorted ->
  StronglySorted (fun v w => leb v w = true) sorted ->
  StronglySorted (key_le leb keys) p.
Proof.
  induction 1 as [| i v p sorted Hi Hrest IH]; intros Hs; constructor.
  - apply IH. now apply StronglySorted_inv in Hs.
  - apply StronglySorted_inv in Hs as [_ Hv].
    clear IH. induction Hrest as [| j w p sorted Hj _ IH]; constructor.
    + exists v, w. inversion Hv; subst. now repeat split.
    + apply IH. now inversion Hv.
Qed.

Lemma key_le_tied {V} (leb : V -> V -> bool) (keys : list V) i j :
  key_le leb keys i j -> key_le leb keys j i -> tied leb keys i j.
Proof.
  intros (v & w & Hv & Hw & Hvw) (w' & v' & Hw' & Hv' & Hwv).
  unfold tied. rewrite Hv, Hw. split; [assumption | congruence].
Qed.

(** When no two positions of the keys are tied, the sorting permutation
    is the same for every implementation of [np.argsort]. *)
Lemma sorting_permutation_unique {V} (leb : V -> V -> bool) (keys : list V)
  p q sp sq :
  (forall i j, tied leb keys i j -> i = j) ->
  Permutation p (seq 0 (length keys)) ->
  Permutation q (seq 0 (length keys)) ->
  Forall2 (fun i v => nth_error keys i = Some v) p sp ->
  Forall2 (fun i v => nth_error keys i = Some v) q sq ->
  StronglySorted (fun v w => leb v w = true) sp ->
  StronglySorted (fun v w => leb v w = true) sq ->
  p = q.
Proof.
  intros Hties Hp Hq Fp Fq Sp Sq.
  apply (sorted_permutation_unique (key_le leb keys)).
  - intros i j _ _ Hij Hji. apply Hties. now apply key_le_tied.
  - exact (indices_sorted leb keys p sp Fp Sp).
  - exact (indices_sorted leb keys q sq Fq Sq).
  - rewrite Hp. now apply Permutation_sym.
Qed.

Lemma contract_indices {V} (leb : V -> V -> bool) argsort (keys : list V) :
  argsort_contract leb argsort ->
  Permutation (argsort keys) (seq 0 (length keys)) /\
  exists sorted,
    Forall2 (fun i v => nth_error keys i = Some v) (argsort keys) sorted /\
    StronglySorted (fun v w => leb v w = true) sorted.
Proof.
  intros contract. destruct (contract keys) as (Hperm & sorted & E & Hs).
  split; [assumption |]. exists sorted. split; [| assumption].
  destruct (fancy_index_in_range keys (argsort keys)) as (out & E' & Hout).
  { rewrite Hperm. apply Forall_forall. intros i Hi. apply in_seq in Hi. lia. }
  rewrite E in E'. now injection E' as <-.
Qed.

Lemma sort_by_first_ext {V} (argsort1 argsort2 : list V -> list nat) first rest :
  argsort1 first = argsort2 first ->
  sort_by_first argsort1 (first :: rest) = sort_by_first argsort2 (first :: rest).
Proof.
  intros H. unfold sort_by_first.
  change (first_arg (first :: rest)) with first. now rewrite H.
Qed.

(** X6: when no two elements of the first array are tied, the result does
    not depend on how [np.argsort] breaks ties: any two sorts meeting its
    contract give the same arrays. *)
Theorem sort_by_first_determined :
  forall (V : Type) (leb : V -> V -> bool)
         (argsort1 argsort2 : list V -> list nat),
    argsort_contract leb argsort1 -> argsort_contract leb argsort2 ->
    forall first rest,
      (forall i j, tied leb first i j -> i = j) ->
      sort_by_first argsort1 (first :: rest)
      = sort_by_first argsort2 (first :: rest).
Proof.
  intros V leb argsort1 argsort2 C1 C2 first rest Hties.
  apply sort_by_first_ext.
  destruct (contract_indices leb argsort1 first C1) as (P1 & s1 & F1 & S1).
  destruct (contract_indices leb argsort2 first C2) as (P2 & s2 & F2 & S2).
  exact (sorting_permutation_unique leb first _ _ s1 s2 Hties P1 P2 F1 F2 S1 S2).
Qed.

Lemma tied_distinct_Z (keys : list Z) :
  NoDup keys -> forall i j, tied Z.leb keys i j -> i = j.
Proof.
  intros Hnd i j. unfold tied.
  destruct (nth_error keys i) as [v |] eqn:Ei; [| contradiction].
  destruct (nth_error keys j) as [w |] eqn:Ej; [| contradiction].
  intros [Hvw Hwv]. apply Z.leb_le in Hvw, Hwv.
  assert (v = w) by lia. subst w.
  rewrite NoDup_nth_error in Hnd. apply Hnd; [| congruence].
  apply nth_error_Some. congruence.
Qed.

Lemma sort_by_first_determined_witness :
  sort_by_first (insertion_argsort Z.leb true) [[2; 1; 3]; [30; 20; 10]]%Z
  = sort_by_first (insertion_argsort Z.leb false) [[2; 1; 3]; [30; 20; 10]]%Z.
Proof.
  apply (sort_by_first_determined Z Z.leb
           (insertion_argsort Z.leb true) (insertion_argsort Z.leb false)
           (insertion_argsort_contract Z.leb true Zleb_total Zleb_trans)
           (insertion_argsort_contract Z.leb false Zleb_total Zleb_trans)).
  apply tied_distinct_Z.
  repeat constructor; simpl; intuition lia.
Defined.

Lemma seq_sorted {V} (leb : V -> V -> bool) (keys : list V) :
  StronglySorted (fun v w => leb v w = true) keys ->
  forall pre,
    StronglySorted (key_le leb (pre ++ keys)) (seq (length pre) (length keys)).
Proof.
  induction 1 as [| a l Hl IH Ha]; intros pre; [constructor |].
  cbn [length seq]. constructor.
  - specialize (IH (pre ++ [a])).
    rewrite <- app_assoc, length_app in IH. cbn [length app] in IH.
    now rewrite Nat.add_1_r in IH.
  - apply Forall_forall. intros j Hj. apply in_seq in Hj.
    assert (Hjth : exists w, nth_error (pre ++ a :: l) j = Some w /\ In w l).
    { rewrite nth_error_app2 by lia.
      destruct (j - length pre)%nat as [| m] eqn:Em; [lia |]. cbn [nth_error].
      destruct (nth_error l m) as [w |] eqn:Ew.
      - exists w. split; [reflexivity |]. now apply nth_error_In in Ew.
      - apply nth_error_None in Ew. lia. }
    destruct Hjth as (w & Hw & Hin).
    exists a, w. repeat split; try assumption.
    + rewrite nth_error_app2 by lia. now rewrite Nat.sub_diag.
    + rewrite Forall_forall in Ha. now apply Ha.
Qed.

Lemma identity_indexed {V} (arr : list V) :
  forall pre,
    Forall2 (fun i v => nth_error (pre ++ arr) i = Some v)
      (seq (length pre) (length arr)) arr.
Proof.
  induction arr as [| a l IH]; intros pre; [constructor |].
  cbn [length seq]. constructor.
  - rewrite nth_error_app2 by lia. now rewrite Nat.sub_diag.
  - specialize (IH (pre ++ [a])).
    rewrite <- app_assoc, length_app in IH. cbn [length app] in IH.
    now rewrite Nat.add_1_r in IH.
Qed.

Lemma indexed_functional {V} (arr : list V) p out out' :
  Forall2 (fun i v => nth_error arr i = Some v) p out ->
  Forall2 (fun i v => nth_error arr i = Some v) p out' ->
  out = out'.
Proof.
  intros H. revert out'.
  induction H as [| i v p out Hi _ IH]; intros out' H'; inversion H'; subst;
    [reflexivity |].
  f_equal; [congruence | now apply IH].
Qed.

(** X7: when the first array is already ascending and has no ties, every
    array is returned as it was given. *)
Theorem sort_by_first_sorted_input :
  forall (V : Type) (leb : V -> V -> bool) (argsort : list V -> list nat),
    argsort_contract leb argsort ->
    forall first rest,
      Forall (fun arg => length arg = length first) rest ->
      StronglySorted (fun v w => leb v w = true) first ->
      (forall i j, tied leb first i j -> i = j) ->
      sort_by_first argsort (first :: rest) = Ok (first :: rest).
Proof.
  intros V leb argsort contract first rest Hlen Hsorted Hties.
  destruct (contract_indices leb argsort first contract) as (Hperm & s & Fs & Ss).
  assert (Hid : argsort first = seq 0 (length first)).
  { apply (sorting_permutation_unique leb first _ _ s first Hties Hperm
             (Permutation_refl _) Fs (identity_indexed first []) Ss Hsorted). }
  destruct (sort_by_first_same_shape V argsort first rest Hlen Hperm)
    as (outs & E & Houts).
  rewrite E. f_equal. rewrite Hid in Houts.
  assert (Hall : Forall (fun arg => length arg = length first) (first :: rest))
    by (constructor; [reflexivity | assumption]).
  clear -Houts Hall. induction Houts as [| arg out args outs Hout _ IH];
    [reflexivity |].
  inversion Hall; subst. f_equal; [| now apply IH].
  rewrite <- H1 in Hout.
  exact (indexed_functional arg _ _ _ Hout (identity_indexed arg [])).
Qed.

Lemma sort_by_first_sorted_input_witness :
  sort_by_first (insertion_argsort Z.leb false) [[1; 2; 3]; [3; 2; 1]]%Z
  = Ok [[1; 2; 3]; [3; 2; 1]]%Z.
Proof.
  apply (sort_by_first_sorted_input Z Z.leb (insertion_argsort Z.leb false)
           (insertion_argsort_contract Z.leb false Zleb_total Zleb_trans)).
  - repeat constructor.
  - repeat constructor.
  - apply tied_distinct_Z. repeat constructor; simpl; intuition lia.
Defined.

(** ** [binomial_confidence_interval]: what the bounds mean *)

Lemma Forall2_map_r {E B} (P : E -> B -> Prop) (g : E -> B) (l : list E) :
  (forall e, In e l -> P e (g e)) -> Forall2 P l (List.map g l).
Proof.
  induction l as [| e l IH]; simpl; intros H; constructor.
  - apply H. now left.
  - apply IH. intros e' He'. apply H. now right.
Qed.

(** The entries of a valid call. *)
Lemma binomial_entries ks ns (conf : ndarray float64) kn env :
  all (fun k => (0 <= k)%Z) ks -> all (fun n => (1 <= n)%Z) ns ->
  all in_unit conf ->
  Np.broadcast2 ks ns = Ok kn -> all (fun '(k, n) => (k <= n)%Z) kn ->
  Np.broadcast2 kn conf = Ok env ->
  forall e, In e (Np.elements env) ->
    exists k n c, e = (k, n, Fin c) /\
                  (0 <= k <= n)%Z /\ (1 <= n)%Z /\ 0 <= c <= 1.
Proof.
  intros Hk Hn Hc Hkn Hle Henv [[k n] c] Hin.
  destruct (broadcast2_viewed _ _ _ Hkn) as [Vk Vn].
  destruct (broadcast2_viewed _ _ _ Henv) as [Vkn Vc].
  pose proof (viewed_all _ _ _ _ (viewed_trans _ _ _ _ _ Vk Vkn) Hk _ Hin) as Hk0.
  pose proof (viewed_all _ _ _ _ (viewed_trans _ _ _ _ _ Vn Vkn) Hn _ Hin) as Hn0.
  pose proof (viewed_all _ _ _ _ Vkn Hle _ Hin) as Hle0.
  destruct (viewed_all _ _ _ _ Vc Hc _ Hin) as (rc & Ec & Hrc).
  simpl in Hk0, Hn0, Hle0, Ec. subst c.
  exists k, n, rc. repeat split; (assumption || lia || lra).
Qed.

Lemma binomial_confidence_interval_scalar beta (k n : Z) c :
  (0 <= k <= n)%Z -> (1 <= n)%Z -> 0 <= c <= 1 ->
  binomial_confidence_interval beta (Scalar k) (Scalar n) (Scalar (Fin c))
  = Ok (Scalar (clopper_pearson_lo beta k n (Fin c)),
        Scalar (clopper_pearson_hi beta k n (Fin c))).
Proof.
  intros Hk Hn Hc.
  apply (binomial_confidence_interval_valid beta _ _ _
           (Scalar (k, n)) (Scalar (k, n, Fin c)));
    try reflexivity; repeat constructor; try lia.
  exists c. now split.
Qed.

Section ClopperPearson.

Variable beta : BetaEvaluator.
Hypothesis contract : BetaContract beta.

(** The lower bound solves [P(at least k successes) = (1 - c) / 2]. *)
Lemma clopper_pearson_lo_tail (k n : Z) c :
(0 <= k <= n)%Z -> (1 <= n)%Z -> 0 <= c <= 1 ->
exists x, clopper_pearson_lo beta k n (Fin c) = Fin x /\ 0 <= x <= 1 /\
          (k = 0%Z -> x = 0) /\
          ((1 <= k)%Z ->
           binom_tail (Z.to_nat n) (Z.to_nat k) x = (1 - c) / 2).
Proof.
intros Hk Hn Hc. unfold clopper_pearson_lo.
destruct (confidence_levels c Hc) as [-> _].
destruct (Z.eqb_spec k 0) as [-> | Hk0].
- exists 0. repeat split; (lra || lia).
- destruct (quantile_int beta contract k (n - k + 1) ((1 - c) / 2))
    as (-> & Hu & Hbu); try lia; try lra.
  eexists. split; [reflexivity |]. split; [assumption |].
  split; [lia |]. intros _.
  replace (Z.to_nat (k + (n - k + 1) - 1)) with (Z.to_nat n) in Hbu
    by (f_equal; lia).
  exact Hbu.
Qed.

(** The upper bound solves [P(at most k successes) = (1 - c) / 2]. *)
Lemma clopper_pearson_hi_tail (k n : Z) c :
(0 <= k <= n)%Z -> (1 <= n)%Z -> 0 <= c <= 1 ->
exists y, clopper_pearson_hi beta k n (Fin c) = Fin y /\ 0 <= y <= 1 /\
          (k = n -> y = 1) /\
          ((k < n)%Z ->
           1 - binom_tail (Z.to_nat n) (S (Z.to_nat k)) y = (1 - c) / 2).
Proof.
intros Hk Hn Hc. unfold clopper_pearson_hi.
destruct (confidence_levels c Hc) as [-> ->].
destruct (Z.eqb_spec k n) as [-> | Hkn].
- exists 1. repeat split; (lra || lia).
- destruct (quantile_int beta contract (k + 1) (n - k) ((1 + c) / 2))
    as (-> & Hv & Hbv); try lia; try lra.
  eexists. split; [reflexivity |]. split; [assumption |].
  split; [lia |]. intros _.
  replace (Z.to_nat (k + 1 + (n - k) - 1)) with (Z.to_nat n) in Hbv
    by (f_equal; lia).
  replace (Z.to_nat (k + 1)) with (S (Z.to_nat k)) in Hbv by lia.
  rewrite Hbv. lra.
Qed.

End ClopperPearson.

(** X8: the bounds are the success probabilities at which the observed
    count stops being plausible.  At the lower bound the probability of at
    least [n_successes] successes in [n_total] trials is
    [(1 - confidence) / 2] (the bound is 0 when there is no success); at
    the upper bound the probability of at most [n_successes] successes is
    [(1 - confidence) / 2] (the bound is 1 when every trial succeeds). *)
Theorem binomial_confidence_interval_tails :
  forall beta : BetaEvaluator,
    BetaContract beta ->
    forall ks ns conf kn env,
      all (fun k => (0 <= k)%Z) ks -> all (fun n => (1 <= n)%Z) ns ->
      all in_unit conf ->
      Np.broadcast2 ks ns = Ok kn -> all (fun '(k, n) => (k <= n)%Z) kn ->
      Np.broadcast2 kn conf = Ok env ->
      exists lo hi,
        binomial_confidence_interval beta ks ns conf = Ok (lo, hi) /\
        Forall2
          (fun '(k, n, c) l =>
             exists x, l = Fin x /\ 0 <= x <= 1 /\
               (k = 0%Z -> x = 0) /\
               ((1 <= k)%Z ->
                binom_tail (Z.to_nat n) (Z.to_nat k) x = (1 - to_R c) / 2))
          (Np.elements env) (Np.elements lo) /\
        Forall2
          (fun '(k, n, c) h =>
             exists y, h = Fin y /\ 0 <= y <= 1 /\
               (k = n -> y = 1) /\
               ((k < n)%Z ->
                1 - binom_tail (Z.to_nat n) (S (Z.to_nat k)) y
                = (1 - to_R c) / 2))
          (Np.elements env) (Np.elements hi).
Proof.
  intros beta contract ks ns conf kn env Hk Hn Hc Hkn Hle Henv.
  rewrite (binomial_confidence_interval_valid beta ks ns conf kn env)
    by assumption.
  do 2 eexists. split; [reflexivity |].
  rewrite !elements_map. split; apply Forall2_map_r; intros e Hin;
    destruct (binomial_entries ks ns conf kn env Hk Hn Hc Hkn Hle Henv e Hin)
      as (k & n & c & -> & Hk0 & Hn0 & Hc0); cbn [to_R].
  - now apply clopper_pearson_lo_tail.
  - now apply clopper_pearson_hi_tail.
Qed.

Lemma binomial_confidence_interval_tails_witness :
  exists lo hi,
    binomial_confidence_interval reference_beta
      (Vector [0; 3; 10]%Z) (Scalar 10%Z) (Scalar (Fin (9 / 10))) = Ok (lo, hi) /\
    Forall2
      (fun '(k, n, c) l =>
         exists x, l = Fin x /\ 0 <= x <= 1 /\
           (k = 0%Z -> x = 0) /\
           ((1 <= k)%Z ->
            binom_tail (Z.to_nat n) (Z.to_nat k) x = (1 - to_R c) / 2))
      [(0, 10, Fin (9 / 10)); (3, 10, Fin (9 / 10)); (10, 10, Fin (9 / 10))]%Z
      (Np.elements lo).
Proof.
  destruct (binomial_confidence_interval_tails reference_beta
              reference_beta_contract
              (Vector [0; 3; 10]%Z) (Scalar 10%Z) (Scalar (Fin (9 / 10)))
              (Vector [(0, 10); (3, 10); (10, 10)]%Z)
              (Vector [(0, 10, Fin (9 / 10)); (3, 10, Fin (9 / 10));
                       (10, 10, Fin (9 / 10))]%Z))
    as (lo & hi & E & Hlo & _).
  - repeat constructor; lia.
  - repeat constructor; lia.
  - repeat constructor. exists (9 / 10). split; [reflexivity | lra].
  - reflexivity.
  - repeat constructor; lia.
  - reflexivity.
  - exists lo, hi. split; [exact E | exact Hlo].
Defined.

(** *** Monotonicity *)

Section ClopperPearsonOrder.

Variable beta : BetaEvaluator.
Hypothesis contract : BetaContract beta.

Lemma tail_solution_le n k1 k2 x1 x2 q1 q2 :
(1 <= k2 <= n)%nat -> (k1 <= k2)%nat ->
0 <= x1 <= 1 -> 0 <= x2 <= 1 ->
binom_tail n k1 x1 = q1 -> binom_tail n k2 x2 = q2 -> q1 <= q2 ->
x1 <= x2.
Proof.
intros Hk2 Hk Hx1 Hx2 E1 E2 Hq.
destruct (Rle_or_lt x1 x2) as [? | Hlt]; [assumption | exfalso].
pose proof (binom_tail_increasing n k2 x2 x1 Hk2 ltac:(lra) Hlt ltac:(lra)) as Hinc.
assert (Hanti : binom_tail n k2 x1 <= binom_tail n k1 x1).
{ clear -Hk Hx1. induction Hk as [| k2 Hk IH]; [lra |].
  pose proof (binom_tail_antitone n k2 x1 Hx1). lra. }
lra.
Qed.

(** A higher confidence widens the interval of one entry. *)
Lemma clopper_pearson_nested (k n : Z) c1 c2 :
(0 <= k <= n)%Z -> (1 <= n)%Z -> 0 <= c1 -> c1 <= c2 -> c2 <= 1 ->
exists l1 h1 l2 h2,
  clopper_pearson_lo beta k n (Fin c1) = Fin l1 /\
  clopper_pearson_hi beta k n (Fin c1) = Fin h1 /\
  clopper_pearson_lo beta k n (Fin c2) = Fin l2 /\
  clopper_pearson_hi beta k n (Fin c2) = Fin h2 /\
  l2 <= l1 /\ h1 <= h2.
Proof.
intros Hk Hn Hc1 Hc Hc2.
destruct (clopper_pearson_lo_tail beta contract k n c1 Hk Hn ltac:(lra))
  as (l1 & El1 & Ul1 & Zl1 & Tl1).
destruct (clopper_pearson_lo_tail beta contract k n c2 Hk Hn ltac:(lra))
  as (l2 & El2 & Ul2 & Zl2 & Tl2).
destruct (clopper_pearson_hi_tail beta contract k n c1 Hk Hn ltac:(lra))
  as (h1 & Eh1 & Uh1 & Zh1 & Th1).
destruct (clopper_pearson_hi_tail beta contract k n c2 Hk Hn ltac:(lra))
  as (h2 & Eh2 & Uh2 & Zh2 & Th2).
exists l1, h1, l2, h2. repeat split; try assumption.
- destruct (Z.eq_dec k 0) as [-> | Hk0].
  + rewrite Zl1, Zl2 by reflexivity. lra.
  + apply (tail_solution_le (Z.to_nat n) (Z.to_nat k) (Z.to_nat k) l2 l1
             ((1 - c2) / 2) ((1 - c1) / 2)); try lia; try assumption;
      try (apply Tl1 || apply Tl2); try lia; lra.
- destruct (Z.eq_dec k n) as [-> | Hkn].
  + rewrite Zh1, Zh2 by reflexivity. lra.
  + apply (tail_solution_le (Z.to_nat n) (S (Z.to_nat k)) (S (Z.to_nat k)) h1 h2
             ((1 + c1) / 2) ((1 + c2) / 2)); try lia; try assumption;
      try (specialize (Th1 ltac:(lia)); lra);
      try (specialize (Th2 ltac:(lia)); lra); lra.
Qed.

(** One more success moves both bounds of one entry up. *)
Lemma clopper_pearson_step (k n : Z) c :
(0 <= k < n)%Z -> 0 <= c <= 1 ->
exists l1 h1 l2 h2,
  clopper_pearson_lo beta k n (Fin c) = Fin l1 /\
  clopper_pearson_hi beta k n (Fin c) = Fin h1 /\
  clopper_pearson_lo beta (k + 1) n (Fin c) = Fin l2 /\
  clopper_pearson_hi beta (k + 1) n (Fin c) = Fin h2 /\
  l1 <= l2 /\ h1 <= h2.
Proof.
intros Hk Hc.
destruct (clopper_pearson_lo_tail beta contract k n c ltac:(lia) ltac:(lia) Hc)
  as (l1 & El1 & Ul1 & Zl1 & Tl1).
destruct (clopper_pearson_lo_tail beta contract (k + 1) n c
            ltac:(lia) ltac:(lia) Hc)
  as (l2 & El2 & Ul2 & Zl2 & Tl2).
destruct (clopper_pearson_hi_tail beta contract k n c ltac:(lia) ltac:(lia) Hc)
  as (h1 & Eh1 & Uh1 & Zh1 & Th1).
destruct (clopper_pearson_hi_tail beta contract (k + 1) n c
            ltac:(lia) ltac:(lia) Hc)
  as (h2 & Eh2 & Uh2 & Zh2 & Th2).
exists l1, h1, l2, h2. repeat split; try assumption.
- destruct (Z.eq_dec k 0) as [-> | Hk0].
  + rewrite Zl1 by reflexivity. lra.
  + apply (tail_solution_le (Z.to_nat n) (Z.to_nat k) (Z.to_nat (k + 1)) l1 l2
             ((1 - c) / 2) ((1 - c) / 2)); try lia; try assumption;
      try (apply Tl1 || apply Tl2); try lia; lra.
- destruct (Z.eq_dec (k + 1) n) as [Hkn | Hkn].
  + rewrite (Zh2 Hkn). lra.
  + specialize (Th1 ltac:(lia)). specialize (Th2 ltac:(lia)).
    apply (tail_solution_le (Z.to_nat n) (S (Z.to_nat k))
             (S (Z.to_nat (k + 1))) h1 h2 ((1 + c) / 2) ((1 + c) / 2));
      try lia; try assumption; lra.
Qed.

End ClopperPearsonOrder.

(** X9: a higher confidence gives a wider interval: for [c1 <= c2] the
    interval at confidence [c1] lies inside the interval at confidence
    [c2]; at confidence 1 the interval is all of [[0, 1]]. *)
Theorem binomial_confidence_interval_nested :
  forall beta : BetaEvaluator,
    BetaContract beta ->
    forall (k n : Z) (c1 c2 : R),
      (0 <= k <= n)%Z -> (1 <= n)%Z -> 0 <= c1 -> c1 <= c2 -> c2 <= 1 ->
      (exists l1 h1 l2 h2,
          binomial_confidence_interval beta
            (Scalar k) (Scalar n) (Scalar (Fin c1))
          = Ok (Scalar (Fin l1), Scalar (Fin h1)) /\
          binomial_confidence_interval beta
            (Scalar k) (Scalar n) (Scalar (Fin c2))
          = Ok (Scalar (Fin l2), Scalar (Fin h2)) /\
          l2 <= l1 /\ h1 <= h2) /\
      binomial_confidence_interval beta (Scalar k) (Scalar n) (Scalar (Fin 1))
      = Ok (Scalar (Fin 0), Scalar (Fin 1)).
Proof.
  intros beta contract k n c1 c2 Hk Hn Hc1 Hc Hc2. split.
  - destruct (clopper_pearson_nested beta contract k n c1 c2 Hk Hn Hc1 Hc Hc2)
      as (l1 & h1 & l2 & h2 & El1 & Eh1 & El2 & Eh2 & Hl & Hh).
    exists l1, h1, l2, h2.
    rewrite !binomial_confidence_interval_scalar by (assumption || lra).
    rewrite El1, Eh1, El2, Eh2. now repeat split.
  - rewrite binomial_confidence_interval_scalar by (assumption || lra).
    destruct (clopper_pearson_lo_tail beta contract k n 1 Hk Hn ltac:(lra))
      as (l & El & Ul & Zl & Tl).
    destruct (clopper_pearson_hi_tail beta contract k n 1 Hk Hn ltac:(lra))
      as (h & Eh & Uh & Zh & Th).
    rewrite El, Eh. do 4 f_equal.
    + destruct (Z.eq_dec k 0) as [-> | Hk0]; [now apply Zl |].
      specialize (Tl ltac:(lia)).
      destruct (Req_dec l 0) as [? | Hne]; [assumption | exfalso].
      pose proof (binom_tail_increasing (Z.to_nat n) (Z.to_nat k) 0 l
                    ltac:(lia) ltac:(lra) ltac:(lra) ltac:(lra)) as Hinc.
      rewrite binom_tail_at_0 in Hinc by lia. lra.
    + destruct (Z.eq_dec k n) as [-> | Hkn]; [now apply Zh |].
      specialize (Th ltac:(lia)).
      destruct (Req_dec h 1) as [? | Hne]; [assumption | exfalso].
      pose proof (binom_tail_increasing (Z.to_nat n) (S (Z.to_nat k)) h 1
                    ltac:(lia) ltac:(lra) ltac:(lra) ltac:(lra)) as Hinc.
      rewrite binom_tail_at_1 in Hinc by lia. lra.
Qed.

Lemma binomial_confidence_interval_nested_witness :
  binomial_confidence_interval reference_beta
    (Scalar 3%Z) (Scalar 10%Z) (Scalar (Fin 1))
  = Ok (Scalar (Fin 0), Scalar (Fin 1)).
Proof.
  apply (binomial_confidence_interval_nested reference_beta
           reference_beta_contract 3 10 (1 / 2) (9 / 10)); (lia || lra).
Defined.

(** X10: one more success among the same number of trials moves both bounds
    up (or leaves them in place). *)
Theorem binomial_confidence_interval_monotone :
  forall beta : BetaEvaluator,
    BetaContract beta ->
    forall (k n : Z) (c : R),
      (0 <= k < n)%Z -> 0 <= c <= 1 ->
      exists l1 h1 l2 h2,
        binomial_confidence_interval beta
          (Scalar k) (Scalar n) (Scalar (Fin c))
        = Ok (Scalar (Fin l1), Scalar (Fin h1)) /\
        binomial_confidence_interval beta
          (Scalar (k + 1)%Z) (Scalar n) (Scalar (Fin c))
        = Ok (Scalar (Fin l2), Scalar (Fin h2)) /\
        l1 <= l2 /\ h1 <= h2.
Proof.
  intros beta contract k n c Hk Hc.
  destruct (clopper_pearson_step beta contract k n c Hk Hc)
    as (l1 & h1 & l2 & h2 & El1 & Eh1 & El2 & Eh2 & Hl & Hh).
  exists l1, h1, l2, h2.
  rewrite !binomial_confidence_interval_scalar by (lia || lra).
  rewrite El1, Eh1, El2, Eh2. now repeat split.
Qed.

Lemma binomial_confidence_interval_monotone_witness :
  exists l1 h1 l2 h2,
    binomial_confidence_interval reference_beta
      (Scalar 3%Z) (Scalar 10%Z) (Scalar (Fin (1 / 2)))
    = Ok (Scalar (Fin l1), Scalar (Fin h1)) /\
    binomial_confidence_interval reference_beta
      (Scalar (3 + 1)%Z) (Scalar 10%Z) (Scalar (Fin (1 / 2)))
    = Ok (Scalar (Fin l2), Scalar (Fin h2)) /\
    l1 <= l2 /\ h1 <= h2.
Proof.
  apply (binomial_confidence_interval_monotone reference_beta
           reference_beta_contract 3 10 (1 / 2)); (lia || lra).
Defined.

(** *** No success, or nothing but successes *)

Lemma binom_tail_all n x : binom_tail n n x = x ^ n.
Proof.
  induction n as [| n IH]; [reflexivity |].
  rewrite binom_tail_S, IH, binom_tail_above by lia. simpl. ring.
Qed.

Lemma binom_tail_any n x : binom_tail n 1 x = 1 - (1 - x) ^ n.
Proof.
  induction n as [| n IH]; [simpl; ring |].
  rewrite binom_tail_S, IH, binom_tail_0. simpl. ring.
Qed.

(** X11: with no success among [n] trials the interval is [[0, hi]] with
    [(1 - hi)^n = (1 - confidence) / 2], and with [n] successes it is
    [[lo, 1]] with [lo^n = (1 - confidence) / 2]. *)
Theorem binomial_confidence_interval_extremes :
  forall beta : BetaEvaluator,
    BetaContract beta ->
    forall (n : Z) (c : R),
      (1 <= n)%Z -> 0 <= c <= 1 ->
      (exists hi,
          binomial_confidence_interval beta
            (Scalar 0%Z) (Scalar n) (Scalar (Fin c))
          = Ok (Scalar (Fin 0), Scalar (Fin hi)) /\
          0 <= hi <= 1 /\ (1 - hi) ^ Z.to_nat n = (1 - c) / 2) /\
      (exists lo,
          binomial_confidence_interval beta
            (Scalar n) (Scalar n) (Scalar (Fin c))
          = Ok (Scalar (Fin lo), Scalar (Fin 1)) /\
          0 <= lo <= 1 /\ lo ^ Z.to_nat n = (1 - c) / 2).
Proof.
  intros beta contract n c Hn Hc. split.
  - destruct (clopper_pearson_lo_tail beta contract 0 n c ltac:(lia) Hn Hc)
      as (l & El & Ul & Zl & Tl).
    destruct (clopper_pearson_hi_tail beta contract 0 n c ltac:(lia) Hn Hc)
      as (h & Eh & Uh & Zh & Th).
    exists h. rewrite binomial_confidence_interval_scalar by (lia || lra).
    rewrite El, Eh, (Zl eq_refl). split; [reflexivity |]. split; [assumption |].
    specialize (Th ltac:(lia)). change (S (Z.to_nat 0)) with 1%nat in Th.
    rewrite binom_tail_any in Th. lra.
  - destruct (clopper_pearson_lo_tail beta contract n n c ltac:(lia) Hn Hc)
      as (l & El & Ul & Zl & Tl).
    destruct (clopper_pearson_hi_tail beta contract n n c ltac:(lia) Hn Hc)
      as (h & Eh & Uh & Zh & Th).
    exists l. rewrite binomial_confidence_interval_scalar by (lia || lra).
    rewrite El, Eh, (Zh eq_refl). split; [reflexivity |]. split; [assumption |].
    specialize (Tl ltac:(lia)). now rewrite binom_tail_all in Tl.
Qed.

Lemma binomial_confidence_interval_extremes_witness :
  exists hi,
    binomial_confidence_interval reference_beta
      (Scalar 0%Z) (Scalar 20%Z) (Scalar (Fin (9 / 10)))
    = Ok (Scalar (Fin 0), Scalar (Fin hi)) /\
    0 <= hi <= 1 /\ (1 - hi) ^ Z.to_nat 20 = (1 - 9 / 10) / 2.
Proof.
  apply (binomial_confidence_interval_extremes reference_beta
           reference_beta_contract 20 (9 / 10)); (lia || lra).
Defined.

(** ** Equal-tailed intervals and their coverage *)

(** Broadcasting against an array of the full shape, on the right. *)
Lemma broadcast2_full_r {E A B} (x : ndarray A) (g1 : E -> A) (g2 : E -> B) env :
  viewed x g1 env ->
  Np.broadcast2 x (Np.map g2 env) = Ok (Np.map (fun e => (g1 e, g2 e)) env).
Proof.
  intros [-> | (v & Hg & Hx)].
  - destruct env as [e | l]; simpl; [reflexivity |].
    rewrite !length_map, Nat.eqb_refl. now rewrite combine_map_same.
  - assert (Hext : forall l, (forall e, In e l -> g1 e = v) ->
               List.map (pair v) (List.map g2 l)
               = List.map (fun e => (g1 e, g2 e)) l).
    { intros l Hl. rewrite List.map_map. apply map_ext_in.
      intros e He. now rewrite Hl. }
    destruct Hx as [-> | [-> Hs]].
    + destruct env as [e | l]; simpl in *.
      * now rewrite Hg by (now left).
      * now rewrite Hext.
    + destruct env as [e | l]; simpl in *; [now elim Hs |].
      destruct l as [| e [| e' l]]; simpl in *.
      * reflexivity.
      * now rewrite Hg by (now left).
      * rewrite (Hg e) by (now left). rewrite (Hg e') by (right; now left).
        do 3 f_equal. rewrite <- Hext by (intros; apply Hg; auto). reflexivity.
Qed.

(** An elementwise operation of the first two arguments of a broadcast
    and an array of its shape. *)
Lemma map3_last_full {A B C D R} (f : A -> B -> D -> R) x y (z : ndarray C)
  (g : A * B * C -> D) env :
  Np.broadcast3 x y z = Ok env ->
  Np.map3 f x y (Np.map g env)
  = Ok (Np.map (fun e => f (fst (fst e)) (snd (fst e)) (g e)) env).
Proof.
  intros Henv.
  destruct (broadcast3_viewed _ _ _ _ Henv) as (xy & Exy & _ & Vxy & _).
  unfold Np.map3, Np.broadcast3. rewrite Exy. cbn [bind].
  rewrite (broadcast2_full_r xy fst g env Vxy). cbn [bind].
  rewrite map_map_nd. f_equal. apply map_ext_nd. now intros [[a b] c] _.
Qed.

(** The entries of a broadcast of positive shape parameters and values of
    the unit interval. *)
Lemma unit_entries (a b c : ndarray float64) env :
  all positive a -> all positive b -> all in_unit c ->
  Np.broadcast3 a b c = Ok env ->
  forall e, In e (Np.elements env) ->
    exists a0 b0 c0, e = (Fin a0, Fin b0, Fin c0) /\
                     0 < a0 /\ 0 < b0 /\ 0 <= c0 <= 1.
Proof.
  intros Ha Hb Hc Henv [[a0 b0] c0] Hin.
  destruct (broadcast3_viewed _ _ _ _ Henv) as (_ & _ & _ & _ & Hva & Hvb & Hvc).
  destruct (viewed_all _ _ _ _ Hva Ha _ Hin) as (ra & Ea & Hra).
  destruct (viewed_all _ _ _ _ Hvb Hb _ Hin) as (rb & Eb & Hrb).
  destruct (viewed_all _ _ _ _ Hvc Hc _ Hin) as (rc & Ec & Hrc).
  simpl in Ea, Eb, Ec. subst. exists ra, rb, rc. now repeat split.
Qed.

Section EqualTailedCoverage.

Variable beta : BetaEvaluator.
Hypothesis contract : BetaContract beta.

(** The quantile function is also a left inverse on the unit interval. *)
Lemma ppfR_cdfR a b x : 0 < a -> 0 < b -> 0 <= x <= 1 ->
ppf_R beta a b (cdf_R beta a b x) = x.
Proof.
intros Ha Hb Hx.
destruct (cdf_real beta contract a b x Ha Hb) as [_ Hp].
destruct (ppf_real beta contract a b _ Ha Hb Hp) as [_ Hu].
pose proof (cdfR_ppfR beta contract a b _ Ha Hb Hp) as Hc.
apply Rle_antisym; apply (cdfR_le_reflect beta contract a b);
  try assumption; lra.
Qed.

Lemma cdfR_0 a b : 0 < a -> 0 < b -> cdf_R beta a b 0 = 0.
Proof.
intros Ha Hb. rewrite <- (ppfR_0 beta contract a b Ha Hb) at 1.
apply cdfR_ppfR; (assumption || lra).
Qed.

Lemma cdfR_1 a b : 0 < a -> 0 < b -> cdf_R beta a b 1 = 1.
Proof.
intros Ha Hb. rewrite <- (ppfR_1 beta contract a b Ha Hb) at 1.
apply cdfR_ppfR; (assumption || lra).
Qed.

Lemma cdfR_monotone a b x y : 0 < a -> 0 < b ->
0 <= x -> x <= y -> y <= 1 -> cdf_R beta a b x <= cdf_R beta a b y.
Proof.
intros Ha Hb Hx [Hlt | ->] Hy; [| lra].
left. now apply cdfR_increasing.
Qed.

(** The two kernels on reals. *)
Lemma coverage_kernel a b x : 0 < a -> 0 < b ->
F.mul (Fin 2) (F.abs (F.sub (Fin (1 / 2)) (cdf beta (Fin a) (Fin b) (Fin x))))
= Fin (2 * Rabs (1 / 2 - cdf_R beta a b x)).
Proof.
intros Ha Hb. destruct (cdf_real beta contract a b x Ha Hb) as [-> _].
simpl. do 2 f_equal.
Qed.

Lemma coverage_kernel_unit a b x : 0 < a -> 0 < b ->
0 <= 2 * Rabs (1 / 2 - cdf_R beta a b x) <= 1.
Proof.
intros Ha Hb. destruct (cdf_real beta contract a b x Ha Hb) as [_ Hp].
unfold Rabs. destruct (Rcase_abs _); lra.
Qed.

Lemma lower_kernel a b c : 0 < a -> 0 < b -> 0 <= c <= 1 ->
ppf beta (Fin a) (Fin b) (F.div (F.sub (Fin 1) (Fin c)) (Fin 2))
= Fin (ppf_R beta a b ((1 - c) / 2)).
Proof.
intros Ha Hb Hc. rewrite <- half_minus.
now destruct (ppf_real beta contract a b ((1 - c) / 2) Ha Hb ltac:(lra)) as [-> _].
Qed.

Lemma upper_kernel a b c : 0 < a -> 0 < b -> 0 <= c <= 1 ->
ppf beta (Fin a) (Fin b) (F.div (F.add (Fin 1) (Fin c)) (Fin 2))
= Fin (ppf_R beta a b ((1 + c) / 2)).
Proof.
intros Ha Hb Hc. rewrite <- half_plus.
now destruct (ppf_real beta contract a b ((1 + c) / 2) Ha Hb ltac:(lra)) as [-> _].
Qed.

Lemma beta_equal_tailed_interval_scalar a b c :
0 < a -> 0 < b -> 0 <= c <= 1 ->
beta_equal_tailed_interval beta (Scalar (Fin a)) (Scalar (Fin b)) (Scalar (Fin c))
= Ok (Scalar (Fin (ppf_R beta a b ((1 - c) / 2))),
      Scalar (Fin (ppf_R beta a b ((1 + c) / 2)))).
Proof.
intros Ha Hb Hc.
rewrite (beta_equal_tailed_interval_valid beta _ _ _ (Scalar (Fin a, Fin b, Fin c)));
  try reflexivity;
  try (repeat constructor; eexists; split; [reflexivity | assumption]).
cbn [Np.map]. now rewrite lower_kernel, upper_kernel.
Qed.

End EqualTailedCoverage.

(** X12: [beta_equal_tailed_coverage] undoes [beta_equal_tailed_interval]:
    the coverage of either endpoint of the interval computed for
    [coverage] is [coverage] again (broadcast to the common shape). *)
Theorem equal_tailed_coverage_of_interval :
  forall beta : BetaEvaluator,
    BetaContract beta ->
    forall (a b coverage : ndarray float64) env,
      all positive a -> all positive b -> all in_unit coverage ->
      Np.broadcast3 a b coverage = Ok env ->
      exists lo hi,
        beta_equal_tailed_interval beta a b coverage = Ok (lo, hi) /\
        beta_equal_tailed_coverage beta a b lo = Ok (Np.map snd env) /\
        beta_equal_tailed_coverage beta a b hi = Ok (Np.map snd env).
Proof.
  intros beta contract a b coverage env Ha Hb Hc Henv.
  rewrite (beta_equal_tailed_interval_valid beta _ _ _ _ Ha Hb Hc Henv).
  do 2 eexists. split; [reflexivity |].
  unfold beta_equal_tailed_coverage.
  rewrite !(map3_last_full _ _ _ _ _ _ Henv).
  split; f_equal; apply map_ext_nd; intros e Hin;
    destruct (unit_entries a b coverage env Ha Hb Hc Henv e Hin)
      as (a0 & b0 & c0 & -> & Ha0 & Hb0 & Hc0); cbn [fst snd].
  - rewrite (lower_kernel beta contract) by assumption.
    rewrite (coverage_kernel beta contract) by assumption.
    rewrite (cdfR_ppfR beta contract) by (assumption || lra).
    f_equal. rewrite Rabs_right by lra. lra.
  - rewrite (upper_kernel beta contract) by assumption.
    rewrite (coverage_kernel beta contract) by assumption.
    rewrite (cdfR_ppfR beta contract) by (assumption || lra).
    f_equal. rewrite Rabs_left1 by lra. lra.
Qed.

Lemma equal_tailed_coverage_of_interval_witness :
  exists lo hi,
    beta_equal_tailed_interval reference_beta
      (Scalar (Fin 2)) (Vector [Fin 3; Fin (1 / 2)]) (Vector [Fin (1 / 4); Fin 1])
    = Ok (lo, hi) /\
    beta_equal_tailed_coverage reference_beta
      (Scalar (Fin 2)) (Vector [Fin 3; Fin (1 / 2)]) lo
    = Ok (Vector [Fin (1 / 4); Fin 1]) /\
    beta_equal_tailed_coverage reference_beta
      (Scalar (Fin 2)) (Vector [Fin 3; Fin (1 / 2)]) hi
    = Ok (Vector [Fin (1 / 4); Fin 1]).
Proof.
  apply (equal_tailed_coverage_of_interval reference_beta reference_beta_contract
           (Scalar (Fin 2)) (Vector [Fin 3; Fin (1 / 2)])
           (Vector [Fin (1 / 4); Fin 1])
           (Vector [(Fin 2, Fin 3, Fin (1 / 4)); (Fin 2, Fin (1 / 2), Fin 1)])).
  - repeat constructor. exists 2. split; [reflexivity | lra].
  - repeat constructor; eexists; (split; [reflexivity | lra]).
  - repeat constructor; eexists; (split; [reflexivity | lra]).
  - reflexivity.
Defined.

(** X13: [beta_equal_tailed_interval] undoes [beta_equal_tailed_coverage]:
    for a point [x] of [[0, 1]], the interval computed for the coverage of
    [x] has [x] as its lower endpoint when [x] is at or below the median,
    and as its upper endpoint when [x] is at or above it. *)
Theorem equal_tailed_interval_of_coverage :
  forall beta : BetaEvaluator,
    BetaContract beta ->
    forall (a b x : ndarray float64) env,
      all positive a -> all positive b -> all in_unit x ->
      Np.broadcast3 a b x = Ok env ->
      exists coverage lo hi,
        beta_equal_tailed_coverage beta a b x = Ok coverage /\
        beta_equal_tailed_interval beta a b coverage = Ok (lo, hi) /\
        Forall2
          (fun '(a0, b0, x0) l =>
             F.le (cdf beta a0 b0 x0) (Fin (1 / 2)) = true -> l = x0)
          (Np.elements env) (Np.elements lo) /\
        Forall2
          (fun '(a0, b0, x0) h =>
             F.le (Fin (1 / 2)) (cdf beta a0 b0 x0) = true -> h = x0)
          (Np.elements env) (Np.elements hi).
Proof.
  intros beta contract a b x env Ha Hb Hx Henv.
  rewrite (beta_equal_tailed_coverage_env beta a b x env Henv).
  eexists. exists
    (Np.map (fun e => ppf beta (fst (fst e)) (snd (fst e))
                        (F.div (F.sub (Fin 1)
                                  (F.mul (Fin 2)
                                     (F.abs (F.sub (Fin (1 / 2))
                                               (cdf beta (fst (fst e)) (snd (fst e))
                                                  (snd e))))))
                               (Fin 2))) env),
    (Np.map (fun e => ppf beta (fst (fst e)) (snd (fst e))
                        (F.div (F.add (Fin 1)
                                  (F.mul (Fin 2)
                                     (F.abs (F.sub (Fin (1 / 2))
                                               (cdf beta (fst (fst e)) (snd (fst e))
                                                  (snd e))))))
                               (Fin 2))) env).
  split; [reflexivity |].
  assert (Hent := unit_entries a b x env Ha Hb Hx Henv).
  split; [| split].
  - unfold beta_equal_tailed_interval.
    rewrite any_false_positive, any_false_positive by assumption.
    rewrite any_false_unit.
    2:{ unfold all. rewrite elements_map. apply Forall_map, Forall_forall.
        intros e Hin.
        destruct (Hent e Hin) as (a0 & b0 & x0 & -> & Ha0 & Hb0 & Hx0).
        rewrite (coverage_kernel beta contract) by assumption.
        eexists. split; [reflexivity |].
        now apply (coverage_kernel_unit beta contract). }
    cbn [raise_if bind].
    rewrite !(map3_last_full _ _ _ _ _ _ Henv). cbn [bind].
    do 2 f_equal; apply map_ext_nd; now intros [[a0 b0] x0] _.
  - rewrite elements_map. apply Forall2_map_r. intros e Hin.
    destruct (Hent e Hin) as (a0 & b0 & x0 & -> & Ha0 & Hb0 & Hx0).
    cbn [fst snd]. intros Hle.
    rewrite (coverage_kernel beta contract) by assumption.
    destruct (cdf_real beta contract a0 b0 x0 Ha0 Hb0) as [Ecdf Hp].
    rewrite Ecdf in Hle. simpl in Hle.
    destruct (Rleb_spec (cdf_R beta a0 b0 x0) (1 / 2)) as [Hhalf |];
      [| discriminate].
    rewrite (lower_kernel beta contract)
      by (try assumption; now apply (coverage_kernel_unit beta contract)).
    f_equal. rewrite Rabs_right by lra.
    replace ((1 - 2 * (1 / 2 - cdf_R beta a0 b0 x0)) / 2)
      with (cdf_R beta a0 b0 x0) by lra.
    now apply (ppfR_cdfR beta contract).
  - rewrite elements_map. apply Forall2_map_r. intros e Hin.
    destruct (Hent e Hin) as (a0 & b0 & x0 & -> & Ha0 & Hb0 & Hx0).
    cbn [fst snd]. intros Hle.
    rewrite (coverage_kernel beta contract) by assumption.
    destruct (cdf_real beta contract a0 b0 x0 Ha0 Hb0) as [Ecdf Hp].
    rewrite Ecdf in Hle. simpl in Hle.
    destruct (Rleb_spec (1 / 2) (cdf_R beta a0 b0 x0)) as [Hhalf |];
      [| discriminate].
    rewrite (upper_kernel beta contract)
      by (try assumption; now apply (coverage_kernel_unit beta contract)).
    f_equal. rewrite Rabs_left1 by lra.
    replace ((1 + 2 * - (1 / 2 - cdf_R beta a0 b0 x0)) / 2)
      with (cdf_R beta a0 b0 x0) by lra.
    now apply (ppfR_cdfR beta contract).
Qed.

Lemma equal_tailed_interval_of_coverage_witness :
  exists coverage lo hi,
    beta_equal_tailed_coverage reference_beta
      (Scalar (Fin 2)) (Scalar (Fin 3)) (Vector [Fin 0; Fin (1 / 4); Fin 1])
    = Ok coverage /\
    beta_equal_tailed_interval reference_beta
      (Scalar (Fin 2)) (Scalar (Fin 3)) coverage = Ok (lo, hi).
Proof.
  destruct (equal_tailed_interval_of_coverage reference_beta
              reference_beta_contract
              (Scalar (Fin 2)) (Scalar (Fin 3))
              (Vector [Fin 0; Fin (1 / 4); Fin 1])
              (Vector [(Fin 2, Fin 3, Fin 0); (Fin 2, Fin 3, Fin (1 / 4));
                       (Fin 2, Fin 3, Fin 1)]))
    as (coverage & lo & hi & E1 & E2 & _).
  - repeat constructor. exists 2. split; [reflexivity | lra].
  - repeat constructor. exists 3. split; [reflexivity | lra].
  - repeat constructor; eexists; (split; [reflexivity | lra]).
  - reflexivity.
  - exists coverage, lo, hi. now split.
Defined.

(** X14: a larger coverage gives a wider equal-tailed interval, and every
    equal-tailed interval contains the median: for [c1 <= c2],
    [lo2 <= lo1 <= median <= hi1 <= hi2]. *)
Theorem beta_equal_tailed_interval_nested :
  forall beta : BetaEvaluator,
    BetaContract beta ->
    forall a b c1 c2 : R,
      0 < a -> 0 < b -> 0 <= c1 -> c1 <= c2 -> c2 <= 1 ->
      exists l1 h1 l2 h2 m,
        beta_equal_tailed_interval beta
          (Scalar (Fin a)) (Scalar (Fin b)) (Scalar (Fin c1))
        = Ok (Scalar (Fin l1), Scalar (Fin h1)) /\
        beta_equal_tailed_interval beta
          (Scalar (Fin a)) (Scalar (Fin b)) (Scalar (Fin c2))
        = Ok (Scalar (Fin l2), Scalar (Fin h2)) /\
        ppf beta (Fin a) (Fin b) (Fin (1 / 2)) = Fin m /\
        l2 <= l1 /\ l1 <= m /\ m <= h1 /\ h1 <= h2.
Proof.
  intros beta contract a b c1 c2 Ha Hb Hc1 Hc Hc2.
  rewrite !(beta_equal_tailed_interval_scalar beta contract) by (assumption || lra).
  destruct (ppf_real beta contract a b (1 / 2) Ha Hb ltac:(lra)) as [Em _].
  do 5 eexists. split; [reflexivity |]. split; [reflexivity |].
  split; [exact Em |].
  repeat split; apply (ppfR_monotone beta contract); (assumption || lra).
Qed.

Lemma beta_equal_tailed_interval_nested_witness :
  exists l1 h1 l2 h2 m,
    beta_equal_tailed_interval reference_beta
      (Scalar (Fin 2)) (Scalar (Fin 3)) (Scalar (Fin (1 / 2)))
    = Ok (Scalar (Fin l1), Scalar (Fin h1)) /\
    beta_equal_tailed_interval reference_beta
      (Scalar (Fin 2)) (Scalar (Fin 3)) (Scalar (Fin (9 / 10)))
    = Ok (Scalar (Fin l2), Scalar (Fin h2)) /\
    ppf reference_beta (Fin 2) (Fin 3) (Fin (1 / 2)) = Fin m /\
    l2 <= l1 /\ l1 <= m /\ m <= h1 /\ h1 <= h2.
Proof.
  apply (beta_equal_tailed_interval_nested reference_beta
           reference_beta_contract 2 3 (1 / 2) (9 / 10)); lra.
Defined.

(** X15: for positive shape parameters the equal-tailed coverage of any
    point is a number of [[0, 1]]; it is 1 at both ends of the support. *)
Theorem beta_equal_tailed_coverage_range :
  forall beta : BetaEvaluator,
    BetaContract beta ->
    forall (a b x : ndarray float64) env,
      all positive a -> all positive b -> all finite x ->
      Np.broadcast3 a b x = Ok env ->
      exists out,
        beta_equal_tailed_coverage beta a b x = Ok out /\
        Forall2
          (fun '(a0, b0, x0) v =>
             in_unit v /\ (x0 = Fin 0 \/ x0 = Fin 1 -> v = Fin 1))
          (Np.elements env) (Np.elements out).
Proof.
  intros beta contract a b x env Ha Hb Hx Henv.
  rewrite (beta_equal_tailed_coverage_env beta a b x env Henv).
  eexists. split; [reflexivity |].
  rewrite elements_map. apply Forall2_map_r. intros [[a0 b0] x0] Hin.
  destruct (broadcast3_viewed _ _ _ _ Henv) as (_ & _ & _ & _ & Hva & Hvb & Hvx).
  destruct (viewed_all _ _ _ _ Hva Ha _ Hin) as (ra & Ea & Hra).
  destruct (viewed_all _ _ _ _ Hvb Hb _ Hin) as (rb & Eb & Hrb).
  destruct (viewed_all _ _ _ _ Hvx Hx _ Hin) as (rx & Ex).
  simpl in Ea, Eb, Ex. subst.
  rewrite (coverage_kernel beta contract) by assumption. split.
  - eexists. split; [reflexivity |].
    now apply (coverage_kernel_unit beta contract).
  - intros [[= ->] | [= ->]]; f_equal.
    + rewrite (cdfR_0 beta contract) by assumption.
      rewrite Rabs_right by lra. lra.
    + rewrite (cdfR_1 beta contract) by assumption.
      rewrite Rabs_left1 by lra. lra.
Qed.

Lemma beta_equal_tailed_coverage_range_witness :
  exists out,
    beta_equal_tailed_coverage reference_beta
      (Scalar (Fin 2)) (Scalar (Fin 3)) (Vector [Fin 0; Fin 5; Fin 1]) = Ok out /\
    Forall2
      (fun '(a0, b0, x0) v =>
         in_unit v /\ (x0 = Fin 0 \/ x0 = Fin 1 -> v = Fin 1))
      [(Fin 2, Fin 3, Fin 0); (Fin 2, Fin 3, Fin 5); (Fin 2, Fin 3, Fin 1)]
      (Np.elements out).
Proof.
  apply (beta_equal_tailed_coverage_range reference_beta reference_beta_contract
           (Scalar (Fin 2)) (Scalar (Fin 3)) (Vector [Fin 0; Fin 5; Fin 1])
           (Vector [(Fin 2, Fin 3, Fin 0); (Fin 2, Fin 3, Fin 5);
                    (Fin 2, Fin 3, Fin 1)])).
  - repeat constructor. exists 2. split; [reflexivity | lra].
  - repeat constructor. exists 3. split; [reflexivity | lra].
  - repeat constructor; eexists; reflexivity.
  - reflexivity.
Defined.

(** ** [beta_highest_density_interval]: what the search returns *)

Lemma clip_id v lo hi : lo <= v <= hi ->
  F.clip (Fin v) (Fin lo) (Fin hi) = Fin v.
Proof.
  intros Hv. unfold F.clip, F.maximum, F.minimum. simpl.
  destruct (Rleb_spec v lo); simpl.
  - rewrite Rleb_true by lra. f_equal. lra.
  - now rewrite Rleb_true by lra.
Qed.

Lemma midpoint_real l h : midpoint (Fin l) (Fin h) = Fin ((l + h) / 2).
Proof. unfold midpoint. simpl. now rewrite Reqb_false by lra. Qed.

(** The loop, entry by entry, for any property of the brackets that one
    step of an entry preserves: the endpoints returned are the midpoint
    of a bracket with the property and the upper endpoint computed for
    that midpoint. *)
Section HdiLoop.

Variable beta : BetaEvaluator.
Variables a b coverage : ndarray float64.
Variable env : ndarray entry.
Hypothesis Henv : Np.broadcast3 a b coverage = Ok env.

Variable I : nat -> entry -> float64 -> float64 -> Prop.
Hypothesis step : forall k e lo hi,
In e (Np.elements env) -> I k e lo hi ->
I (S k) e
  (hdi_next_lo beta (entry_a e) (entry_b e) (entry_c e) lo hi)
  (hdi_next_hi beta (entry_a e) (entry_b e) (entry_c e) lo hi).

Lemma hdi_loop_entrywise n : forall k glo ghi s,
x_lo s = Np.map glo env -> x_hi s = Np.map ghi env ->
(forall e, In e (Np.elements env) -> I k e (glo e) (ghi e)) ->
exists plo phi,
  (forall e, In e (Np.elements env) -> I (k + n) e (plo e) (phi e)) /\
  for_range (S n) (hdi_body beta a b coverage) s =
  Ok {| x_lo := Np.map (fun e => hdi_next_lo beta (entry_a e) (entry_b e)
                                   (entry_c e) (plo e) (phi e)) env;
        x_hi := Np.map (fun e => hdi_next_hi beta (entry_a e) (entry_b e)
                                   (entry_c e) (plo e) (phi e)) env;
        hdi_x := Some (Np.map (fun e => midpoint (plo e) (phi e)) env);
        hdi_y := Some (Np.map (fun e => hdi_upper beta (entry_a e) (entry_b e)
                                          (entry_c e)
                                          (midpoint (plo e) (phi e))) env) |}.
Proof.
induction n as [| n IH]; intros k glo ghi s Hlo Hhi HI.
- exists glo, ghi. rewrite Nat.add_0_r. split; [assumption |].
  cbn [for_range].
  rewrite (hdi_body_env beta a b coverage env Henv glo ghi s Hlo Hhi).
  reflexivity.
- change (for_range (S (S n)) (hdi_body beta a b coverage) s)
    with (s' <- hdi_body beta a b coverage s ;;
          for_range (S n) (hdi_body beta a b coverage) s').
  rewrite (hdi_body_env beta a b coverage env Henv glo ghi s Hlo Hhi).
  cbn [bind].
  match goal with
  | |- context [for_range (S n) _ ?s1] =>
      destruct (IH (S k) _ _ s1 eq_refl eq_refl) as (plo & phi & HI' & E)
  end.
  { intros e He. apply step; auto. }
  exists plo, phi. split; [| exact E].
  intros e He. rewrite Nat.add_succ_r. now apply HI'.
Qed.

End HdiLoop.

Section HdiEntry.

Variable beta : BetaEvaluator.
Hypothesis contract : BetaContract beta.

Variables ra rb rc : R.
Hypothesis Ha : 0 < ra.
Hypothesis Hb : 0 < rb.
Hypothesis Hc : 0 <= rc <= 1.
Hypothesis Hab : 1 < ra \/ 1 < rb.

(** The initial bracket of a valid entry: it lies below the mode and
  below the quantile at [1 - coverage], and the distribution function
  at its lower end is at least that at the mode less the coverage. *)
Lemma hdi_entry_bounds :
exists L H m,
  hdi_init_lo beta (Fin ra) (Fin rb) (Fin rc) = Fin L /\
  hdi_init_hi beta (Fin ra) (Fin rb) (Fin rc) = Fin H /\
  beta_mode (Fin ra) (Fin rb) = Fin m /\
  0 <= L /\ L <= H /\ H <= m /\ m <= 1 /\
  H <= ppf_R beta ra rb (1 - rc) /\
  cdf_R beta ra rb m - rc <= cdf_R beta ra rb L.
Proof.
destruct (beta_mode_unit ra rb Ha Hb Hab) as (m & Em & Hm).
destruct (cdf_real beta contract ra rb m Ha Hb) as [Ecdf Hp].
set (p := cdf_R beta ra rb m) in *.
assert (Hq : exists q, F.maximum (F.sub (Fin p) (Fin rc)) (Fin 0) = Fin q /\
                       0 <= q /\ q <= p /\ q <= 1 - rc /\ p - rc <= q).
{ unfold F.maximum. simpl.
  destruct (Rleb_spec (p + - rc) 0); eexists; split; try reflexivity; lra. }
destruct Hq as (q & Eq & Hq0 & Hqp & Hq1 & Hpq).
destruct (ppf_real beta contract ra rb q Ha Hb ltac:(lra)) as [EL HL].
destruct (ppf_real beta contract ra rb (1 - rc) Ha Hb ltac:(lra)) as [EU HU].
assert (HLm : ppf_R beta ra rb q <= m).
{ rewrite <- (ppfR_cdfR beta contract ra rb m Ha Hb Hm). fold p.
  apply (ppfR_monotone beta contract); (assumption || lra). }
assert (HLU : ppf_R beta ra rb q <= ppf_R beta ra rb (1 - rc))
  by (apply (ppfR_monotone beta contract); (assumption || lra)).
exists (ppf_R beta ra rb q), (Rmin m (ppf_R beta ra rb (1 - rc))), m.
split; [| split; [| split]].
- unfold hdi_init_lo. now rewrite Em, Ecdf, Eq.
- unfold hdi_init_hi. rewrite Em. cbn [F.sub F.opp F.add].
  replace (1 + - rc) with (1 - rc) by lra. rewrite EU.
  unfold F.minimum. simpl. unfold Rmin.
  destruct (Rleb_spec m (ppf_R beta ra rb (1 - rc)));
    destruct (Rle_dec m (ppf_R beta ra rb (1 - rc))); (reflexivity || lra).
- exact Em.
- repeat split; try lra.
  + now apply Rmin_glb.
  + apply Rmin_l.
  + apply Rmin_r.
  + rewrite (cdfR_ppfR beta contract) by (assumption || lra). fold p. lra.
Qed.

(** The upper endpoint computed for a lower endpoint [x] of the initial
  bracket: the interval from [x] to it has exactly the coverage asked
  for, and contains the mode. *)
Lemma hdi_entry_upper L H m x :
hdi_init_lo beta (Fin ra) (Fin rb) (Fin rc) = Fin L ->
hdi_init_hi beta (Fin ra) (Fin rb) (Fin rc) = Fin H ->
beta_mode (Fin ra) (Fin rb) = Fin m ->
L <= x <= H ->
exists y,
  hdi_upper beta (Fin ra) (Fin rb) (Fin rc) (Fin x) = Fin y /\
  cdf_R beta ra rb y - cdf_R beta ra rb x = rc /\
  0 <= x /\ x <= m /\ m <= y /\ y <= 1.
Proof.
intros EL EH Em Hx.
destruct hdi_entry_bounds as (L' & H' & m' & EL' & EH' & Em' & HL0 & HLH & HHm
                              & Hm1 & HHU & HcL).
rewrite EL in EL'. rewrite EH in EH'. rewrite Em in Em'.
injection EL' as <-. injection EH' as <-. injection Em' as <-.
assert (Hx01 : 0 <= x <= 1) by lra.
destruct (cdf_real beta contract ra rb x Ha Hb) as [Ecdf Hp].
destruct (ppf_real beta contract ra rb (1 - rc) Ha Hb ltac:(lra)) as [_ HU].
assert (HxU : cdf_R beta ra rb x <= 1 - rc).
{ rewrite <- (cdfR_ppfR beta contract ra rb (1 - rc)) by (assumption || lra).
  apply (cdfR_monotone beta contract); (assumption || lra). }
assert (HLx : cdf_R beta ra rb L <= cdf_R beta ra rb x)
  by (apply (cdfR_monotone beta contract); (assumption || lra)).
set (q := cdf_R beta ra rb x + rc).
destruct (ppf_real beta contract ra rb q Ha Hb ltac:(unfold q; lra)) as [Ey Hy].
pose proof (cdfR_ppfR beta contract ra rb q Ha Hb ltac:(unfold q; lra)) as Hcy.
assert (Hxy : x <= ppf_R beta ra rb q).
{ apply (cdfR_le_reflect beta contract ra rb); try assumption.
  rewrite Hcy. unfold q. lra. }
assert (Hmy : m <= ppf_R beta ra rb q).
{ apply (cdfR_le_reflect beta contract ra rb); try assumption; try lra.
  rewrite Hcy. unfold q. lra. }
exists (ppf_R beta ra rb q).
split; [| repeat split; try lra].
- unfold hdi_upper. rewrite Ecdf. cbn [F.add].
  rewrite clip_id by (fold q; unfold q; lra). fold q. rewrite Ey.
  apply clip_id. lra.
- rewrite Hcy. unfold q. lra.
Qed.

End HdiEntry.

Lemma hdi_entry_valid_inv e :
  hdi_entry_valid e ->
  exists ra rb rc,
    e = (Fin ra, Fin rb, Fin rc) /\ entry_a e = Fin ra /\ entry_b e = Fin rb /\
    entry_c e = Fin rc /\ 0 < ra /\ 0 < rb /\ 0 <= rc <= 1 /\ (1 < ra \/ 1 < rb).
Proof.
  intros (ra & rb & rc & -> & Ha & Hb & Hc & Hab).
  exists ra, rb, rc. now repeat split.
Qed.

Section HdiSearch.

Variable beta : BetaEvaluator.
Hypothesis contract : BetaContract beta.

Variables a b coverage : ndarray float64.
Variable env : ndarray entry.
Hypothesis Henv : Np.broadcast3 a b coverage = Ok env.
Hypothesis Hne : Np.elements env <> [].
Hypothesis Hvalid : forall e, In e (Np.elements env) -> hdi_entry_valid e.

Lemma hdi_bracketed_init e : In e (Np.elements env) ->
hdi_bracketed beta e
  (hdi_init_lo beta (entry_a e) (entry_b e) (entry_c e))
  (hdi_init_hi beta (entry_a e) (entry_b e) (entry_c e)).
Proof.
intros He. unfold hdi_bracketed.
destruct (hdi_entry_valid_inv e (Hvalid e He))
  as (ra & rb & rc & _ & -> & -> & -> & Ha & Hb & Hc & Hab).
destruct (hdi_entry_bounds beta contract ra rb rc Ha Hb Hc Hab)
  as (L & H & m & EL & EH & _ & _ & HLH & _).
exists L, H. rewrite EL, EH. cbn [to_R]. repeat split; lra.
Qed.

Lemma hdi_bracketed_step e lo hi : In e (Np.elements env) ->
hdi_bracketed beta e lo hi ->
hdi_bracketed beta e
  (hdi_next_lo beta (entry_a e) (entry_b e) (entry_c e) lo hi)
  (hdi_next_hi beta (entry_a e) (entry_b e) (entry_c e) lo hi).
Proof.
intros He (l & h & -> & -> & Hl1 & Hl2 & Hh1 & Hh2).
unfold hdi_next_lo, hdi_next_hi. cbv zeta. rewrite midpoint_real.
destruct (F.le _ _), (F.ge _ _);
  do 2 eexists; (split; [reflexivity |]); (split; [reflexivity |]);
  repeat split; lra.
Qed.

(** The endpoints returned, entry by entry. *)
Lemma hdi_result_entries t : 0 < t ->
exists glo ghi,
  beta_highest_density_interval beta a b coverage (Fin t)
  = Ok (Np.map glo env, Np.map ghi env) /\
  forall e, In e (Np.elements env) ->
    exists ra rb rc l h m,
      e = (Fin ra, Fin rb, Fin rc) /\
      0 < ra /\ 0 < rb /\ 0 <= rc <= 1 /\
      glo e = Fin l /\ ghi e = Fin h /\ beta_mode (Fin ra) (Fin rb) = Fin m /\
      cdf_R beta ra rb h - cdf_R beta ra rb l = rc /\
      0 <= l /\ l <= m /\ m <= h /\ h <= 1.
Proof.
intros Ht. unfold beta_highest_density_interval.
destruct (hdi_setup_env beta (contract_range beta contract) a b coverage env
            Henv Hne Hvalid t Ht) as (n & Hn & ->).
cbn [bind]. destruct n as [| n]; [lia |].
match goal with
| |- context [for_range (S n) _ ?s0] =>
    destruct (hdi_loop_entrywise beta a b coverage env Henv
                (fun _ => hdi_bracketed beta) (fun _ => hdi_bracketed_step)
                n 0%nat _ _ s0 eq_refl eq_refl hdi_bracketed_init)
      as (plo & phi & HI & ->)
end.
cbn [bind hdi_x hdi_y read_local].
do 2 eexists. split; [reflexivity |].
intros e He. cbv beta.
destruct (hdi_entry_valid_inv e (Hvalid e He))
  as (ra & rb & rc & Ee & Ea & Eb & Ec & Ha & Hb & Hc & Hab).
destruct (HI e He) as (l & h & El & Eh & Hl1 & Hl2 & Hh1 & Hh2).
rewrite Ea, Eb, Ec in *.
destruct (hdi_entry_bounds beta contract ra rb rc Ha Hb Hc Hab)
  as (L & H & m & EL & EH & Em & HL0 & HLH & HHm & Hm1 & HHU & HcL).
rewrite EL, EH in *. cbn [to_R] in *.
rewrite El, Eh, midpoint_real.
destruct (hdi_entry_upper beta contract ra rb rc Ha Hb Hc Hab L H m
            ((l + h) / 2) EL EH Em ltac:(lra))
  as (y & Ey & Hcov & Hx0 & Hxm & Hmy & Hy1).
exists ra, rb, rc, ((l + h) / 2), y, m. now repeat split.
Qed.

End HdiSearch.

(** X16: in exact arithmetic the interval returned by
    [beta_highest_density_interval] holds exactly the probability asked
    for, [cdf(hi) - cdf(lo) = coverage], and it contains the mode (as the
    code computes it), for every entry of a valid call. *)
Theorem beta_highest_density_interval_coverage :
  forall beta : BetaEvaluator,
    BetaContract beta ->
    forall (a b coverage : ndarray float64) env t,
      Np.broadcast3 a b coverage = Ok env ->
      Np.elements env <> [] ->
      (forall e, In e (Np.elements env) -> hdi_entry_valid e) ->
      0 < t ->
      exists glo ghi,
        beta_highest_density_interval beta a b coverage (Fin t)
        = Ok (Np.map glo env, Np.map ghi env) /\
        forall e, In e (Np.elements env) ->
          F.sub (cdf beta (entry_a e) (entry_b e) (ghi e))
                (cdf beta (entry_a e) (entry_b e) (glo e))
          = entry_c e /\
          F.le (glo e) (beta_mode (entry_a e) (entry_b e)) = true /\
          F.le (beta_mode (entry_a e) (entry_b e)) (ghi e) = true.
Proof.
  intros beta contract a b coverage env t Henv Hne Hvalid Ht.
  destruct (hdi_result_entries beta contract a b coverage env Henv Hne Hvalid t Ht)
    as (glo & ghi & E & Hent).
  exists glo, ghi. split; [exact E |].
  intros e He.
  destruct (Hent e He) as (ra & rb & rc & l & h & m & -> & Ha & Hb & Hc & El & Eh
                           & Em & Hcov & Hl0 & Hlm & Hmh & Hh1).
  unfold entry_a, entry_b, entry_c. cbn [fst snd].
  rewrite El, Eh, Em.
  destruct (cdf_real beta contract ra rb l Ha Hb) as [-> _].
  destruct (cdf_real beta contract ra rb h Ha Hb) as [-> _].
  simpl. repeat split.
  - f_equal. lra.
  - now apply Rleb_true.
  - now apply Rleb_true.
Qed.

Lemma beta_highest_density_interval_coverage_witness :
  exists glo ghi,
    beta_highest_density_interval reference_beta
      (Scalar (Fin 2)) (Vector [Fin 3; Fin (1 / 2)]) (Scalar (Fin (1 / 2)))
      default_atol
    = Ok (Np.map glo (Vector [(Fin 2, Fin 3, Fin (1 / 2));
                              (Fin 2, Fin (1 / 2), Fin (1 / 2))]),
          Np.map ghi (Vector [(Fin 2, Fin 3, Fin (1 / 2));
                              (Fin 2, Fin (1 / 2), Fin (1 / 2))])) /\
    F.sub (cdf reference_beta (Fin 2) (Fin 3) (ghi (Fin 2, Fin 3, Fin (1 / 2))))
          (cdf reference_beta (Fin 2) (Fin 3) (glo (Fin 2, Fin 3, Fin (1 / 2))))
    = Fin (1 / 2).
Proof.
  destruct (beta_highest_density_interval_coverage reference_beta
              reference_beta_contract
              (Scalar (Fin 2)) (Vector [Fin 3; Fin (1 / 2)]) (Scalar (Fin (1 / 2)))
              (Vector [(Fin 2, Fin 3, Fin (1 / 2));
                       (Fin 2, Fin (1 / 2), Fin (1 / 2))])
              (/ 10 ^ 10) eq_refl)
    as (glo & ghi & E & Hent).
  - discriminate.
  - intros e [<- | [<- | []]].
    + exists 2, 3, (1 / 2). repeat split; lra.
    + exists 2, (1 / 2), (1 / 2). repeat split; lra.
  - apply default_atol_pos.
  - exists glo, ghi. split; [exact E |].
    apply (Hent (Fin 2, Fin 3, Fin (1 / 2))). now left.
Defined.

(** X17: at coverage 0 the interval is the mode alone, and at coverage 1 it
    is all of [[0, 1]]. *)
Theorem beta_highest_density_interval_extremes :
  forall beta : BetaEvaluator,
    BetaContract beta ->
    forall (a b coverage : ndarray float64) env t,
      Np.broadcast3 a b coverage = Ok env ->
      Np.elements env <> [] ->
      (forall e, In e (Np.elements env) -> hdi_entry_valid e) ->
      0 < t ->
      exists glo ghi,
        beta_highest_density_interval beta a b coverage (Fin t)
        = Ok (Np.map glo env, Np.map ghi env) /\
        forall e, In e (Np.elements env) ->
          (entry_c e = Fin 0 ->
           glo e = beta_mode (entry_a e) (entry_b e) /\
           ghi e = beta_mode (entry_a e) (entry_b e)) /\
          (entry_c e = Fin 1 -> glo e = Fin 0 /\ ghi e = Fin 1).
Proof.
  intros beta contract a b coverage env t Henv Hne Hvalid Ht.
  destruct (hdi_result_entries beta contract a b coverage env Henv Hne Hvalid t Ht)
    as (glo & ghi & E & Hent).
  exists glo, ghi. split; [exact E |].
  intros e He.
  destruct (Hent e He) as (ra & rb & rc & l & h & m & -> & Ha & Hb & Hc & El & Eh
                           & Em & Hcov & Hl0 & Hlm & Hmh & Hh1).
  unfold entry_a, entry_b, entry_c. cbn [fst snd].
  rewrite El, Eh, Em. split.
  - intros [= ->].
    assert (Hlh : l = h).
    { destruct (Rle_lt_or_eq_dec l h ltac:(lra)) as [Hlt | ?]; [| assumption].
      pose proof (cdfR_increasing beta contract ra rb l h Ha Hb Hl0 Hlt Hh1). lra. }
    split; f_equal; lra.
  - intros [= ->].
    destruct (cdf_real beta contract ra rb l Ha Hb) as [_ Hpl].
    destruct (cdf_real beta contract ra rb h Ha Hb) as [_ Hph].
    split; f_equal.
    + destruct (Req_dec l 0) as [? | Hne0]; [assumption | exfalso].
      pose proof (cdfR_increasing beta contract ra rb 0 l Ha Hb
                    ltac:(lra) ltac:(lra) ltac:(lra)) as Hinc.
      rewrite (cdfR_0 beta contract) in Hinc by assumption. lra.
    + destruct (Req_dec h 1) as [? | Hne1]; [assumption | exfalso].
      pose proof (cdfR_increasing beta contract ra rb h 1 Ha Hb
                    ltac:(lra) ltac:(lra) ltac:(lra)) as Hinc.
      rewrite (cdfR_1 beta contract) in Hinc by assumption. lra.
Qed.

Lemma beta_highest_density_interval_extremes_witness :
  exists glo ghi,
    beta_highest_density_interval reference_beta
      (Scalar (Fin 2)) (Scalar (Fin 3)) (Vector [Fin 0; Fin 1]) default_atol
    = Ok (Np.map glo (Vector [(Fin 2, Fin 3, Fin 0); (Fin 2, Fin 3, Fin 1)]),
          Np.map ghi (Vector [(Fin 2, Fin 3, Fin 0); (Fin 2, Fin 3, Fin 1)])) /\
    glo (Fin 2, Fin 3, Fin 1) = Fin 0 /\ ghi (Fin 2, Fin 3, Fin 1) = Fin 1.
Proof.
  destruct (beta_highest_density_interval_extremes reference_beta
              reference_beta_contract
              (Scalar (Fin 2)) (Scalar (Fin 3)) (Vector [Fin 0; Fin 1])
              (Vector [(Fin 2, Fin 3, Fin 0); (Fin 2, Fin 3, Fin 1)])
              (/ 10 ^ 10) eq_refl)
    as (glo & ghi & E & Hent).
  - discriminate.
  - intros e [<- | [<- | []]].
    + exists 2, 3, 0. repeat split; lra.
    + exists 2, 3, 1. repeat split; lra.
  - apply default_atol_pos.
  - exists glo, ghi. split; [exact E |].
    apply (Hent (Fin 2, Fin 3, Fin 1)); [right; now left | reflexivity].
Defined.

(** *** The mode the code computes *)

Lemma clip_above v : 1 <= v -> F.clip (Fin v) (Fin 0) (Fin 1) = Fin 1.
Proof.
  intros Hv. unfold F.clip, F.maximum, F.minimum. simpl.
  rewrite Rleb_false by lra. simpl.
  destruct (Rleb_spec v 1); [f_equal; lra | reflexivity].
Qed.

Lemma clip_below v : v <= 0 -> F.clip (Fin v) (Fin 0) (Fin 1) = Fin 0.
Proof.
  intros Hv. unfold F.clip, F.maximum, F.minimum. simpl.
  rewrite Rleb_true by lra. simpl. now rewrite Rleb_true by lra.
Qed.

Lemma ratio_ge_1 p q : 0 < q -> q <= p -> 1 <= p / q.
Proof.
  intros Hq Hp. apply Rmult_le_reg_r with q; [assumption |].
  unfold Rdiv. rewrite Rmult_assoc, Rinv_l by lra. lra.
Qed.

(** [clip((a - 1) / (a + b - 2), 0, 1)] is 1 when [b <= 1 < a] and
    [a + b >= 2], and also when [a < 1 < b] and [a + b < 2]. *)
Lemma beta_mode_1 ra rb :
  (rb <= 1 /\ 1 < ra /\ 2 <= ra + rb) \/ (ra < 1 /\ 1 < rb /\ ra + rb < 2) ->
  beta_mode (Fin ra) (Fin rb) = Fin 1.
Proof.
  intros Hcase. unfold beta_mode. simpl.
  destruct (Reqb_spec (ra + rb + - (2)) 0) as [H0 | Hne].
  - unfold F.signed_inf. rewrite Rltb_true by lra. reflexivity.
  - apply clip_above. destruct Hcase as [(H1 & H2 & H3) | (H1 & H2 & H3)].
    + apply ratio_ge_1; lra.
    + replace ((ra + - (1)) / (ra + rb + - (2)))
        with ((1 - ra) / (2 - ra - rb)) by (field; lra).
      apply ratio_ge_1; lra.
Qed.

(** It is 0 when [a <= 1 < b] and [a + b >= 2], and also when
    [b < 1 < a] and [a + b < 2]. *)
Lemma beta_mode_0 ra rb :
  (ra <= 1 /\ 1 < rb /\ 2 <= ra + rb) \/ (rb < 1 /\ 1 < ra /\ ra + rb < 2) ->
  beta_mode (Fin ra) (Fin rb) = Fin 0.
Proof.
  intros Hcase. unfold beta_mode. simpl.
  destruct (Reqb_spec (ra + rb + - (2)) 0) as [H0 | Hne].
  - unfold F.signed_inf.
    destruct Hcase as [(H1 & H2 & H3) | (H1 & H2 & H3)]; [| lra].
    rewrite Rltb_false by lra. rewrite Rltb_true by lra.
    unfold F.clip. simpl. now rewrite Rleb_true by lra.
  - apply clip_below. destruct Hcase as [(H1 & H2 & H3) | (H1 & H2 & H3)].
    + assert (0 <= (1 - ra) / (ra + rb - 2)).
      { apply Rmult_le_pos; [lra |]. left. apply Rinv_0_lt_compat. lra. }
      replace ((ra + - (1)) / (ra + rb + - (2)))
        with (- ((1 - ra) / (ra + rb - 2))) by (field; lra).
      lra.
    + assert (0 <= (ra - 1) / (2 - ra - rb)).
      { apply Rmult_le_pos; [lra |]. left. apply Rinv_0_lt_compat. lra. }
      replace ((ra + - (1)) / (ra + rb + - (2)))
        with (- ((ra - 1) / (2 - ra - rb))) by (field; lra).
      lra.
Qed.

(** X18: when one shape parameter is at most 1 the interval returned is
    one-sided.  For [a + b >= 2] it is [[ppf(1 - coverage), 1]] when
    [b <= 1 < a] and [[0, ppf(coverage)]] when [a <= 1 < b]; for
    [a + b < 2] the code places the mode at the other end, and the
    interval is [[ppf(1 - coverage), 1]] when [a < 1 < b] and
    [[0, ppf(coverage)]] when [b < 1 < a]. *)
Theorem beta_highest_density_interval_one_sided :
  forall beta : BetaEvaluator,
    BetaContract beta ->
    forall (a b coverage : ndarray float64) env t,
      Np.broadcast3 a b coverage = Ok env ->
      Np.elements env <> [] ->
      (forall e, In e (Np.elements env) -> hdi_entry_valid e) ->
      0 < t ->
      exists glo ghi,
        beta_highest_density_interval beta a b coverage (Fin t)
        = Ok (Np.map glo env, Np.map ghi env) /\
        forall ra rb rc, In (Fin ra, Fin rb, Fin rc) (Np.elements env) ->
          ((rb <= 1 /\ 1 < ra /\ 2 <= ra + rb) \/
           (ra < 1 /\ 1 < rb /\ ra + rb < 2) ->
           glo (Fin ra, Fin rb, Fin rc)
           = ppf beta (Fin ra) (Fin rb) (Fin (1 - rc)) /\
           ghi (Fin ra, Fin rb, Fin rc) = Fin 1) /\
          ((ra <= 1 /\ 1 < rb /\ 2 <= ra + rb) \/
           (rb < 1 /\ 1 < ra /\ ra + rb < 2) ->
           glo (Fin ra, Fin rb, Fin rc) = Fin 0 /\
           ghi (Fin ra, Fin rb, Fin rc)
           = ppf beta (Fin ra) (Fin rb) (Fin rc)).
Proof.
  intros beta contract a b coverage env t Henv Hne Hvalid Ht.
  destruct (hdi_result_entries beta contract a b coverage env Henv Hne Hvalid t Ht)
    as (glo & ghi & E & Hent).
  exists glo, ghi. split; [exact E |].
  intros ra rb rc He.
  destruct (Hent _ He) as (ra' & rb' & rc' & l & h & m & [= <- <- <-] & Ha & Hb
                           & Hc & El & Eh & Em & Hcov & Hl0 & Hlm & Hmh & Hh1).
  rewrite El, Eh. split; intros Hcase.
  - rewrite (beta_mode_1 ra rb Hcase) in Em. injection Em as <-.
    assert (h = 1) by lra. subst h.
    rewrite (cdfR_1 beta contract) in Hcov by assumption.
    destruct (ppf_real beta contract ra rb (1 - rc) Ha Hb ltac:(lra)) as [-> _].
    split; [| reflexivity]. f_equal.
    replace (1 - rc) with (cdf_R beta ra rb l) by lra.
    symmetry. apply (ppfR_cdfR beta contract); (assumption || lra).
  - rewrite (beta_mode_0 ra rb Hcase) in Em. injection Em as <-.
    assert (l = 0) by lra. subst l.
    rewrite (cdfR_0 beta contract) in Hcov by assumption.
    destruct (ppf_real beta contract ra rb rc Ha Hb Hc) as [-> _].
    split; [reflexivity |]. f_equal.
    replace rc with (cdf_R beta ra rb h) by lra.
    symmetry. apply (ppfR_cdfR beta contract); (assumption || lra).
Qed.

Lemma beta_highest_density_interval_one_sided_witness :
  exists glo ghi,
    beta_highest_density_interval reference_beta
      (Vector [Fin 3; Fin (1 / 2)]) (Vector [Fin 1; Fin (6 / 5)])
      (Scalar (Fin (9 / 10))) default_atol
    = Ok (Np.map glo (Vector [(Fin 3, Fin 1, Fin (9 / 10));
                              (Fin (1 / 2), Fin (6 / 5), Fin (9 / 10))]),
          Np.map ghi (Vector [(Fin 3, Fin 1, Fin (9 / 10));
                              (Fin (1 / 2), Fin (6 / 5), Fin (9 / 10))])) /\
    ghi (Fin 3, Fin 1, Fin (9 / 10)) = Fin 1 /\
    ghi (Fin (1 / 2), Fin (6 / 5), Fin (9 / 10)) = Fin 1.
Proof.
  destruct (beta_highest_density_interval_one_sided reference_beta
              reference_beta_contract
              (Vector [Fin 3; Fin (1 / 2)]) (Vector [Fin 1; Fin (6 / 5)])
              (Scalar (Fin (9 / 10)))
              (Vector [(Fin 3, Fin 1, Fin (9 / 10));
                       (Fin (1 / 2), Fin (6 / 5), Fin (9 / 10))])
              (/ 10 ^ 10) eq_refl)
    as (glo & ghi & E & Hent).
  - discriminate.
  - intros e [<- | [<- | []]].
    + exists 3, 1, (9 / 10). repeat split; lra.
    + exists (1 / 2), (6 / 5), (9 / 10). repeat split; lra.
  - apply default_atol_pos.
  - exists glo, ghi. split; [exact E |]. split.
    + apply (Hent 3 1 (9 / 10)); [now left |]. left. lra.
    + apply (Hent (1 / 2) (6 / 5) (9 / 10)); [right; now left |]. right. lra.
Defined.

(** ** [beta_highest_density_coverage]: what the search returns *)

Section HdcLoop.

Variable beta : BetaEvaluator.
Variables a b x : ndarray float64.
Variable env : ndarray entry.
Hypothesis Henv : Np.broadcast3 a b x = Ok env.

(** One iteration, with the bracket functions named. *)
Lemma hdc_body_step glo ghi s :
y_lo s = Np.map glo env -> y_hi s = Np.map ghi env ->
hdc_body a b
  (Np.map hdc_lower env)
  (Np.map (fun e => density_proxy (entry_c e) (entry_a e) (entry_b e)) env)
  s =
Ok {| y_lo := Np.map (fun e => hdc_next_lo e (glo e) (ghi e)) env;
      y_hi := Np.map (fun e => hdc_next_hi e (glo e) (ghi e)) env;
      hdc_y := Some (Np.map (fun e => midpoint (glo e) (ghi e)) env) |}.
Proof. exact (hdc_body_env a b x env Henv glo ghi s). Qed.

Variable I : nat -> entry -> float64 -> float64 -> Prop.
Hypothesis step : forall k e lo hi,
In e (Np.elements env) -> I k e lo hi ->
I (S k) e (hdc_next_lo e lo hi) (hdc_next_hi e lo hi).

Lemma hdc_loop_entrywise n : forall k glo ghi s,
y_lo s = Np.map glo env -> y_hi s = Np.map ghi env ->
(forall e, In e (Np.elements env) -> I k e (glo e) (ghi e)) ->
exists plo phi,
  (forall e, In e (Np.elements env) -> I (k + n) e (plo e) (phi e)) /\
  for_range (S n)
    (hdc_body a b
       (Np.map hdc_lower env)
       (Np.map (fun e => density_proxy (entry_c e) (entry_a e) (entry_b e))
          env))
    s =
  Ok {| y_lo := Np.map (fun e => hdc_next_lo e (plo e) (phi e)) env;
        y_hi := Np.map (fun e => hdc_next_hi e (plo e) (phi e)) env;
        hdc_y := Some (Np.map (fun e => midpoint (plo e) (phi e)) env) |}.
Proof.
induction n as [| n IH]; intros k glo ghi s Hlo Hhi HI.
- exists glo, ghi. rewrite Nat.add_0_r. split; [assumption |].
  cbn [for_range]. rewrite (hdc_body_step glo ghi s Hlo Hhi). reflexivity.
- match goal with
  | |- context [for_range (S (S n)) ?body s] =>
      change (for_range (S (S n)) body s)
        with (s' <- body s ;; for_range (S n) body s')
  end.
  rewrite (hdc_body_step glo ghi s Hlo Hhi). cbn [bind].
  match goal with
  | |- context [for_range (S n) _ ?s1] =>
      destruct (IH (S k) _ _ s1 eq_refl eq_refl) as (plo & phi & HI' & E)
  end.
  { intros e He. apply step; auto. }
  exists plo, phi. split; [| exact E].
  intros e He. rewrite Nat.add_succ_r. now apply HI'.
Qed.

(** The last lines: the coverage between [x] and the other end. *)
Lemma hdc_finish gy :
(xl <- Np.map3 (fun (c : bool) x y => if c then x else y)
         (Np.map hdc_lower env) x (Np.map gy env) ;;
 yl <- Np.map3 (fun (c : bool) y x => if c then y else x)
         (Np.map hdc_lower env) (Np.map gy env) x ;;
 Np.map4 (fun y x a b => F.sub (cdf beta a b y) (cdf beta a b x)) yl xl a b)
= Ok (Np.map (fun e => hdc_result beta e (gy e)) env).
Proof.
pose proof (view_a a b x env Henv) as Va.
pose proof (view_b a b x env Henv) as Vb.
pose proof (view_c a b x env Henv) as Vc.
rewrite map3_full with (g2 := entry_c) (g3 := gy)
  by (assumption || apply viewed_refl).
cbn [bind].
rewrite map3_full with (g2 := gy) (g3 := entry_c)
  by (assumption || apply viewed_refl).
cbn [bind].
rewrite map4_full
  with (g2 := fun e => if hdc_lower e then entry_c e else gy e)
       (g3 := entry_a) (g4 := entry_b)
  by (assumption || apply viewed_refl).
reflexivity.
Qed.

Hypothesis Hne : Np.elements env <> [].
Hypothesis Hmode : forall e, In e (Np.elements env) ->
                   no_mode (entry_a e) (entry_b e) = false.

(** Everything up to the loop, with the initial bracket named. *)
Lemma hdc_setup_unfold atol :
hdc_setup a b x atol =
(n_iter <- n_iterations
             (Np.map (fun e => F.sub (hdc_init_hi e) (hdc_init_lo e)) env)
             atol ;;
 Ok (Z.to_nat n_iter,
     {| y_lo := Np.map hdc_init_lo env;
        y_hi := Np.map hdc_init_hi env;
        hdc_y := None |},
     Np.map hdc_lower env,
     Np.map (fun e => density_proxy (entry_c e) (entry_a e) (entry_b e)) env)).
Proof.
destruct (broadcast3_viewed _ _ _ _ Henv) as (ab & Hab & Habx & Vab & _).
unfold hdc_setup.
rewrite !(map2_ok _ _ _ _ Hab). cbn [bind].
replace (Np.any _) with false.
2:{ symmetry. apply any_map_false.
    apply (viewed_all_inv _ _ _ _ Vab Hne).
    intros [[a0 b0] c0] He. apply (Hmode _ He). }
cbn [raise_if bind].
assert (Vmode : viewed (Np.map (fun '(a0, b0) => beta_mode a0 b0) ab)
                  (fun e => beta_mode (entry_a e) (entry_b e)) env).
{ eapply viewed_ext; [| exact (viewed_map _ _ _ _ Vab)].
  now intros [[a0 b0] c0]. }
unfold Np.map2 at 1. rewrite broadcast2_map_l, Habx. cbn [bind].
rewrite !map_map_nd.
rewrite (map_ext_nd _ hdc_lower env) by (now intros [[a0 b0] c0] _).
rewrite (map3_env _ _ _ _ _ Henv). cbn [bind].
rewrite (map_ext_nd _ (fun e => density_proxy (entry_c e) (entry_a e)
                                  (entry_b e)) env)
  by (now intros [[a0 b0] c0] _).
rewrite map2_full with (g2 := fun e => beta_mode (entry_a e) (entry_b e))
  by assumption.
cbn [bind].
rewrite map2_full with (g2 := fun e => beta_mode (entry_a e) (entry_b e))
  by assumption.
cbn [bind].
erewrite map2_full by apply viewed_refl. cbn [bind].
reflexivity.
Qed.

End HdcLoop.

Lemma valid_has_mode e : hdi_entry_valid e ->
  no_mode (entry_a e) (entry_b e) = false.
Proof.
  intros (ra & rb & rc & -> & Ha & Hb & Hc & Hab).
  unfold no_mode, entry_a, entry_b. simpl.
  destruct Hab; [rewrite (Rleb_false ra) by lra | rewrite (Rleb_false rb) by lra];
    [reflexivity | apply andb_false_r].
Qed.

Section HdcSearch.

Variable beta : BetaEvaluator.
Hypothesis contract : BetaContract beta.

Variables a b x : ndarray float64.
Variable env : ndarray entry.
Hypothesis Henv : Np.broadcast3 a b x = Ok env.
Hypothesis Hne : Np.elements env <> [].
Hypothesis Hvalid : forall e, In e (Np.elements env) -> hdi_entry_valid e.

Lemma hdc_bracketed_init e : In e (Np.elements env) ->
hdc_bracketed e (hdc_init_lo e) (hdc_init_hi e).
Proof.
intros He. unfold hdc_bracketed, hdc_init_lo, hdc_init_hi.
destruct (hdi_entry_valid_inv e (Hvalid e He))
  as (ra & rb & rc & _ & Ea & Eb & _ & Ha & Hb & Hc & Hab).
rewrite Ea, Eb.
destruct (beta_mode_unit ra rb Ha Hb Hab) as (m & Em & Hm). rewrite Em.
destruct (hdc_lower e); do 3 eexists;
  (split; [reflexivity |]); (split; [reflexivity |]); (split; [reflexivity |]);
  lra.
Qed.

Lemma hdc_bracketed_step e lo hi : In e (Np.elements env) ->
hdc_bracketed e lo hi ->
hdc_bracketed e (hdc_next_lo e lo hi) (hdc_next_hi e lo hi).
Proof.
intros He (l & h & m & -> & -> & Em & Hlh).
unfold hdc_bracketed, hdc_next_lo, hdc_next_hi. cbv zeta.
rewrite midpoint_real, Em.
destruct (hdc_y_is_lo e _); cbn [negb];
  do 3 eexists;
  (split; [reflexivity |]); (split; [reflexivity |]); (split; [reflexivity |]);
  destruct (hdc_lower e); lra.
Qed.

(** The coverage returned, entry by entry: the probability between [x]
  and a point on the other side of the mode. *)
Lemma hdc_result_entries t : 0 < t ->
exists gy,
  beta_highest_density_coverage beta a b x (Fin t)
  = Ok (Np.map (fun e => hdc_result beta e (gy e)) env) /\
  forall e, In e (Np.elements env) ->
    exists y m,
      gy e = Fin y /\ beta_mode (entry_a e) (entry_b e) = Fin m /\
      if hdc_lower e then m <= y <= 1 else 0 <= y <= m.
Proof.
intros Ht. unfold beta_highest_density_coverage.
assert (Hmode : forall e, In e (Np.elements env) ->
                  no_mode (entry_a e) (entry_b e) = false)
  by (intros e He; apply valid_has_mode; auto).
destruct (hdc_setup_env a b x env Henv Hne Hmode t Ht)
  as (n & s0 & Hn & _ & E).
rewrite (hdc_setup_unfold a b x env Henv Hne Hmode) in E.
rewrite (hdc_setup_unfold a b x env Henv Hne Hmode).
destruct (n_iterations _ (Fin t)) as [k |]; [| discriminate].
cbn [bind] in *. injection E as <- _.
destruct (Z.to_nat k) as [| n]; [lia |].
match goal with
| |- context [for_range (S n) _ ?s0] =>
    destruct (hdc_loop_entrywise a b x env Henv
                (fun _ => hdc_bracketed) (fun _ => hdc_bracketed_step)
                n 0%nat _ _ s0 eq_refl eq_refl hdc_bracketed_init)
      as (plo & phi & HI & ->)
end.
cbn [bind hdc_y read_local].
exists (fun e => midpoint (plo e) (phi e)).
split; [apply (hdc_finish beta a b x env Henv) |].
intros e He. destruct (HI e He) as (l & h & m & -> & -> & Em & Hlh).
rewrite midpoint_real. exists ((l + h) / 2), m.
split; [reflexivity |]. split; [assumption |].
destruct (hdc_lower e); lra.
Qed.

End HdcSearch.

(** X19: on shape parameters with a mode and points [x] of [[0, 1]] the
    coverage returned by [beta_highest_density_coverage] is a number of
    [[0, 1]], for every entry. *)
Theorem beta_highest_density_coverage_range :
  forall beta : BetaEvaluator,
    BetaContract beta ->
    forall (a b x : ndarray float64) env t,
      Np.broadcast3 a b x = Ok env ->
      Np.elements env <> [] ->
      (forall e, In e (Np.elements env) -> hdi_entry_valid e) ->
      0 < t ->
      exists out,
        beta_highest_density_coverage beta a b x (Fin t) = Ok out /\
        Np.shape out = Np.shape env /\
        all in_unit out.
Proof.
  intros beta contract a b x env t Henv Hne Hvalid Ht.
  destruct (hdc_result_entries beta a b x env Henv Hne Hvalid t Ht)
    as (gy & E & Hent).
  eexists. split; [exact E |]. split; [apply shape_map |].
  unfold all. rewrite elements_map. apply Forall_map, Forall_forall.
  intros e He.
  destruct (Hent e He) as (y & m & Ey & Em & Hy).
  destruct (hdi_entry_valid_inv e (Hvalid e He))
    as (ra & rb & rx & _ & Ea & Eb & Ec & Ha & Hb & Hx & Hab).
  unfold hdc_result. rewrite Ey.
  assert (Hlow : hdc_lower e = Rltb rx m).
  { unfold hdc_lower. now rewrite Em, Ec. }
  rewrite Ea, Eb, Ec.
  destruct (beta_mode_unit ra rb Ha Hb Hab) as (m' & Em' & Hm).
  rewrite Ea, Eb in Em. rewrite Em in Em'. injection Em' as <-.
  destruct (cdf_real beta contract ra rb rx Ha Hb) as [Ex Hpx].
  destruct (cdf_real beta contract ra rb y Ha Hb) as [Ecy Hpy].
  destruct (hdc_lower e); symmetry in Hlow.
  - destruct (Rltb_spec rx m) as [Hlt |]; [| discriminate].
    rewrite Ex, Ecy. simpl. eexists. split; [reflexivity |].
    pose proof (cdfR_monotone beta contract ra rb rx y Ha Hb
                  ltac:(lra) ltac:(lra) ltac:(lra)). lra.
  - destruct (Rltb_spec rx m) as [| Hge]; [discriminate |].
    rewrite Ex, Ecy. simpl. eexists. split; [reflexivity |].
    pose proof (cdfR_monotone beta contract ra rb y rx Ha Hb
                  ltac:(lra) ltac:(lra) ltac:(lra)). lra.
Qed.

Lemma beta_highest_density_coverage_range_witness :
  exists out,
    beta_highest_density_coverage reference_beta
      (Scalar (Fin 2)) (Scalar (Fin 3)) (Vector [Fin 0; Fin (1 / 4); Fin 1])
      default_atol = Ok out /\
    Np.shape out = Some 3%nat /\
    all in_unit out.
Proof.
  apply (beta_highest_density_coverage_range reference_beta
           reference_beta_contract
           (Scalar (Fin 2)) (Scalar (Fin 3)) (Vector [Fin 0; Fin (1 / 4); Fin 1])
           (Vector [(Fin 2, Fin 3, Fin 0); (Fin 2, Fin 3, Fin (1 / 4));
                    (Fin 2, Fin 3, Fin 1)])
           (/ 10 ^ 10) eq_refl).
  - discriminate.
  - intros e [<- | [<- | [<- | []]]].
    + exists 2, 3, 0. repeat split; lra.
    + exists 2, 3, (1 / 4). repeat split; lra.
    + exists 2, 3, 1. repeat split; lra.
  - apply default_atol_pos.
Defined.

(** ** The tolerance of the binary searches *)

(** The maximum of a non-empty array of reals bounds its elements. *)
Lemma fold_maximum_bound l : Forall finite l -> forall x0,
  exists w, fold_left F.maximum l (Fin x0) = Fin w /\ x0 <= w /\
            Forall (fun v => exists r, v = Fin r /\ r <= w) l.
Proof.
  induction 1 as [| v l [y ->] _ IH]; intros x0; simpl.
  - exists x0. split; [reflexivity | split; [lra | constructor]].
  - change (F.maximum (Fin x0) (Fin y)) with (if Rleb x0 y then Fin y else Fin x0).
    destruct (Rleb_spec x0 y) as [Hle | Hgt].
    + destruct (IH y) as (w & E & Hw & Hall). exists w.
      split; [exact E | split; [lra |]].
      constructor; [exists y; split; [reflexivity | lra] | assumption].
    + destruct (IH x0) as (w & E & Hw & Hall). exists w.
      split; [exact E | split; [lra |]].
      constructor; [exists y; split; [reflexivity | lra] | assumption].
Qed.

Lemma max_bound (m : ndarray float64) :
  all finite m -> Np.elements m <> [] ->
  exists w, Np.max m = Ok (Fin w) /\
            forall r, In (Fin r) (Np.elements m) -> r <= w.
Proof.
  unfold all, Np.max. destruct (Np.elements m) as [| v l]; [congruence |].
  intros H _. inversion H as [| ? ? [x0 ->] Hl]; subst.
  destruct (fold_maximum_bound l Hl x0) as (w & E & Hw & Hall).
  exists w. split; [now rewrite E |].
  intros r [[= <-] | Hin]; [assumption |].
  rewrite Forall_forall in Hall.
  destruct (Hall _ Hin) as (r' & [= <-] & Hr). assumption.
Qed.

Lemma ceil_upper L : L <= IZR (- Int_part (- L)).
Proof.
  destruct (base_Int_part (- L)) as [Hle _]. rewrite opp_IZR. lra.
Qed.

(** [2 ^ ceil(log2 m)] is at least [m]. *)
Lemma pow2_ceil_log2 m (k : Z) :
  0 < m -> (0 <= k)%Z -> ln m / ln 2 <= IZR k -> m <= 2 ^ Z.to_nat k.
Proof.
  intros Hm Hk HL. pose proof ln_2_pos as H2.
  rewrite <- Rpower_pow by lra. unfold Rpower.
  rewrite IZR_to_nat by assumption.
  rewrite <- (exp_ln m Hm) at 1.
  assert (Hle : ln m <= IZR k * ln 2).
  { apply Rmult_le_compat_r with (r := ln 2) in HL; [| lra].
    unfold Rdiv in HL. rewrite Rmult_assoc, Rinv_l, Rmult_1_r in HL by lra.
    assumption. }
  destruct Hle as [Hlt | ->]; [left; now apply exp_increasing | right; reflexivity].
Qed.

(** The number of iterations is enough for the tolerance: a bracket of
    any of the widths, halved that many times, is at most [atol] wide. *)
Lemma n_iterations_enough width t n :
  0 < t -> all finite width -> n_iterations width (Fin t) = Ok n ->
  forall r, In (Fin r) (Np.elements width) -> r / 2 ^ Z.to_nat n <= t.
Proof.
  intros Ht Hfin Hn r Hr.
  destruct (n_iterations_formula _ _ _ Hn) as (w & m & Hmax & Hm & Hm2 & -> & Hk).
  destruct (max_bound width Hfin) as (w' & Hmax' & Hbound).
  { intros Hempty. now rewrite Hempty in Hr. }
  rewrite Hmax' in Hmax. injection Hmax as <-.
  assert (Hwm : w' / t <= m).
  { revert Hm. unfold py_max, F.gt. simpl. rewrite Reqb_false by lra. simpl.
    destruct (Rltb_spec 2 (w' / t)); intros [= <-]; lra. }
  pose proof (pow2_ceil_log2 m (- Int_part (- (ln m / ln 2))) ltac:(lra)
                ltac:(lia) (ceil_upper _)) as Hpow.
  set (p := 2 ^ Z.to_nat (- Int_part (- (ln m / ln 2)))) in *.
  assert (Hp : 0 < p) by (apply pow_lt; lra).
  specialize (Hbound r Hr).
  apply Rmult_le_reg_r with p; [assumption |].
  unfold Rdiv. rewrite Rmult_assoc, Rinv_l, Rmult_1_r by lra.
  apply Rle_trans with (w' / t * t).
  - unfold Rdiv. rewrite Rmult_assoc, Rinv_l by lra. lra.
  - rewrite (Rmult_comm t p). apply Rmult_le_compat_r; lra.
Qed.

(** *** The search of [beta_highest_density_coverage] halves its bracket *)

Lemma hdc_init_finite e : hdi_entry_valid e ->
  exists l0 h0, hdc_init_lo e = Fin l0 /\ hdc_init_hi e = Fin h0 /\ l0 <= h0.
Proof.
  intros Hv. unfold hdc_init_lo, hdc_init_hi.
  destruct (hdi_entry_valid_inv e Hv)
    as (ra & rb & rc & _ & Ea & Eb & _ & Ha & Hb & _ & Hab).
  rewrite Ea, Eb.
  destruct (beta_mode_unit ra rb Ha Hb Hab) as (m & -> & Hm).
  destruct (hdc_lower e); do 2 eexists; (split; [reflexivity |]);
    (split; [reflexivity |]); lra.
Qed.

Lemma hdc_halving_step k e lo hi :
  (exists l h, lo = Fin l /\ hi = Fin h /\
     h - l = (to_R (hdc_init_hi e) - to_R (hdc_init_lo e)) / 2 ^ k) ->
  exists l h, hdc_next_lo e lo hi = Fin l /\ hdc_next_hi e lo hi = Fin h /\
     h - l = (to_R (hdc_init_hi e) - to_R (hdc_init_lo e)) / 2 ^ S k.
Proof.
  intros (l & h & -> & -> & Hw).
  unfold hdc_next_lo, hdc_next_hi. cbv zeta. rewrite midpoint_real.
  assert (Hp : 0 < 2 ^ k) by (apply pow_lt; lra).
  assert (Hhalf : (h - l) / 2
                  = (to_R (hdc_init_hi e) - to_R (hdc_init_lo e)) / 2 ^ S k).
  { rewrite Hw. simpl. field. lra. }
  destruct (hdc_y_is_lo e _); cbn [negb]; do 2 eexists;
    (split; [reflexivity |]); (split; [reflexivity |]); lra.
Qed.

(** X20: every iteration of the search of [beta_highest_density_coverage]
    halves the bracket of every entry, and the number of iterations is
    enough: when the loop ends each bracket is its initial width divided
    by [2 ^ n_iter], which is at most [atol]. *)
Theorem highest_density_coverage_bracket :
  forall (a b x : ndarray float64) env t,
    Np.broadcast3 a b x = Ok env ->
    Np.elements env <> [] ->
    (forall e, In e (Np.elements env) -> hdi_entry_valid e) ->
    0 < t ->
    exists n s0 lower x_pdf s',
      hdc_setup a b x (Fin t) = Ok (n, s0, lower, x_pdf) /\
      for_range n (hdc_body a b lower x_pdf) s0 = Ok s' /\
      exists flo fhi,
        y_lo s' = Np.map flo env /\ y_hi s' = Np.map fhi env /\
        forall e, In e (Np.elements env) ->
          exists l h,
            flo e = Fin l /\ fhi e = Fin h /\
            h - l = (to_R (hdc_init_hi e) - to_R (hdc_init_lo e)) / 2 ^ n /\
            0 <= h - l <= t.
Proof.
  intros a b x env t Henv Hne Hvalid Ht.
  assert (Hmode : forall e, In e (Np.elements env) ->
                    no_mode (entry_a e) (entry_b e) = false)
    by (intros e He; apply valid_has_mode; auto).
  destruct (hdc_setup_env a b x env Henv Hne Hmode t Ht)
    as (n & s0 & Hn & _ & E).
  rewrite (hdc_setup_unfold a b x env Henv Hne Hmode) in E.
  rewrite (hdc_setup_unfold a b x env Henv Hne Hmode).
  destruct (n_iterations _ (Fin t)) as [k |] eqn:Ek; [| discriminate].
  cbn [bind] in *. injection E as <- _.
  destruct (Z.to_nat k) as [| n] eqn:En; [lia |].
  match goal with
  | |- context [Ok (_, ?s0, _, _)] =>
      destruct (hdc_loop_entrywise a b x env Henv
                  (fun k e lo hi =>
                     exists l h, lo = Fin l /\ hi = Fin h /\
                       h - l = (to_R (hdc_init_hi e) - to_R (hdc_init_lo e))
                               / 2 ^ k)
                  (fun k e lo hi _ => hdc_halving_step k e lo hi)
                  n 0%nat hdc_init_lo hdc_init_hi s0 eq_refl eq_refl)
        as (plo & phi & HI & Hrun)
  end.
  { intros e He. destruct (hdc_init_finite e (Hvalid e He)) as (l0 & h0 & El & Eh & _).
    exists l0, h0. rewrite El, Eh. cbn [to_R pow].
    repeat split. lra. }
  do 5 eexists. split; [reflexivity |]. split; [exact Hrun |].
  do 2 eexists. cbn [y_lo y_hi]. split; [reflexivity |]. split; [reflexivity |].
  intros e He.
  destruct (hdc_halving_step _ e _ _ (HI e He)) as (l & h & El & Eh & Hw).
  exists l, h. split; [exact El |]. split; [exact Eh |].
  cbn [Nat.add] in Hw. split; [exact Hw |].
  destruct (hdc_init_finite e (Hvalid e He)) as (l0 & h0 & El0 & Eh0 & Hlh0).
  rewrite El0, Eh0 in Hw. cbn [to_R] in Hw. rewrite Hw.
  assert (Hp : 0 < 2 ^ S n) by (apply pow_lt; lra).
  split.
  - apply Rmult_le_pos; [lra |]. left. now apply Rinv_0_lt_compat.
  - rewrite <- En.
    assert (Hfin : all finite
                     (Np.map (fun e => F.sub (hdc_init_hi e) (hdc_init_lo e)) env)).
    { unfold all. rewrite elements_map. apply Forall_map, Forall_forall.
      intros e' He'.
      destruct (hdc_init_finite e' (Hvalid e' He')) as (l1 & h1 & -> & -> & _).
      eexists. reflexivity. }
    apply (n_iterations_enough _ t k Ht Hfin Ek).
    rewrite elements_map. apply in_map_iff. exists e. split; [| assumption].
    rewrite El0, Eh0. reflexivity.
Qed.

Lemma highest_density_coverage_bracket_witness :
  exists n s0 lower x_pdf s',
    hdc_setup (Scalar (Fin 2)) (Scalar (Fin 3)) (Vector [Fin 0; Fin (1 / 2)])
      default_atol = Ok (n, s0, lower, x_pdf) /\
    for_range n
      (hdc_body (Scalar (Fin 2)) (Scalar (Fin 3)) lower x_pdf) s0 = Ok s'.
Proof.
  destruct (highest_density_coverage_bracket
              (Scalar (Fin 2)) (Scalar (Fin 3)) (Vector [Fin 0; Fin (1 / 2)])
              (Vector [(Fin 2, Fin 3, Fin 0); (Fin 2, Fin 3, Fin (1 / 2))])
              (/ 10 ^ 10) eq_refl)
    as (n & s0 & lower & x_pdf & s' & E & Hrun & _).
  - discriminate.
  - intros e [<- | [<- | []]].
    + exists 2, 3, 0. repeat split; lra.
    + exists 2, 3, (1 / 2). repeat split; lra.
  - apply default_atol_pos.
  - exists n, s0, lower, x_pdf, s'. now split.
Defined.

(** *** A tolerance that is not positive *)

Lemma max_positive (m : ndarray float64) :
  all positive m -> Np.elements m <> [] ->
  exists w, Np.max m = Ok (Fin w) /\ 0 < w.
Proof.
  intros Hpos Hne.
  assert (Hfin : all finite m).
  { eapply Forall_impl; [| exact Hpos]. intros v (r & -> & _). now exists r. }
  destruct (max_bound m Hfin Hne) as (w & E & Hbound).
  exists w. split; [exact E |].
  unfold all in Hpos. destruct (Np.elements m) as [| v l]; [congruence |].
  inversion Hpos as [| ? ? (r & -> & Hr) _]; subst.
  specialize (Hbound r ltac:(now left)). lra.
Qed.

(** With a tolerance of zero the number of iterations is infinite, and
    converting it to an integer raises. *)
Lemma n_iterations_zero_atol width :
  all positive width -> Np.elements width <> [] ->
  n_iterations width (Fin 0) = Raise OverflowError.
Proof.
  intros Hpos Hne. destruct (max_positive width Hpos Hne) as (w & E & Hw).
  unfold n_iterations. rewrite E. cbn [bind]. simpl.
  rewrite Reqb_true by reflexivity. unfold F.signed_inf.
  rewrite Rltb_true by assumption.
  unfold py_max, F.gt, F.log2. simpl.
  pose proof ln_2_pos. now rewrite Rltb_false by lra.
Qed.

(** With a negative tolerance it is 1. *)
Lemma n_iterations_negative_atol width t :
  all positive width -> Np.elements width <> [] -> t < 0 ->
  n_iterations width (Fin t) = Ok 1%Z.
Proof.
  intros Hpos Hne Ht. destruct (max_positive width Hpos Hne) as (w & E & Hw).
  unfold n_iterations. rewrite E. cbn [bind]. simpl.
  rewrite Reqb_false by lra.
  assert (Hneg : w / t < 0).
  { unfold Rdiv. apply Ropp_lt_cancel. rewrite Ropp_0, Ropp_mult_distr_r.
    apply Rmult_lt_0_compat; [assumption |].
    rewrite <- Rinv_opp. apply Rinv_0_lt_compat. lra. }
  unfold py_max, F.gt. simpl. rewrite Rltb_false by lra.
  destruct (iterations_of_real 2 ltac:(lra)) as [-> _].
  pose proof ln_2_pos.
  replace (- (ln 2 / ln 2)) with (IZR (-1)) by (field; lra).
  now rewrite Int_part_IZR.
Qed.

Lemma beta_mode_interior ra rb : 1 < ra -> 1 < rb ->
  exists m, beta_mode (Fin ra) (Fin rb) = Fin m /\ 0 < m < 1.
Proof.
  intros Ha Hb. unfold beta_mode. simpl.
  rewrite Reqb_false by lra.
  assert (Hd : 0 < / (ra + rb + - (2))) by (apply Rinv_0_lt_compat; lra).
  assert (Hm : 0 < (ra + - (1)) / (ra + rb + - (2)) < 1).
  { split.
    - apply Rmult_lt_0_compat; lra.
    - apply Rmult_lt_reg_r with (ra + rb + - (2)); [lra |].
      unfold Rdiv. rewrite Rmult_assoc, Rinv_l by lra. lra. }
  eexists. split; [apply clip_id; lra | exact Hm].
Qed.

(** X21: the tolerance is not validated.  For shape parameters above 1,
    [beta_highest_density_coverage] with [atol = 0] raises OverflowError
    (the number of iterations is infinite), and with a negative [atol]
    the search runs exactly one iteration. *)
Theorem highest_density_coverage_atol :
  forall (beta : BetaEvaluator) (a b x : ndarray float64) env,
    Np.broadcast3 a b x = Ok env ->
    Np.elements env <> [] ->
    (forall e, In e (Np.elements env) ->
       exists ra rb rx, e = (Fin ra, Fin rb, Fin rx) /\ 1 < ra /\ 1 < rb) ->
    beta_highest_density_coverage beta a b x (Fin 0) = Raise OverflowError /\
    forall t, t < 0 ->
      exists s0 lower x_pdf,
        hdc_setup a b x (Fin t) = Ok (1%nat, s0, lower, x_pdf).
Proof.
  intros beta a b x env Henv Hne Hent.
  assert (Hmode : forall e, In e (Np.elements env) ->
                    no_mode (entry_a e) (entry_b e) = false).
  { intros e He. destruct (Hent e He) as (ra & rb & rx & -> & Ha & Hb).
    unfold no_mode, entry_a. simpl. now rewrite Rleb_false by lra. }
  assert (Hpos : all positive
                   (Np.map (fun e => F.sub (hdc_init_hi e) (hdc_init_lo e)) env)).
  { unfold all. rewrite elements_map. apply Forall_map, Forall_forall.
    intros e He. destruct (Hent e He) as (ra & rb & rx & -> & Ha & Hb).
    unfold hdc_init_hi, hdc_init_lo, entry_a, entry_b. cbn [fst snd].
    destruct (beta_mode_interior ra rb Ha Hb) as (m & -> & Hm).
    destruct (hdc_lower _); simpl; eexists; (split; [reflexivity | lra]). }
  assert (Hwne : Np.elements
                   (Np.map (fun e => F.sub (hdc_init_hi e) (hdc_init_lo e)) env)
                 <> [])
    by now apply elements_map_nonempty.
  split.
  - apply hdc_raise_of_setup.
    rewrite (hdc_setup_unfold a b x env Henv Hne Hmode).
    now rewrite n_iterations_zero_atol.
  - intros t Ht.
    rewrite (hdc_setup_unfold a b x env Henv Hne Hmode).
    rewrite n_iterations_negative_atol by assumption.
    cbn [bind]. do 3 eexists. reflexivity.
Qed.

Lemma highest_density_coverage_atol_witness :
  beta_highest_density_coverage reference_beta
    (Scalar (Fin 2)) (Vector [Fin 3; Fin 5]) (Scalar (Fin (1 / 4))) (Fin 0)
  = Raise OverflowError.
Proof.
  apply (highest_density_coverage_atol reference_beta
           (Scalar (Fin 2)) (Vector [Fin 3; Fin 5]) (Scalar (Fin (1 / 4)))
           (Vector [(Fin 2, Fin 3, Fin (1 / 4)); (Fin 2, Fin 5, Fin (1 / 4))])
           eq_refl).
  - discriminate.
  - intros e [<- | [<- | []]].
    + exists 2, 3, (1 / 4). repeat split; lra.
    + exists 2, 5, (1 / 4). repeat split; lra.
Defined.

(** *** The search of [beta_highest_density_interval] halves its bracket *)

(** The density proxy of a point of [[0, 1]] is a number or plus
    infinity, never a nan. *)
Lemma density_proxy_not_nan x ra rb :
  0 <= x <= 1 -> 0 < ra -> 0 < rb -> 1 < ra \/ 1 < rb ->
  density_proxy (Fin x) (Fin ra) (Fin rb) <> NaN.
Proof.
  intros Hx Ha Hb Hab. unfold density_proxy. simpl.
  destruct (Reqb_spec (rb + - (1)) 0) as [Hb1 | Hb1].
  - unfold F.signed_inf. rewrite Rltb_true by lra. simpl.
    rewrite Rabs_right by lra.
    destruct (Reqb_spec x 1) as [-> | Hx1]; [discriminate |].
    rewrite Rltb_true by lra. discriminate.
  - simpl. destruct (Reqb _ 0); [discriminate |].
    destruct (Rltb_spec 0 x) as [Hpos | Hnpos]; [discriminate |].
    rewrite Reqb_true by lra.
    destruct (Rltb 0 _); [discriminate |].
    simpl. unfold F.signed_inf.
    rewrite Rltb_true by lra. discriminate.
Qed.

Lemma le_or_ge p q : p <> NaN -> q <> NaN -> F.le p q = false -> F.ge p q = true.
Proof.
  unfold F.ge. destruct p as [u | | |], q as [v | | |]; simpl;
    try congruence; try reflexivity.
  intros _ _. destruct (Rleb_spec u v); [discriminate |].
  intros _. apply Rleb_true. lra.
Qed.

Section HdiHalving.

Variable beta : BetaEvaluator.
Hypothesis contract : BetaContract beta.

Variables a b coverage : ndarray float64.
Variable env : ndarray entry.
Hypothesis Henv : Np.broadcast3 a b coverage = Ok env.
Hypothesis Hne : Np.elements env <> [].
Hypothesis Hvalid : forall e, In e (Np.elements env) -> hdi_entry_valid e.

(** One step of an entry: the bracket stays an interval of [[0, 1]] and
  its width is at most half of what it was. *)
Lemma hdi_halving_step k e lo hi : In e (Np.elements env) ->
(exists l h, lo = Fin l /\ hi = Fin h /\ 0 <= l /\ l <= h /\ h <= 1 /\
   h - l <= (to_R (hdi_init_hi beta (entry_a e) (entry_b e) (entry_c e))
             - to_R (hdi_init_lo beta (entry_a e) (entry_b e) (entry_c e)))
            / 2 ^ k) ->
exists l h,
  hdi_next_lo beta (entry_a e) (entry_b e) (entry_c e) lo hi = Fin l /\
  hdi_next_hi beta (entry_a e) (entry_b e) (entry_c e) lo hi = Fin h /\
  0 <= l /\ l <= h /\ h <= 1 /\
  h - l <= (to_R (hdi_init_hi beta (entry_a e) (entry_b e) (entry_c e))
            - to_R (hdi_init_lo beta (entry_a e) (entry_b e) (entry_c e)))
           / 2 ^ S k.
Proof.
intros He (l & h & -> & -> & Hl0 & Hlh & Hh1 & Hw).
destruct (hdi_entry_valid_inv e (Hvalid e He))
  as (ra & rb & rc & _ & Ea & Eb & Ec & Ha & Hb & Hc & Hab).
rewrite Ea, Eb, Ec in *.
destruct (hdi_entry_bounds beta contract ra rb rc Ha Hb Hc Hab)
  as (L & H & m & EL & EH & _ & _ & HLH & _).
rewrite EL, EH in *. cbn [to_R] in *.
assert (Hp : 0 < 2 ^ k) by (apply pow_lt; lra).
assert (Hhalf : (H - L) / 2 ^ S k = (H - L) / 2 ^ k / 2)
  by (simpl; field; lra).
assert (Hnn : 0 <= (H - L) / 2 ^ S k).
{ apply Rmult_le_pos; [lra |]. left. apply Rinv_0_lt_compat, pow_lt. lra. }
unfold hdi_next_lo, hdi_next_hi. cbv zeta. rewrite midpoint_real.
set (x := (l + h) / 2) in *.
destruct (hdi_upper_interval beta (contract_range beta contract)
            (Fin ra) (Fin rb) (Fin rc) (Fin x))
  as (x' & y & [= <-] & Ey & Hx0 & Hxy & Hy1);
  try (eexists; split; [reflexivity | unfold x; lra]).
rewrite Ey.
pose proof (density_proxy_not_nan x ra rb ltac:(lra) Ha Hb Hab) as Nx.
pose proof (density_proxy_not_nan y ra rb ltac:(lra) Ha Hb Hab) as Ny.
destruct (F.le (density_proxy (Fin x) (Fin ra) (Fin rb))
               (density_proxy (Fin y) (Fin ra) (Fin rb))) eqn:Hle.
- destruct (F.ge _ _); do 2 eexists;
    (split; [reflexivity |]); (split; [reflexivity |]);
    unfold x in *; repeat split; lra.
- rewrite (le_or_ge _ _ Nx Ny Hle). do 2 eexists.
  split; [reflexivity |]. split; [reflexivity |].
  unfold x in *. repeat split; lra.
Qed.

Lemma hdi_setup_widths t n s0 :
hdi_setup beta a b coverage (Fin t) = Ok (n, s0) ->
x_lo s0 = Np.map (fun e => hdi_init_lo beta (entry_a e) (entry_b e)
                             (entry_c e)) env ->
x_hi s0 = Np.map (fun e => hdi_init_hi beta (entry_a e) (entry_b e)
                             (entry_c e)) env ->
exists k,
  n_iterations
    (Np.map (fun e =>
               F.sub (hdi_init_hi beta (entry_a e) (entry_b e) (entry_c e))
                     (hdi_init_lo beta (entry_a e) (entry_b e) (entry_c e)))
       env) (Fin t) = Ok k /\
  n = Z.to_nat k.
Proof.
intros E Hlo Hhi.
destruct (hdi_setup_iterations _ _ _ _ _ _ _ E) as (width & k & Hw & Hk & -> & _).
rewrite Hlo, Hhi in Hw.
rewrite map2_full
  with (g2 := fun e => hdi_init_lo beta (entry_a e) (entry_b e) (entry_c e))
  in Hw by apply viewed_refl.
injection Hw as <-. now exists k.
Qed.

End HdiHalving.

(** X22: every iteration of the search of [beta_highest_density_interval]
    cuts the bracket of every entry to half its width or less, and the
    number of iterations is enough: when the loop ends each bracket is at
    most [atol] wide. *)
Theorem highest_density_interval_bracket :
  forall beta : BetaEvaluator,
    BetaContract beta ->
    forall (a b coverage : ndarray float64) env t,
      Np.broadcast3 a b coverage = Ok env ->
      Np.elements env <> [] ->
      (forall e, In e (Np.elements env) -> hdi_entry_valid e) ->
      0 < t ->
      exists n s0 s',
        hdi_setup beta a b coverage (Fin t) = Ok (n, s0) /\
        for_range n (hdi_body beta a b coverage) s0 = Ok s' /\
        exists flo fhi,
          x_lo s' = Np.map flo env /\ x_hi s' = Np.map fhi env /\
          forall e, In e (Np.elements env) ->
            exists l h,
              flo e = Fin l /\ fhi e = Fin h /\
              h - l <= (to_R (hdi_init_hi beta (entry_a e) (entry_b e)
                                (entry_c e))
                        - to_R (hdi_init_lo beta (entry_a e) (entry_b e)
                                  (entry_c e))) / 2 ^ n /\
              0 <= h - l <= t.
Proof.
  intros beta contract a b coverage env t Henv Hne Hvalid Ht.
  destruct (hdi_setup_env beta (contract_range beta contract) a b coverage env
              Henv Hne Hvalid t Ht) as (n & Hn & E).
  destruct (hdi_setup_widths beta a b coverage env _ _ _ E eq_refl eq_refl)
    as (k & Ek & Enk).
  destruct n as [| n]; [lia |].
  assert (Hinit : forall e, In e (Np.elements env) ->
            exists L H,
              hdi_init_lo beta (entry_a e) (entry_b e) (entry_c e) = Fin L /\
              hdi_init_hi beta (entry_a e) (entry_b e) (entry_c e) = Fin H /\
              0 <= L /\ L <= H /\ H <= 1).
  { intros e He.
    destruct (hdi_entry_valid_inv e (Hvalid e He))
      as (ra & rb & rc & _ & -> & -> & -> & Ha & Hb & Hc & Hab).
    destruct (hdi_entry_bounds beta contract ra rb rc Ha Hb Hc Hab)
      as (L & H & m & EL & EH & _ & HL0 & HLH & HHm & Hm1 & _).
    exists L, H. repeat split; (assumption || lra). }
  match type of E with
  | _ = Ok (_, ?s0) =>
      destruct (hdi_loop_entrywise beta a b coverage env Henv
                  (fun k e lo hi =>
                     exists l h, lo = Fin l /\ hi = Fin h /\
                       0 <= l /\ l <= h /\ h <= 1 /\
                       h - l <= (to_R (hdi_init_hi beta (entry_a e) (entry_b e)
                                         (entry_c e))
                                 - to_R (hdi_init_lo beta (entry_a e) (entry_b e)
                                           (entry_c e))) / 2 ^ k)
                  (hdi_halving_step beta contract env Hvalid)
                  n 0%nat _ _ s0 eq_refl eq_refl)
        as (plo & phi & HI & Hrun)
  end.
  { intros e He. destruct (Hinit e He) as (L & H & EL & EH & HL0 & HLH & HH1).
    exists L, H. rewrite EL, EH. cbn [to_R pow].
    repeat split; (assumption || lra). }
  do 3 eexists. split; [exact E |]. split; [exact Hrun |].
  do 2 eexists. cbn [x_lo x_hi]. split; [reflexivity |]. split; [reflexivity |].
  intros e He.
  destruct (hdi_halving_step beta contract env Hvalid _ e _ _ He
              (HI e He))
    as (l & h & El & Eh & Hl0 & Hlh & Hh1 & Hw).
  exists l, h. split; [exact El |]. split; [exact Eh |].
  cbn [Nat.add] in Hw. split; [exact Hw |].
  split; [lra |].
  destruct (Hinit e He) as (L & H & EL & EH & HL0 & HLH & HH1).
  rewrite EL, EH in Hw. cbn [to_R] in Hw.
  eapply Rle_trans; [exact Hw |]. rewrite Enk.
  assert (Hfin : all finite
            (Np.map (fun e =>
                       F.sub (hdi_init_hi beta (entry_a e) (entry_b e) (entry_c e))
                             (hdi_init_lo beta (entry_a e) (entry_b e) (entry_c e)))
               env)).
  { unfold all. rewrite elements_map. apply Forall_map, Forall_forall.
    intros e' He'. destruct (Hinit e' He') as (L' & H' & -> & -> & _).
    eexists. reflexivity. }
  apply (n_iterations_enough _ t k Ht Hfin Ek).
  rewrite elements_map. apply in_map_iff. exists e. split; [| assumption].
  rewrite EL, EH. reflexivity.
Qed.

Lemma highest_density_interval_bracket_witness :
  exists n s0 s',
    hdi_setup reference_beta
      (Scalar (Fin 2)) (Scalar (Fin 3)) (Vector [Fin (1 / 2); Fin (9 / 10)])
      default_atol = Ok (n, s0) /\
    for_range n
      (hdi_body reference_beta
         (Scalar (Fin 2)) (Scalar (Fin 3)) (Vector [Fin (1 / 2); Fin (9 / 10)]))
      s0 = Ok s'.
Proof.
  destruct (highest_density_interval_bracket reference_beta
              reference_beta_contract
              (Scalar (Fin 2)) (Scalar (Fin 3))
              (Vector [Fin (1 / 2); Fin (9 / 10)])
              (Vector [(Fin 2, Fin 3, Fin (1 / 2)); (Fin 2, Fin 3, Fin (9 / 10))])
              (/ 10 ^ 10) eq_refl)
    as (n & s0 & s' & E & Hrun & _).
  - discriminate.
  - intros e [<- | [<- | []]].
    + exists 2, 3, (1 / 2). repeat split; lra.
    + exists 2, 3, (9 / 10). repeat split; lra.
  - apply default_atol_pos.
  - exists n, s0, s'. now split.
Defined.

(** *** A mode at an end of the support *)

(** A bracket that starts as a point stays that point. *)
Lemma hdc_point_step e lo hi :
  (hdc_init_lo e = hdc_init_hi e ->
   exists v, lo = Fin v /\ hi = Fin v /\ hdc_init_lo e = Fin v) ->
  hdc_init_lo e = hdc_init_hi e ->
  exists v, hdc_next_lo e lo hi = Fin v /\ hdc_next_hi e lo hi = Fin v /\
            hdc_init_lo e = Fin v.
Proof.
  intros H Heq. destruct (H Heq) as (v & -> & -> & Ev).
  exists v. unfold hdc_next_lo, hdc_next_hi. cbv zeta. rewrite midpoint_real.
  replace ((v + v) / 2) with v by lra.
  destruct (hdc_y_is_lo e _); cbn [negb]; now repeat split.
Qed.

Section HdcPoint.

Variable beta : BetaEvaluator.
Variables a b x : ndarray float64.
Variable env : ndarray entry.
Hypothesis Henv : Np.broadcast3 a b x = Ok env.
Hypothesis Hne : Np.elements env <> [].
Hypothesis Hvalid : forall e, In e (Np.elements env) -> hdi_entry_valid e.

(** For the entries whose bracket is a point, the other end found is that
  point. *)
Lemma hdc_result_point t : 0 < t ->
exists gy,
  beta_highest_density_coverage beta a b x (Fin t)
  = Ok (Np.map (fun e => hdc_result beta e (gy e)) env) /\
  forall e, In e (Np.elements env) ->
    hdc_init_lo e = hdc_init_hi e -> gy e = hdc_init_lo e.
Proof.
intros Ht. unfold beta_highest_density_coverage.
assert (Hmode : forall e, In e (Np.elements env) ->
                  no_mode (entry_a e) (entry_b e) = false)
  by (intros e He; apply valid_has_mode; auto).
destruct (hdc_setup_env a b x env Henv Hne Hmode t Ht)
  as (n & s0 & Hn & _ & E).
rewrite (hdc_setup_unfold a b x env Henv Hne Hmode) in E.
rewrite (hdc_setup_unfold a b x env Henv Hne Hmode).
destruct (n_iterations _ (Fin t)) as [k |]; [| discriminate].
cbn [bind] in *. injection E as <- _.
destruct (Z.to_nat k) as [| n]; [lia |].
match goal with
| |- context [for_range (S n) _ ?s0] =>
    destruct (hdc_loop_entrywise a b x env Henv
                (fun _ e lo hi =>
                   hdc_init_lo e = hdc_init_hi e ->
                   exists v, lo = Fin v /\ hi = Fin v /\ hdc_init_lo e = Fin v)
                (fun _ e lo hi _ => hdc_point_step e lo hi)
                n 0%nat hdc_init_lo hdc_init_hi s0 eq_refl eq_refl)
      as (plo & phi & HI & ->)
end.
{ intros e He Heq.
  destruct (hdc_init_finite e (Hvalid e He)) as (l0 & h0 & El & Eh & _).
  exists l0. rewrite <- Heq, El. now repeat split. }
cbn [bind hdc_y read_local].
exists (fun e => midpoint (plo e) (phi e)).
split; [apply (hdc_finish beta a b x env Henv) |].
intros e He Heq. destruct (HI e He Heq) as (v & -> & -> & ->).
rewrite midpoint_real. f_equal. lra.
Qed.

End HdcPoint.

(** X23: when the code places the mode at an end of the support the
    coverage is a tail probability.  With the mode at 1 ([b <= 1 < a] and
    [a + b >= 2], or [a < 1 < b] and [a + b < 2]) the coverage of a point
    [x < 1] is [1 - cdf(x)]; with the mode at 0 ([a <= 1 < b] and
    [a + b >= 2], or [b < 1 < a] and [a + b < 2]) the coverage of [x] is
    [cdf(x)].  These undo the one-sided highest density intervals. *)
Theorem beta_highest_density_coverage_one_sided :
  forall beta : BetaEvaluator,
    BetaContract beta ->
    forall (a b x : ndarray float64) env t,
      Np.broadcast3 a b x = Ok env ->
      Np.elements env <> [] ->
      (forall e, In e (Np.elements env) -> hdi_entry_valid e) ->
      0 < t ->
      exists out,
        beta_highest_density_coverage beta a b x (Fin t) = Ok (Np.map out env) /\
        forall ra rb rx, In (Fin ra, Fin rb, Fin rx) (Np.elements env) ->
          ((rb <= 1 /\ 1 < ra /\ 2 <= ra + rb) \/
           (ra < 1 /\ 1 < rb /\ ra + rb < 2) ->
           rx < 1 ->
           out (Fin ra, Fin rb, Fin rx)
           = F.sub (Fin 1) (cdf beta (Fin ra) (Fin rb) (Fin rx))) /\
          ((ra <= 1 /\ 1 < rb /\ 2 <= ra + rb) \/
           (rb < 1 /\ 1 < ra /\ ra + rb < 2) ->
           out (Fin ra, Fin rb, Fin rx) = cdf beta (Fin ra) (Fin rb) (Fin rx)).
Proof.
  intros beta contract a b x env t Henv Hne Hvalid Ht.
  destruct (hdc_result_point beta a b x env Henv Hne Hvalid t Ht)
    as (gy & E & Hgy).
  eexists. split; [exact E |].
  intros ra rb rx He.
  destruct (hdi_entry_valid_inv _ (Hvalid _ He))
    as (ra' & rb' & rx' & [= <- <- <-] & _ & _ & _ & Ha & Hb & Hx & Hab).
  specialize (Hgy _ He). cbv beta.
  unfold hdc_result, hdc_init_lo, hdc_init_hi, hdc_lower, entry_a, entry_b,
    entry_c in *. cbn [fst snd] in *.
  destruct (cdf_real beta contract ra rb rx Ha Hb) as [Ex _].
  split.
  - intros Hcase Hx1. rewrite (beta_mode_1 ra rb Hcase) in *.
    cbn [F.lt] in *. rewrite Rltb_true in * by assumption.
    rewrite (Hgy eq_refl).
    destruct (cdf_real beta contract ra rb 1 Ha Hb) as [-> _].
    now rewrite (cdfR_1 beta contract) by assumption.
  - intros Hcase. rewrite (beta_mode_0 ra rb Hcase) in *.
    cbn [F.lt] in *. rewrite Rltb_false in * by lra.
    rewrite (Hgy eq_refl).
    destruct (cdf_real beta contract ra rb 0 Ha Hb) as [-> _].
    rewrite (cdfR_0 beta contract) by assumption.
    rewrite Ex. simpl. f_equal. lra.
Qed.

Lemma beta_highest_density_coverage_one_sided_witness :
  exists out,
    beta_highest_density_coverage reference_beta
      (Scalar (Fin 1)) (Scalar (Fin 3)) (Vector [Fin 0; Fin (1 / 4)]) default_atol
    = Ok (Np.map out (Vector [(Fin 1, Fin 3, Fin 0); (Fin 1, Fin 3, Fin (1 / 4))])) /\
    out (Fin 1, Fin 3, Fin (1 / 4))
    = cdf reference_beta (Fin 1) (Fin 3) (Fin (1 / 4)).
Proof.
  destruct (beta_highest_density_coverage_one_sided reference_beta
              reference_beta_contract
              (Scalar (Fin 1)) (Scalar (Fin 3)) (Vector [Fin 0; Fin (1 / 4)])
              (Vector [(Fin 1, Fin 3, Fin 0); (Fin 1, Fin 3, Fin (1 / 4))])
              (/ 10 ^ 10) eq_refl)
    as (out & E & Hent).
  - discriminate.
  - intros e [<- | [<- | []]].
    + exists 1, 3, 0. repeat split; lra.
    + exists 1, 3, (1 / 4). repeat split; lra.
  - apply default_atol_pos.
  - exists out. split; [exact E |].
    apply (Hent 1 3 (1 / 4)); [right; now left |]. left. lra.
Defined.
